(** * cel-go: the expression unparser and the literal-escape decoder

    A shallow embedding of [parser/unparser.go] (the function [Unparse] and
    the methods of the [unparser] visitor) together with the properties the
    specification states about it.  The escape decoder ([unescape]) is only
    exercised by [parser/unescape_test.go]; its implementation file is not
    part of the sources at hand, so it is modelled from the specification.

    Conventions of the embedding
    - Go strings are byte sequences: they are Rocq [string]s, one [ascii]
      per byte.  A rune is a [Z].
    - [int32] values are [Z]s; every narrowing conversion and every
      arithmetic operation that can leave the 32-bit range is wrapped
      explicitly with [Go.int32].  Go's [int] is taken to be 64 bits wide.
    - A Go method on [*unparser] that returns [error] is a computation in
      the monad [M]: it threads the [unparser] record and ends in [Ok]
      (a nil error), [Err e] (a returned error) or [Panic p] (a run-time
      panic, which unwinds through every caller).
    - Protocol-buffer messages are modelled as they come off the wire: a
      set oneof carries a message, repeated fields carry messages, and a
      singular message field may be absent ([None], Go's nil pointer). *)

From Stdlib Require Import ZArith Lia Ascii DecimalString PrimFloat.
From stdpp Require Import base option list gmap strings.

Local Open Scope Z_scope.

(** ** Strings as byte sequences *)

Lemma string_app_cons (a : ascii) (s t : string) :
  String a s +:+ t = String a (s +:+ t).
Proof. reflexivity. Qed.

Lemma string_app_nil_r (s : string) : s +:+ "" = s.
Proof.
  induction s as [|a s IH]; [done|]. by rewrite string_app_cons, IH.
Qed.

Lemma string_app_assoc (s t u : string) : (s +:+ t) +:+ u = s +:+ (t +:+ u).
Proof.
  induction s as [|a s IH]; [done|]. by rewrite !string_app_cons, IH.
Qed.

Lemma string_length_app (s t : string) :
  String.length (s +:+ t) = (String.length s + String.length t)%nat.
Proof.
  induction s as [|a s IH]; [done|]. rewrite string_app_cons. simpl.
  by rewrite IH.
Qed.

(** The one-byte string holding a double quote. *)
Definition dquote : string := String (Ascii.ascii_of_nat 34) "".

(** [strings.Repeat(" ", n)]: what [n] successive [WriteString(" ")] append. *)
Fixpoint spaces (n : nat) : string :=
  match n with
  | O => ""
  | S k => String " " (spaces k)
  end.

Lemma spaces_length (n : nat) : String.length (spaces n) = n.
Proof. induction n as [|n IH]; simpl; [done|]. by rewrite IH. Qed.

(** ** The parts of the Go language and library the unparser relies on *)

Module Go.

(** Conversion to [int32]: the value modulo 2^32, read as two's complement. *)
Definition int32 (z : Z) : Z := (z + 2 ^ 31) `mod` 2 ^ 32 - 2 ^ 31.

(** A [rune] is an [int32]. *)
Abbreviation rune := Z (only parsing).
Definition RuneError : rune := 0xFFFD.

Definition byte_of (a : ascii) : Z := Z.of_N (Ascii.N_of_ascii a).
Definition ascii_of (b : Z) : ascii := Ascii.ascii_of_N (Z.to_N b).

Definition bytes_of_string (s : string) : list Z :=
  byte_of <$> String.list_ascii_of_string s.
Definition string_of_bytes (bs : list Z) : string :=
  String.string_of_list_ascii (ascii_of <$> bs).

Definition in_range (lo hi b : Z) : bool := (lo <=? b) && (b <=? hi).

(** [unicode/utf8]: for a leading byte, the length of the encoding and
    the range accepted for the second byte (tables [first] and
    [acceptRanges]); [None] for a byte that cannot start a multi-byte
    encoding. *)
Definition lead (s0 : Z) : option (Z * Z * Z) :=
  if in_range 0xC2 0xDF s0 then Some (2, 0x80, 0xBF)
  else if s0 =? 0xE0 then Some (3, 0xA0, 0xBF)
  else if in_range 0xE1 0xEC s0 then Some (3, 0x80, 0xBF)
  else if s0 =? 0xED then Some (3, 0x80, 0x9F)
  else if in_range 0xEE 0xEF s0 then Some (3, 0x80, 0xBF)
  else if s0 =? 0xF0 then Some (4, 0x90, 0xBF)
  else if in_range 0xF1 0xF3 s0 then Some (4, 0x80, 0xBF)
  else if s0 =? 0xF4 then Some (4, 0x80, 0x8F)
  else None.

Definition continuation (b : Z) : bool := in_range 0x80 0xBF b.

(** [[]rune(s)]: repeated [utf8.DecodeRune]; an ill-formed sequence yields
    [RuneError] and consumes one byte. *)
Fixpoint DecodeRunes (s : list Z) : list rune :=
  match s with
  | [] => []
  | s0 :: rest =>
    if s0 <? 0x80 then s0 :: DecodeRunes rest
    else
      match lead s0 with
      | None => RuneError :: DecodeRunes rest
      | Some (sz, lo, hi) =>
        match rest with
        | [] => RuneError :: DecodeRunes rest
        | s1 :: rest1 =>
          if negb (in_range lo hi s1) then RuneError :: DecodeRunes rest
          else if sz <=? 2 then
            Z.lor (Z.shiftl (Z.land s0 0x1F) 6) (Z.land s1 0x3F)
              :: DecodeRunes rest1
          else
            match rest1 with
            | [] => RuneError :: DecodeRunes rest
            | s2 :: rest2 =>
              if negb (continuation s2) then RuneError :: DecodeRunes rest
              else if sz <=? 3 then
                Z.lor (Z.shiftl (Z.land s0 0x0F) 12)
                  (Z.lor (Z.shiftl (Z.land s1 0x3F) 6) (Z.land s2 0x3F))
                  :: DecodeRunes rest2
              else
                match rest2 with
                | [] => RuneError :: DecodeRunes rest
                | s3 :: rest3 =>
                  if negb (continuation s3) then RuneError :: DecodeRunes rest
                  else
                    Z.lor (Z.shiftl (Z.land s0 0x07) 18)
                      (Z.lor (Z.shiftl (Z.land s1 0x3F) 12)
                         (Z.lor (Z.shiftl (Z.land s2 0x3F) 6) (Z.land s3 0x3F)))
                      :: DecodeRunes rest3
                end
            end
        end
      end
  end.

(** [utf8.EncodeRune]; runes that are not Unicode scalar values are
    encoded as [RuneError]. *)
Definition EncodeRune (r : rune) : list Z :=
  if (0 <=? r) && (r <=? 0x7F) then [r]
  else if (0 <=? r) && (r <=? 0x7FF) then
    [Z.lor 0xC0 (Z.shiftr r 6); Z.lor 0x80 (Z.land r 0x3F)]
  else if (r <? 0) || (0x10FFFF <? r) || in_range 0xD800 0xDFFF r then
    [0xEF; 0xBF; 0xBD]
  else if r <=? 0xFFFF then
    [Z.lor 0xE0 (Z.shiftr r 12);
     Z.lor 0x80 (Z.land (Z.shiftr r 6) 0x3F);
     Z.lor 0x80 (Z.land r 0x3F)]
  else
    [Z.lor 0xF0 (Z.shiftr r 18);
     Z.lor 0x80 (Z.land (Z.shiftr r 12) 0x3F);
     Z.lor 0x80 (Z.land (Z.shiftr r 6) 0x3F);
     Z.lor 0x80 (Z.land r 0x3F)].

(** The conversions [[]rune(s)] and [string(rs)]. *)
Definition runes_of_string (s : string) : list rune :=
  DecodeRunes (bytes_of_string s).
Definition string_of_runes (rs : list rune) : string :=
  string_of_bytes (rs ≫= EncodeRune).

(** [strconv.FormatBool], [strconv.FormatInt(i, 10)] and
    [strconv.FormatUint(u, 10)]. *)
Definition FormatBool (b : bool) : string := if b then "true" else "false".
Definition FormatInt (i : Z) : string := NilZero.string_of_int (Z.to_int i).
Definition FormatUint (u : Z) : string :=
  NilZero.string_of_uint (N.to_uint (Z.to_N u)).

(** Run-time panics. *)
Inductive panic : Type :=
| NilDereference                          (* field access through a nil pointer *)
| IndexOutOfRange (i : Z) (len : nat).    (* s[i] with i outside 0 <= i < len(s) *)

End Go.

(** The two [strconv] functions whose results depend on Unicode tables and
    on floating-point printing are left abstract. *)
Class Strconv := {
  (** [strconv.Quote] *)
  Quote : string → string;
  (** [strconv.FormatFloat(d, 'g', -1, 64)] *)
  FormatFloat : float → string;
}.

(** ** The expression tree ([exprpb.Expr]) and the source information *)

Inductive Constant : Type :=
| Constant_NotSet
| Constant_BoolValue (b : bool)
| Constant_BytesValue (b : string)
| Constant_DoubleValue (d : float)
| Constant_Int64Value (i : Z)
| Constant_NullValue
| Constant_StringValue (s : string)
| Constant_Uint64Value (u : Z).

Local Unset Elimination Schemes.

Inductive Expr : Type :=
| Expr_NotSet (id : Z)
| Expr_ConstExpr (id : Z) (c : Constant)
| Expr_IdentExpr (id : Z) (name : string)
| Expr_SelectExpr (id : Z) (operand : option Expr) (field : string)
    (test_only : bool)
| Expr_CallExpr (id : Z) (target : option Expr) (function : string)
    (args : list Expr)
| Expr_ListExpr (id : Z) (elements : list Expr)
| Expr_StructExpr (id : Z) (message_name : string) (entries : list Entry)
| Expr_ComprehensionExpr (id : Z) (iter_var : string)
    (iter_range : option Expr) (accu_var : string)
    (accu_init loop_condition loop_step result : option Expr)
with Entry : Type :=
| Entry_NotSet (id : Z) (value : option Expr)
| Entry_FieldKey (id : Z) (field_key : string) (value : option Expr)
| Entry_MapKey (id : Z) (map_key : Expr) (value : option Expr).

Local Set Elimination Schemes.

(** [expr.GetCallExpr().GetFunction()], when [expr.GetCallExpr() != nil]. *)
Definition call_function (e : Expr) : option string :=
  match e with
  | Expr_CallExpr _ _ f _ => Some f
  | _ => None
  end.

Definition is_comprehension (e : Expr) : bool :=
  match e with
  | Expr_ComprehensionExpr _ _ _ _ _ _ _ _ => true
  | _ => false
  end.

Definition Entry_GetId (en : Entry) : Z :=
  match en with
  | Entry_NotSet id _ | Entry_FieldKey id _ _ | Entry_MapKey id _ _ => id
  end.

Definition Entry_GetFieldKey (en : Entry) : string :=
  match en with
  | Entry_FieldKey _ f _ => f
  | _ => ""
  end.

Definition Entry_GetMapKey (en : Entry) : option Expr :=
  match en with
  | Entry_MapKey _ k _ => Some k
  | _ => None
  end.

Definition Entry_GetValue (en : Entry) : option Expr :=
  match en with
  | Entry_NotSet _ v | Entry_FieldKey _ _ v | Entry_MapKey _ _ v => v
  end.

(** [exprpb.SourceInfo]: [positions] is a [map<int64, int32>] and
    [line_offsets] a repeated [int32].  A nil [*SourceInfo] behaves as the
    empty record, because only the nil-safe getters are used. *)
Record SourceInfo : Type := {
  positions : gmap Z Z;
  line_offsets : list Z;
}.

(** ** The package [common/operators]

    The unparser uses the operator-name constants, [operators.Precedence]
    and [operators.FindReverse] of a package whose source is not at hand.
    They are parameters of the development.  The constants label the cases
    of one [switch] statement, so the Go compiler guarantees that they are
    pairwise different. *)
Class Operators := {
  Conditional : string;
  Index : string;
  LogicalNot : string;
  Negate : string;
  Add : string;
  Divide : string;
  Equals : string;
  Greater : string;
  GreaterEquals : string;
  In : string;
  Less : string;
  LessEquals : string;
  LogicalAnd : string;
  LogicalOr : string;
  Modulo : string;
  Multiply : string;
  NotEquals : string;
  OldIn : string;
  Subtract : string;
  Precedence : string → Z;
  FindReverse : string → option string;
  operators_distinct :
    NoDup [Conditional; Index; LogicalNot; Negate; Add; Divide; Equals;
           Greater; GreaterEquals; In; Less; LessEquals; LogicalAnd;
           LogicalOr; Modulo; Multiply; NotEquals; OldIn; Subtract];
}.

(** ** The visitor state and its monad *)

(** The three [fmt.Errorf] call sites; the format verb is kept as the
    constructor's argument instead of being printed. *)
Inductive error : Type :=
| UnsupportedExpr (e : Expr)     (* "unsupported expr: %v" *)
| CannotUnmangle (fn : string)   (* "cannot unmangle operator: %s" *)
| Unimplemented (e : Expr).      (* "unimplemented : %v" *)

Definition error_prefix (e : error) : string :=
  match e with
  | UnsupportedExpr _ => "unsupported expr: "
  | CannotUnmangle _ => "cannot unmangle operator: "
  | Unimplemented _ => "unimplemented : "
  end.

(** The [unparser] struct.  [str] is the content of the [strings.Builder].
    [visited] is a ghost field: it records, in call order, the argument of
    every call of [visit]; no code reads it. *)
Record unparser : Type := mk_unparser {
  info : SourceInfo;
  str : string;
  offset : Z;
  visited : list Expr;
}.

Definition set_str (s : string) (un : unparser) : unparser :=
  mk_unparser (info un) s (offset un) (visited un).

Definition set_visited (v : list Expr) (un : unparser) : unparser :=
  mk_unparser (info un) (str un) (offset un) v.

Inductive outcome (A : Type) : Type :=
| Ok (a : A)
| Err (e : error)
| Panic (p : Go.panic).
Arguments Ok {A} a.
Arguments Err {A} e.
Arguments Panic {A} p.

Definition M (A : Type) : Type := unparser → outcome A * unparser.

Definition ret {A : Type} (a : A) : M A := λ un, (Ok a, un).

Definition bind {A B : Type} (m : M A) (f : A → M B) : M B :=
  λ un,
    match m un with
    | (Ok a, un') => f a un'
    | (Err e, un') => (Err e, un')
    | (Panic p, un') => (Panic p, un')
    end.

Definition fail {A : Type} (e : error) : M A := λ un, (Err e, un).
Definition panic {A : Type} (p : Go.panic) : M A := λ un, (Panic p, un).

#[global] Instance M_ret : MRet M := @ret.
#[global] Instance M_bind : MBind M := λ A B f m, bind m f.

(** [un.str.WriteString(s)] *)
Definition WriteString (s : string) : M unit :=
  λ un, (Ok (), set_str (str un +:+ s) un).

(** Ghost step at the entry of [visit]. *)
Definition trace (e : Expr) : M unit :=
  λ un, (Ok (), set_visited (visited un ++ [e]) un).

(** A counted loop: [n] executions of the body. *)
Fixpoint times (n : nat) (body : M unit) : M unit :=
  match n with
  | O => ret ()
  | S k => body ;; times k body
  end.

(** [for i, x := range xs { body }] *)
Definition for_range {A : Type} (body : Z → A → M unit) : Z → list A → M unit :=
  fix go (i : Z) (xs : list A) : M unit :=
    match xs with
    | [] => ret ()
    | x :: xs' => body i x ;; go (i + 1) xs'
    end.

(** ** The unparser *)

Section Unparser.
Context {ops : Operators} {sc : Strconv}.

(** [pos] returns the source character offset of the expression id; a
    key missing from a Go map reads as the zero value. *)
Definition pos (id : Z) : M Z :=
  λ un, (Ok (default 0 (positions (info un) !! id)), un).

(** [pad] potentially adds spaces from the current string builder
    position to the original position of the input expression id.  The
    loop [for ; last < next; last++] runs [next - last] times when
    [last < next] and not at all otherwise. *)
Definition pad (id : Z) : M unit :=
  λ un,
    let last := Go.int32 (Z.of_nat (String.length (str un))) in
    (next ← pos id;
     times (Z.to_nat (next - last)) (WriteString " ")) un.

Definition isLeftRecursive (op : string) : bool :=
  negb (bool_decide (op = LogicalAnd)) && negb (bool_decide (op = LogicalOr)).

Definition isSamePrecedence (op : string) (expr : Expr) : bool :=
  match expr with
  | Expr_CallExpr _ _ other _ => Precedence op =? Precedence other
  | _ => false
  end.

Definition isLowerPrecedence (op : string) (expr : Expr) : bool :=
  match expr with
  | Expr_CallExpr _ _ other _ => Precedence op <? Precedence other
  | _ => false
  end.

(** The methods below call [un.visit] on sub-expressions; they take it as
    the argument [visit], and [visit] itself closes the recursion.  A
    method that starts with [c := expr.GetCallExpr()] and the like takes
    the fields it reads. *)
Section Methods.
Variable visit : Expr → M unit.

(** [un.visit(p)] for a pointer field that may be nil: the type switch
    on [expr.ExprKind] dereferences it. *)
Definition visit_ptr (p : option Expr) : M unit :=
  match p with
  | Some e => visit e
  | None => panic Go.NilDereference
  end.

(** [un.visit(entry.GetMapKey())] and [un.visit(entry.GetValue())], by
    cases on the entry (see [visit_map_key_getter] and
    [visit_value_getter]). *)
Definition visit_map_key (entry : Entry) : M unit :=
  match entry with
  | Entry_MapKey _ k _ => visit k
  | _ => panic Go.NilDereference
  end.

Definition visit_value (entry : Entry) : M unit :=
  match entry with
  | Entry_NotSet _ v | Entry_FieldKey _ _ v | Entry_MapKey _ _ v =>
    visit_ptr v
  end.

Definition visitMaybeNested (expr : Expr) (nested : bool) : M unit :=
  (if nested then WriteString "(" else ret ());;
  visit expr;;
  (if nested then WriteString ")" else ret ()).

Definition visitCallBinary (id : Z) (fn : string) (args : list Expr) : M unit :=
  match args with
  | [] => panic (Go.IndexOutOfRange 0 (length args))
  | lhs :: args' =>
    let lhsParen := isLowerPrecedence fn lhs in
    match args' with
    | [] => panic (Go.IndexOutOfRange 1 (length args))
    | rhs :: _ =>
      let rhsParen := isLowerPrecedence fn rhs in
      let rhsParen :=
        if negb rhsParen && isLeftRecursive fn
        then isSamePrecedence fn rhs else rhsParen in
      visitMaybeNested lhs lhsParen;;
      match FindReverse fn with
      | None => fail (CannotUnmangle fn)
      | Some unmangled =>
        WriteString " ";;
        pad id;;
        WriteString unmangled;;
        WriteString " ";;
        visitMaybeNested rhs rhsParen
      end
    end
  end.

Definition visitCallConditional (id : Z) (args : list Expr) : M unit :=
  match args with
  | [] => panic (Go.IndexOutOfRange 0 (length args))
  | a0 :: args1 =>
    visitMaybeNested a0 (isSamePrecedence Conditional a0);;
    pad id;;
    WriteString "? ";;
    match args1 with
    | [] => panic (Go.IndexOutOfRange 1 (length args))
    | a1 :: args2 =>
      visitMaybeNested a1 (isSamePrecedence Conditional a1);;
      WriteString " : ";;
      match args2 with
      | [] => panic (Go.IndexOutOfRange 2 (length args))
      | a2 :: _ => visitMaybeNested a2 (isSamePrecedence Conditional a2)
      end
    end
  end.

Definition visitCallFunc (id : Z) (target : option Expr) (fn : string)
    (args : list Expr) : M unit :=
  match target with
  | Some t => visit t;; WriteString "."
  | None => ret ()
  end;;
  WriteString fn;;
  pad id;;
  WriteString "(";;
  for_range (λ i arg,
    visit arg;;
    if i <? Z.of_nat (length args) - 1 then WriteString "," else ret ())
    0 args;;
  WriteString ")".

Definition visitCallIndex (id : Z) (args : list Expr) : M unit :=
  match args with
  | [] => panic (Go.IndexOutOfRange 0 (length args))
  | a0 :: args1 =>
    visit a0;;
    pad id;;
    WriteString "[";;
    match args1 with
    | [] => panic (Go.IndexOutOfRange 1 (length args))
    | a1 :: _ => visit a1;; WriteString "]"
    end
  end.

Definition visitCallUnary (id : Z) (fn : string) (args : list Expr) : M unit :=
  pad id;;
  match FindReverse fn with
  | None => fail (CannotUnmangle fn)
  | Some unmangled =>
    WriteString unmangled;;
    match args with
    | [] => panic (Go.IndexOutOfRange 0 (length args))
    | a0 :: _ => visit a0
    end
  end.

(** The [switch fun] of [visitCall]; cases are tried in source order. *)
Definition visitCall (id : Z) (target : option Expr) (fn : string)
    (args : list Expr) : M unit :=
  if bool_decide (fn = Conditional) then visitCallConditional id args
  else if bool_decide (fn = Index) then visitCallIndex id args
  else if bool_decide (fn ∈ [LogicalNot; Negate]) then visitCallUnary id fn args
  else if bool_decide (fn ∈ [Add; Divide; Equals; Greater; GreaterEquals;
                             In; Less; LessEquals; LogicalAnd; LogicalOr;
                             Modulo; Multiply; NotEquals; OldIn; Subtract])
  then visitCallBinary id fn args
  else visitCallFunc id target fn args.

Definition visitComprehension (expr : Expr) : M unit :=
  fail (Unimplemented expr).

Definition visitConst (expr : Expr) (id : Z) (c : Constant) : M unit :=
  pad id;;
  match c with
  | Constant_BoolValue b => WriteString (Go.FormatBool b)
  | Constant_BytesValue b =>
    WriteString ("b" +:+ dquote);; WriteString b;; WriteString dquote
  | Constant_DoubleValue d => WriteString (FormatFloat d)
  | Constant_Int64Value i => WriteString (Go.FormatInt i)
  | Constant_NullValue => WriteString "null"
  | Constant_StringValue s => WriteString (Quote s)
  | Constant_Uint64Value u =>
    WriteString (Go.FormatUint u);; WriteString "u"
  | Constant_NotSet => fail (Unimplemented expr)
  end.

Definition visitIdent (id : Z) (name : string) : M unit :=
  pad id;;
  WriteString name.

Definition visitList (id : Z) (elems : list Expr) : M unit :=
  pad id;;
  WriteString "[";;
  for_range (λ i elem,
    visit elem;;
    if i <? Z.of_nat (length elems) - 1 then WriteString "," else ret ())
    0 elems;;
  WriteString "]".

Definition visitSelect (id : Z) (operand : option Expr) (field : string)
    (test_only : bool) : M unit :=
  (if test_only then WriteString "has(" else ret ());;
  visit_ptr operand;;
  pad id;;
  WriteString ".";;
  WriteString field;;
  (if test_only then WriteString ")" else ret ()).

Definition visitStructMsg (id : Z) (message_name : string)
    (entries : list Entry) : M unit :=
  WriteString message_name;;
  pad id;;
  WriteString "{";;
  for_range (λ i entry,
    WriteString (Entry_GetFieldKey entry);;
    pad (Entry_GetId entry);;
    WriteString ": ";;
    visit_value entry;;
    if i <? Z.of_nat (length entries) - 1 then WriteString ", " else ret ())
    0 entries;;
  WriteString "}".

Definition visitStructMap (id : Z) (entries : list Entry) : M unit :=
  pad id;;
  WriteString "{";;
  for_range (λ i entry,
    visit_map_key entry;;
    pad (Entry_GetId entry);;
    WriteString ": ";;
    visit_value entry;;
    if i <? Z.of_nat (length entries) - 1 then WriteString ", " else ret ())
    0 entries;;
  WriteString "}".

Definition visitStruct (id : Z) (message_name : string)
    (entries : list Entry) : M unit :=
  if bool_decide (message_name ≠ "") then visitStructMsg id message_name entries
  else visitStructMap id entries.

(** The type switch of [visit]. *)
Definition visit_dispatch (expr : Expr) : M unit :=
  match expr with
  | Expr_CallExpr id target fn args => visitCall id target fn args
  | Expr_ComprehensionExpr _ _ _ _ _ _ _ _ => visitComprehension expr
  | Expr_ConstExpr id c => visitConst expr id c
  | Expr_IdentExpr id name => visitIdent id name
  | Expr_ListExpr id elems => visitList id elems
  | Expr_SelectExpr id operand field test_only =>
    visitSelect id operand field test_only
  | Expr_StructExpr id message_name entries =>
    visitStruct id message_name entries
  | Expr_NotSet _ => fail (UnsupportedExpr expr)
  end.
End Methods.

Fixpoint visit (expr : Expr) : M unit :=
  trace expr;;
  visit_dispatch visit expr.

(** The two entry visitors are the calls [un.visit(entry.GetMapKey())] and
    [un.visit(entry.GetValue())] of the source. *)
Lemma visit_map_key_getter (entry : Entry) :
  visit_map_key visit entry = visit_ptr visit (Entry_GetMapKey entry).
Proof. by destruct entry. Qed.

Lemma visit_value_getter (entry : Entry) :
  visit_value visit entry = visit_ptr visit (Entry_GetValue entry).
Proof. by destruct entry. Qed.

(** *** [Unparse] *)

(** What a call of [Unparse] ends in: the returned pair, or a panic. *)
Inductive result : Type :=
| Returned (s : string) (err : option error)
| Panicked (p : Go.panic).

(** The inner loop [for ; br-1 < sz; br++] for one line offset.  [fuel]
    bounds the number of iterations; the lemma [break_loop_enough_fuel]
    shows that the bound chosen in [apply_breaks] is never reached. *)
Fixpoint break_loop (fuel : nat) (sz br : Z) (txt : list Go.rune)
    : Go.panic + list Go.rune :=
  match fuel with
  | O => inr txt
  | S fuel' =>
    let i := Go.int32 (br - 1) in
    if i <? sz then
      if i <? 0 then inl (Go.IndexOutOfRange i (length txt))
      else
        match txt !! Z.to_nat i with
        | None => inl (Go.IndexOutOfRange i (length txt))
        | Some c =>
          if c =? 32 then inr (<[Z.to_nat i := 10]> txt)
          else break_loop fuel' sz (Go.int32 (br + 1)) txt
        end
    else inr txt
  end.

(** The outer loop [for _, br := range breaks]. *)
Fixpoint apply_breaks (sz : Z) (breaks : list Z) (txt : list Go.rune)
    : Go.panic + list Go.rune :=
  match breaks with
  | [] => inr txt
  | br :: breaks' =>
    match break_loop (S (length txt)) sz br txt with
    | inl p => inl p
    | inr txt' => apply_breaks sz breaks' txt'
    end
  end.

Definition new_unparser (info : SourceInfo) : unparser :=
  mk_unparser info "" 0 [].

Definition Unparse (expr : Expr) (info : SourceInfo) : result :=
  let un := new_unparser info in
  match visit expr un with
  | (Err err, _) => Returned "" (Some err)
  | (Panic p, _) => Panicked p
  | (Ok _, un) =>
    let breaks := line_offsets info in
    if Z.of_nat (length breaks) <=? 1 then Returned (str un) None
    else
      let txt := Go.runes_of_string (str un) in
      let sz := Go.int32 (Z.of_nat (length txt)) in
      match apply_breaks sz breaks txt with
      | inl p => Panicked p
      | inr txt' => Returned (Go.string_of_runes txt') None
      end
  end.

End Unparser.

Arguments visit {_ _} expr : simpl never.

Lemma visit_unfold {ops : Operators} {sc : Strconv} (expr : Expr) :
  visit expr = (trace expr;; visit_dispatch visit expr).
Proof. by destruct expr. Qed.

(** ** Induction over expression trees *)

Definition opt_all (P : Expr → Prop) (o : option Expr) : Prop :=
  match o with
  | Some e => P e
  | None => True
  end.

Definition entry_all (P : Expr → Prop) (en : Entry) : Prop :=
  match en with
  | Entry_NotSet _ v | Entry_FieldKey _ _ v => opt_all P v
  | Entry_MapKey _ k v => P k ∧ opt_all P v
  end.

Section Expr_induction.
Variable P : Expr → Prop.
Hypothesis H_notset : ∀ id, P (Expr_NotSet id).
Hypothesis H_const : ∀ id c, P (Expr_ConstExpr id c).
Hypothesis H_ident : ∀ id name, P (Expr_IdentExpr id name).
Hypothesis H_select : ∀ id operand field test_only,
  opt_all P operand → P (Expr_SelectExpr id operand field test_only).
Hypothesis H_call : ∀ id target fn args,
  opt_all P target → Forall P args → P (Expr_CallExpr id target fn args).
Hypothesis H_list : ∀ id elems,
  Forall P elems → P (Expr_ListExpr id elems).
Hypothesis H_struct : ∀ id message_name entries,
  Forall (entry_all P) entries → P (Expr_StructExpr id message_name entries).
Hypothesis H_comprehension : ∀ id iv ir av ai lc ls r,
  P (Expr_ComprehensionExpr id iv ir av ai lc ls r).

Lemma Expr_nested_ind (e : Expr) : P e.
Proof.
  revert e. fix IH 1.
  intros [id|id c|id name|id operand field test_only|id target fn args
         |id elems|id message_name ens|id iv ir av ai lc ls r].
  - apply H_notset.
  - apply H_const.
  - apply H_ident.
  - apply H_select. destruct operand as [e'|]; simpl; [apply IH|exact I].
  - apply H_call.
    + destruct target as [e'|]; simpl; [apply IH|exact I].
    + induction args as [|e' es' IHes]; constructor; [apply IH|exact IHes].
  - apply H_list.
    induction elems as [|e' es' IHes]; constructor; [apply IH|exact IHes].
  - apply H_struct.
    induction ens as [|en ens' IHens]; constructor; [|exact IHens].
    destruct en as [? [v|]|? ? [v|]|? k [v|]]; simpl;
      repeat split; try apply IH.
  - apply H_comprehension.
Qed.
End Expr_induction.

(** ** A frame property of the visitor

    Every method only appends to the buffer, leaves [info] and [offset]
    as they are, and extends the ghost log; if a comprehension is among
    the expressions it visits, it ends in the "unimplemented" error for
    that expression.  The content of the ghost log has no influence on
    what a method does. *)

Definition appends {A : Type} (m : M A) : Prop :=
  ∀ un,
    (∃ t new,
       (m un).2 = mk_unparser (info un) (str un +:+ t) (offset un)
                    (visited un ++ new)
       ∧ ∀ c, c ∈ new → is_comprehension c = true →
           (m un).1 = Err (Unimplemented c))
    ∧ ∀ v, ∃ v', m (set_visited v un) = ((m un).1, set_visited v' (m un).2).

Lemma unparser_eta (un : unparser) :
  un = mk_unparser (info un) (str un +:+ "") (offset un) (visited un ++ []).
Proof. destruct un. simpl. by rewrite string_app_nil_r, app_nil_r. Qed.

Lemma appends_pure {A : Type} (r : outcome A) : appends (λ un, (r, un)).
Proof.
  intros un. split.
  - exists "", []. split; [apply unparser_eta|].
    intros c Hc. by apply elem_of_nil in Hc.
  - intros v. by exists v.
Qed.

Lemma appends_ret {A : Type} (a : A) : appends (mret a).
Proof. apply appends_pure. Qed.

Lemma appends_fail {A : Type} (e : error) : appends (@fail A e).
Proof. apply appends_pure. Qed.

Lemma appends_panic {A : Type} (p : Go.panic) : appends (@panic A p).
Proof. apply appends_pure. Qed.

Lemma appends_WriteString (s : string) : appends (WriteString s).
Proof.
  intros un. split.
  - exists s, []. split.
    + unfold WriteString, set_str. simpl. by rewrite app_nil_r.
    + intros c Hc. by apply elem_of_nil in Hc.
  - intros v. by exists v.
Qed.

Lemma appends_bind {A B : Type} (m : M A) (f : A → M B) :
  appends m → (∀ a, appends (f a)) → appends (m ≫= f).
Proof.
  intros Hm Hf un. unfold mbind, M_bind, bind.
  destruct (Hm un) as [(t1 & new1 & Hst1 & Hc1) Hg1]. split.
  - destruct (m un) as [[a|e|p] un1] eqn:Hrun; simpl in *.
    + destruct (Hf a un1) as [(t2 & new2 & Hst2 & Hc2) _].
      exists (t1 +:+ t2), (new1 ++ new2). split.
      * rewrite Hst2, Hst1. simpl. by rewrite string_app_assoc, app_assoc.
      * intros c [Hc|Hc]%elem_of_app Hcomp; [|by apply Hc2].
        by specialize (Hc1 c Hc Hcomp).
    + exists t1, new1. split; [done|].
      intros c Hc Hcomp. specialize (Hc1 c Hc Hcomp). by simplify_eq.
    + exists t1, new1. split; [done|].
      intros c Hc Hcomp. specialize (Hc1 c Hc Hcomp). by simplify_eq.
  - intros v. destruct (Hg1 v) as (v1 & ->).
    destruct (m un) as [[a|e|p] un1]; simpl; [|by exists v1..].
    destruct (Hf a un1) as [_ Hg2]. apply Hg2.
Qed.

Lemma appends_if {A : Type} (b : bool) (m1 m2 : M A) :
  appends m1 → appends m2 → appends (if b then m1 else m2).
Proof. by destruct b. Qed.

Lemma appends_times (n : nat) (body : M unit) :
  appends body → appends (times n body).
Proof.
  intros Hbody. induction n as [|n IH]; simpl.
  - apply appends_ret.
  - apply appends_bind; auto.
Qed.

Lemma appends_for_range {A : Type} (body : Z → A → M unit) (xs : list A) :
  Forall (λ x, ∀ i, appends (body i x)) xs →
  ∀ i, appends (for_range body i xs).
Proof.
  induction 1 as [|x xs Hx _ IH]; intros i; simpl.
  - apply appends_ret.
  - apply appends_bind; auto.
Qed.

Lemma appends_trace (e : Expr) :
  is_comprehension e = false → appends (trace e).
Proof.
  intros He un. split.
  - exists "", [e]. split.
    + unfold trace, set_visited. simpl. by rewrite string_app_nil_r.
    + intros c ->%list_elem_of_singleton Hc. congruence.
  - intros v. by exists (v ++ [e]).
Qed.

Lemma appends_trace_fail (e : Expr) :
  appends (trace e ;; @fail unit (Unimplemented e)).
Proof.
  intros un. split.
  - exists "", [e]. split.
    + unfold trace, set_visited. simpl. by rewrite string_app_nil_r.
    + by intros c ->%list_elem_of_singleton _.
  - intros v. by exists (v ++ [e]).
Qed.

Section Frame.
Context {ops : Operators} {sc : Strconv}.

Lemma appends_pos (id : Z) : appends (pos id).
Proof.
  intros un. split; [apply (appends_pure _ un)|].
  intros v. by exists v.
Qed.

Lemma appends_pad (id : Z) : appends (pad id).
Proof.
  intros un. unfold pad.
  apply (appends_bind (pos id)); [apply appends_pos|].
  intros next. apply appends_times, appends_WriteString.
Qed.

Lemma appends_visit_ptr (visit : Expr → M unit) (p : option Expr) :
  opt_all (λ e, appends (visit e)) p → appends (visit_ptr visit p).
Proof. destruct p; simpl; auto using @appends_panic. Qed.

Lemma appends_visitMaybeNested (visit : Expr → M unit) (e : Expr) (b : bool) :
  appends (visit e) → appends (visitMaybeNested visit e b).
Proof.
  intros. unfold visitMaybeNested.
  repeat first [ apply appends_bind; [|intros ?] | apply appends_if
               | apply appends_WriteString | apply appends_ret | done ].
Qed.

(** One syntax-directed step of a proof of [appends m]. *)
Ltac appends_step :=
  lazymatch goal with
  | |- appends (mret _) => apply appends_ret
  | |- appends (ret _) => apply appends_pure
  | |- appends (fail _) => apply appends_fail
  | |- appends (panic _) => apply appends_panic
  | |- appends (WriteString _) => apply appends_WriteString
  | |- appends (pad _) => apply appends_pad
  | |- appends (_ ≫= _) => apply appends_bind; [|intros ?]
  | |- appends (visitMaybeNested _ _ _) => apply appends_visitMaybeNested
  | |- appends (visit_ptr _ _) => apply appends_visit_ptr
  | |- appends (for_range _ _ _) =>
    apply appends_for_range;
    (eapply Forall_impl; [eassumption|]); intros ? ? ?; cbn beta
  | |- appends (if _ then _ else _) => apply appends_if
  | |- appends (match ?x with _ => _ end) => destruct x; simpl in *
  | |- _ => first [ assumption | tauto ]
  end.

Lemma appends_visit (e : Expr) : appends (visit e).
Proof.
  induction e as [id|id c|id name|id operand field test_only
                 |id target fn args IHt IHargs|id elems IH
                 |id message_name ens IH|id iv ir av ai lc ls r]
    using Expr_nested_ind;
    rewrite visit_unfold;
    try (apply appends_trace_fail);
    (apply appends_bind; [by apply appends_trace|intros _]);
    cbn [visit_dispatch].
  - apply appends_fail.
  - unfold visitConst. repeat appends_step.
  - unfold visitIdent. repeat appends_step.
  - unfold visitSelect. repeat appends_step.
  - unfold visitCall. repeat (apply appends_if).
    + unfold visitCallConditional.
      destruct IHargs as [|a0 ? Ha0 [|a1 ? Ha1 [|a2 ? Ha2 _]]];
        repeat appends_step.
    + unfold visitCallIndex.
      destruct IHargs as [|a0 ? Ha0 [|a1 ? Ha1 _]]; repeat appends_step.
    + unfold visitCallUnary.
      destruct IHargs as [|a0 ? Ha0 _]; repeat appends_step.
    + unfold visitCallBinary.
      destruct IHargs as [|a0 ? Ha0 [|a1 ? Ha1 _]]; repeat appends_step.
    + unfold visitCallFunc. repeat appends_step.
  - unfold visitList. repeat appends_step.
  - unfold visitStruct. apply appends_if.
    + unfold visitStructMsg, visit_value. repeat appends_step.
    + unfold visitStructMap, visit_map_key, visit_value.
      repeat appends_step.
Qed.

(** The ghost log is not observable: started with any log, the visit ends
    in the same outcome and leaves the same text. *)
Lemma visit_ignores_ghost_log (e : Expr) (un : unparser) (v : list Expr) :
  (visit e (set_visited v un)).1 = (visit e un).1
  ∧ str (visit e (set_visited v un)).2 = str (visit e un).2.
Proof.
  destruct (appends_visit e un) as [_ Hghost].
  destruct (Hghost v) as (v' & ->). done.
Qed.

End Frame.

(** ** Concrete instances for closed examples *)

(** Modelled from the spec: the operator metadata table of the package
    [common/operators], which is not among the sources.  The specification
    describes an entry as (canonical name, display symbol, precedence rank
    where lower binds looser), and orders the operators from the
    conditional (loosest) to indexing (tightest).  [operators.Precedence]
    returns the number the table holds; the printer adds parentheses
    around an operand whose number is greater than the number of the
    operator, and the doc comment of [Unparse] says that parentheses are
    applied only when they affect precedence, so in the table a greater
    number belongs to an operator that binds looser: the numbers run from
    indexing (1) to the conditional (8), against the rank of the
    specification.  A name outside the table has the number 0, the zero
    value Go reads from a map for a missing key.  The canonical names are
    the mangled names used upstream.  Display symbols are given for the
    unary and binary operators, the only ones the unparser looks up. *)
Module SpecTable.

(** Modelled from the spec: the number [operators.Precedence] returns,
    smaller for an operator that binds tighter. *)
Definition precedence (op : string) : Z :=
  if bool_decide (op = "_[_]") then 1
  else if bool_decide (op ∈ ["!_"; "-_"]) then 2
  else if bool_decide (op ∈ ["_*_"; "_/_"; "_%_"]) then 3
  else if bool_decide (op ∈ ["_+_"; "_-_"]) then 4
  else if bool_decide (op ∈ ["_==_"; "_!=_"; "_<_"; "_<=_"; "_>_"; "_>=_";
                              "@in"; "_in_"]) then 5
  else if bool_decide (op = "_&&_") then 6
  else if bool_decide (op = "_||_") then 7
  else if bool_decide (op = "_?_:_") then 8
  else 0.

(** Modelled from the spec: the precedence rank of an operator, "where
    lower binds looser": the conditional has rank 1 and indexing rank 8. *)
Definition rank (op : string) : Z := 9 - precedence op.

(** Modelled from the spec: the display symbol of an operator. *)
Definition displaySymbol (op : string) : option string :=
  (list_to_map
  [("_+_", "+"); ("_/_", "/"); ("_==_", "=="); ("_>_", ">"); ("_>=_", ">=");
   ("@in", "in"); ("_<_", "<"); ("_<=_", "<="); ("_&&_", "&&"); ("!_", "!");
   ("_||_", "||"); ("_%_", "%"); ("_*_", "*"); ("-_", "-"); ("_!=_", "!=");
   ("_in_", "in"); ("_-_", "-")] : gmap string string) !! op.

#[export] Program Instance operators : Operators := {|
  Conditional := "_?_:_";
  Index := "_[_]";
  LogicalNot := "!_";
  Negate := "-_";
  Add := "_+_";
  Divide := "_/_";
  Equals := "_==_";
  Greater := "_>_";
  GreaterEquals := "_>=_";
  In := "@in";
  Less := "_<_";
  LessEquals := "_<=_";
  LogicalAnd := "_&&_";
  LogicalOr := "_||_";
  Modulo := "_%_";
  Multiply := "_*_";
  NotEquals := "_!=_";
  OldIn := "_in_";
  Subtract := "_-_";
  Precedence := precedence;
  FindReverse := displaySymbol;
|}.
Next Obligation. by apply (bool_decide_unpack _); vm_compute. Qed.

End SpecTable.

(** An instance of [Strconv] to run closed examples.  [Quote] is exact on
    strings of printable ASCII characters other than the double quote and
    the backslash; no example contains a floating-point constant. *)
#[export] Instance example_strconv : Strconv := {|
  Quote s := dquote +:+ s +:+ dquote;
  FormatFloat _ := "";
|}.

Definition no_info : SourceInfo := {| positions := ∅; line_offsets := [] |}.

Section Examples.
Import SpecTable.

Definition ident (id : Z) (name : string) : Expr := Expr_IdentExpr id name.
Definition call (id : Z) (fn : string) (args : list Expr) : Expr :=
  Expr_CallExpr id None fn args.

(** [a - b - c] and [a - (b - c)] *)
Example unparse_sub_left :
  Unparse (call 4 "_-_" [call 2 "_-_" [ident 1 "a"; ident 3 "b"]; ident 5 "c"])
    no_info = Returned "a - b - c" None.
Proof. vm_compute. reflexivity. Qed.

Example unparse_sub_right :
  Unparse (call 2 "_-_" [ident 1 "a"; call 4 "_-_" [ident 3 "b"; ident 5 "c"]])
    no_info = Returned "a - (b - c)" None.
Proof. vm_compute. reflexivity. Qed.

(** A presence test renders as [has(a.b)]. *)
Example unparse_has :
  Unparse (Expr_SelectExpr 2 (Some (ident 1 "a")) "b" true) no_info
  = Returned "has(a.b)" None.
Proof. vm_compute. reflexivity. Qed.

(** Padding to recorded offsets, and two line offsets. *)
Example unparse_padded :
  Unparse (call 2 "_&&_" [ident 1 "a"; ident 3 "b"])
    {| positions := {[1 := 0; 2 := 3; 3 := 8]}; line_offsets := [] |}
  = Returned "a  &&   b" None.
Proof. vm_compute. reflexivity. Qed.

Example unparse_consts :
  Unparse (Expr_ListExpr 1 [Expr_ConstExpr 2 (Constant_Int64Value (-12));
                            Expr_ConstExpr 3 (Constant_Uint64Value 7);
                            Expr_ConstExpr 4 (Constant_BoolValue true);
                            Expr_ConstExpr 5 Constant_NullValue;
                            Expr_ConstExpr 6 (Constant_StringValue "x")])
    no_info
  = Returned ("[-12,7u,true,null," +:+ dquote +:+ "x" +:+ dquote +:+ "]") None.
Proof. vm_compute. reflexivity. Qed.
End Examples.

(** ** Running computations *)

Lemma set_str_id (un : unparser) : set_str (str un) un = un.
Proof. by destruct un. Qed.

Lemma run_bind {A B : Type} (m : M A) (f : A → M B) (un : unparser) :
  (m ≫= f) un =
  match m un with
  | (Ok a, un') => f a un'
  | (Err e, un') => (Err e, un')
  | (Panic p, un') => (Panic p, un')
  end.
Proof. done. Qed.

Lemma run_bind_Ok {A B : Type} (m : M A) (f : A → M B) (un un' : unparser)
    (b : B) :
  (m ≫= f) un = (Ok b, un') ↔
  ∃ a un1, m un = (Ok a, un1) ∧ f a un1 = (Ok b, un').
Proof.
  rewrite run_bind. split.
  - destruct (m un) as [[a|e|p] un1]; [eauto|done..].
  - intros (a & un1 & -> & Hf). done.
Qed.

Lemma run_WriteString (s : string) (un : unparser) :
  WriteString s un = (Ok (), set_str (str un +:+ s) un).
Proof. done. Qed.

Lemma times_WriteString (n : nat) (un : unparser) :
  times n (WriteString " ") un = (Ok (), set_str (str un +:+ spaces n) un).
Proof.
  revert un. induction n as [|n IH]; intros un.
  - simpl. unfold mret, M_ret, ret. by rewrite string_app_nil_r, set_str_id.
  - cbn [times]. rewrite run_bind, run_WriteString, IH. f_equal.
    unfold set_str. simpl. by rewrite string_app_assoc.
Qed.

(** ** Positional padding *)

Section Padding.

(** The offset recorded for [id], zero when there is none. *)
Definition recorded_offset (un : unparser) (id : Z) : Z :=
  default 0 (positions (info un) !! id).

Lemma run_pos (id : Z) (un : unparser) :
  pos id un = (Ok (recorded_offset un id), un).
Proof. done. Qed.

(** What [pad] does in all cases: it appends as many blanks as the
    recorded offset exceeds the length of the buffer, the length being
    read through the conversion to [int32]. *)
Lemma run_pad (id : Z) (un : unparser) :
  pad id un =
  (Ok (), set_str (str un +:+
     spaces (Z.to_nat (recorded_offset un id
                       - Go.int32 (Z.of_nat (String.length (str un)))))) un).
Proof. unfold pad. by rewrite run_bind, run_pos, times_WriteString. Qed.

Lemma int32_small (z : Z) : - 2 ^ 31 ≤ z < 2 ^ 31 → Go.int32 z = z.
Proof.
  intros Hz. unfold Go.int32.
  rewrite Z.mod_small by lia. lia.
Qed.

(** Below 2^31 bytes the length is read exactly. *)
Lemma run_pad_in_range (id : Z) (un : unparser) :
  Z.of_nat (String.length (str un)) < 2 ^ 31 →
  pad id un =
  (Ok (), set_str (str un +:+
     spaces (Z.to_nat (recorded_offset un id
                       - Z.of_nat (String.length (str un))))) un).
Proof. intros Hlen. rewrite run_pad. by rewrite int32_small by lia. Qed.

Lemma run_pad_behind (id : Z) (un : unparser) :
  Z.of_nat (String.length (str un)) < 2 ^ 31 →
  recorded_offset un id ≤ Z.of_nat (String.length (str un)) →
  pad id un = (Ok (), un).
Proof.
  intros Hlen Hle. rewrite run_pad_in_range by done.
  replace (Z.to_nat _) with O by lia.
  simpl. by rewrite string_app_nil_r, set_str_id.
Qed.


(** Claim C10, as amended.  A node id without an entry in the position
    map reads as offset zero; when the buffer is shorter than 2^31 bytes
    the padding step for it is a no-op that reports no error, and it
    coincides with the padding step of any node whose recorded offset is
    at or behind the current length. *)
Theorem pad_missing_id_is_noop (id : Z) (un : unparser) :
  positions (info un) !! id = None →
  Z.of_nat (String.length (str un)) < 2 ^ 31 →
  pos id un = (Ok 0, un)
  ∧ pad id un = (Ok (), un)
  ∧ ∀ id', recorded_offset un id' ≤ Z.of_nat (String.length (str un)) →
           pad id un = pad id' un.
Proof.
  intros Hnone Hlen.
  assert (Hoff : recorded_offset un id = 0)
    by (unfold recorded_offset; by rewrite Hnone).
  assert (Hpad : pad id un = (Ok (), un)).
  { apply run_pad_behind; [done|]. rewrite Hoff. lia. }
  split; [by rewrite run_pos, Hoff|]. split; [done|].
  intros id' Hid'. rewrite Hpad. symmetry. by apply run_pad_behind.
Qed.

(** Beyond 2^31 bytes the length wraps around in the conversion to
    [int32]: a buffer of exactly 2^31 bytes is read as length -2^31, so
    the loop of [pad] runs although no recorded offset exceeds the
    length. *)
Lemma pad_wraps (id : Z) (un : unparser) (n : nat) :
  Z.of_nat n = 2 ^ 31 →
  str un = spaces n →
  - 2 ^ 31 < recorded_offset un id →
  pad id un ≠ (Ok (), un).
Proof.
  intros Hn Hstr Hoff Hpad. rewrite run_pad in Hpad.
  assert (Hlen : String.length (str un) = n)
    by (by rewrite Hstr, spaces_length).
  rewrite Hlen, Hn in Hpad.
  change (Go.int32 (2 ^ 31)) with (- 2 ^ 31) in Hpad.
  apply (f_equal (λ r, String.length (str r.2))) in Hpad. simpl in Hpad.
  rewrite string_length_app, spaces_length in Hpad. lia.
Qed.

End Padding.

(** *** A buffer of 2^31 bytes *)

Definition huge : nat := Z.to_nat (2 ^ 31).

Lemma huge_spec : Z.of_nat huge = 2 ^ 31.
Proof. unfold huge. apply Z2Nat.id. by compute. Qed.

Definition huge_buffer (info : SourceInfo) : unparser :=
  mk_unparser info (spaces huge) 0 [].

Definition info_7_at_5 : SourceInfo :=
  {| positions := {[7 := 5]}; line_offsets := [] |}.


(** Claim C10 fails as stated: node 7 has no entry in the position map,
    and yet [pad] is not a no-op on a buffer of 2^31 bytes. *)
Lemma pad_missing_id_huge_buffer_not_noop :
  positions (info (huge_buffer no_info)) !! 7 = None
  ∧ pad 7 (huge_buffer no_info) ≠ (Ok (), huge_buffer no_info).
Proof.
  split; [done|].
  apply (pad_wraps 7 _ huge huge_spec); [done|].
  unfold recorded_offset, huge_buffer, no_info. cbn [info positions].
  rewrite lookup_empty. by compute.
Qed.

(** The amended claims at a concrete state: the buffer holds [ab], node 1
    is recorded at offset 5, node 2 at offset 1, node 9 nowhere. *)
Definition small_state : unparser :=
  mk_unparser {| positions := {[1 := 5; 2 := 1]}; line_offsets := [] |}
    "ab" 0 [].


Lemma pad_missing_id_is_noop_witness :
  pos 9 small_state = (Ok 0, small_state)
  ∧ pad 9 small_state = (Ok (), small_state)
  ∧ ∀ id', recorded_offset small_state id'
           ≤ Z.of_nat (String.length (str small_state)) →
           pad 9 small_state = pad id' small_state.
Proof. apply (pad_missing_id_is_noop 9 small_state); by vm_compute. Defined.

(** ** What a successful visit leaves in the buffer *)

Section Rendering.
Context {ops : Operators} {sc : Strconv}.

(** [renders inf e prefix t]: with source information [inf] and the buffer
    holding [prefix], the visit of [e] succeeds and appends [t]. *)
Definition renders (inf : SourceInfo) (e : Expr) (prefix t : string) : Prop :=
  ∃ u u', info u = inf ∧ str u = prefix
          ∧ visit e u = (Ok (), u') ∧ str u' = prefix +:+ t.

(** The text of an operand, parenthesized or not. *)
Definition wrap (nested : bool) (t : string) : string :=
  if nested then "(" +:+ t +:+ ")" else t.

Definition opening (nested : bool) : string := if nested then "(" else "".

Lemma run_appends {A : Type} (m : M A) (un un' : unparser) (r : outcome A) :
  appends m → m un = (r, un') →
  ∃ t, str un' = str un +:+ t ∧ info un' = info un.
Proof.
  intros Hm Hrun. destruct (Hm un) as [(t & new & Hst & _) _].
  rewrite Hrun in Hst. simpl in Hst. subst un'. by exists t.
Qed.

Lemma run_visitMaybeNested (e : Expr) (nested : bool) (un un' : unparser) :
  visitMaybeNested visit e nested un = (Ok (), un') →
  ∃ t, renders (info un) e (str un +:+ opening nested) t
       ∧ str un' = str un +:+ wrap nested t
       ∧ info un' = info un.
Proof.
  unfold visitMaybeNested. intros Hrun.
  apply run_bind_Ok in Hrun as ([] & u1 & H1 & Hrun).
  apply run_bind_Ok in Hrun as ([] & u2 & H2 & H3).
  destruct (run_appends _ _ _ _ (appends_visit e) H2) as (t & Ht & Hinfo).
  exists t. destruct nested; simpl in *.
  - rewrite run_WriteString in H1, H3. simplify_eq. simpl in *.
    split; [|split; [|done]].
    + by exists (set_str (str un +:+ "(") un), u2.
    + by rewrite Ht, !string_app_assoc.
  - unfold mret, M_ret, ret in *. simplify_eq. rewrite string_app_nil_r.
    split; [|done]. by exists u1, un'.
Qed.

End Rendering.

(** ** Dispatch on the function name *)

Section Dispatch.
Context {ops : Operators} {sc : Strconv}.

Definition binary_operators : list string :=
  [Add; Divide; Equals; Greater; GreaterEquals; In; Less; LessEquals;
   LogicalAnd; LogicalOr; Modulo; Multiply; NotEquals; OldIn; Subtract].

Lemma binary_not_special (fn : string) :
  fn ∈ binary_operators →
  fn ≠ Conditional ∧ fn ≠ Index ∧ fn ∉ [LogicalNot; Negate].
Proof.
  intros Hfn. pose proof operators_distinct as Hd.
  apply NoDup_cons in Hd as [H1 Hd]. apply NoDup_cons in Hd as [H2 Hd].
  apply NoDup_cons in Hd as [H3 Hd]. apply NoDup_cons in Hd as [H4 _].
  split_and!.
  - intros ->. apply H1. by do 3 apply list_elem_of_further.
  - intros ->. apply H2. by do 2 apply list_elem_of_further.
  - intros [->| ->%list_elem_of_singleton]%elem_of_cons.
    + apply H3. by apply list_elem_of_further.
    + by apply H4.
Qed.

Lemma Index_not_Conditional : Index ≠ Conditional.
Proof.
  pose proof operators_distinct as Hd. apply NoDup_cons in Hd as [H1 _].
  intros Heq. apply H1. rewrite <- Heq. apply list_elem_of_here.
Qed.

Lemma visitCall_binary (visit : Expr → M unit) (id : Z)
    (target : option Expr) (fn : string) (args : list Expr) :
  fn ∈ binary_operators →
  visitCall visit id target fn args = visitCallBinary visit id fn args.
Proof.
  intros Hfn. destruct (binary_not_special fn Hfn) as (H1 & H2 & H3).
  unfold visitCall.
  rewrite !bool_decide_eq_false_2 by done.
  by rewrite bool_decide_eq_true_2.
Qed.

Lemma visitCall_conditional (visit : Expr → M unit) (id : Z)
    (target : option Expr) (args : list Expr) :
  visitCall visit id target Conditional args
  = visitCallConditional visit id args.
Proof. unfold visitCall. by rewrite bool_decide_eq_true_2. Qed.

Lemma visitCall_index (visit : Expr → M unit) (id : Z)
    (target : option Expr) (args : list Expr) :
  visitCall visit id target Index args = visitCallIndex visit id args.
Proof.
  unfold visitCall.
  rewrite bool_decide_eq_false_2 by apply Index_not_Conditional.
  by rewrite bool_decide_eq_true_2.
Qed.

End Dispatch.

(** ** Parentheses around the operands of a binary operator *)

Section Binary.
Context {ops : Operators} {sc : Strconv}.

(** The rule the code implements, on the numbers [operators.Precedence]
    returns.  The left operand: a call whose function has a strictly
    greater number than the operator. *)
Definition lhs_rule (fn : string) (operand : Expr) : Prop :=
  match call_function operand with
  | Some other => Precedence fn < Precedence other
  | None => False
  end.

(** The right operand: a call whose function has a strictly greater
    number, or the same number while the operator is neither logical-and
    nor logical-or. *)
Definition rhs_rule (fn : string) (operand : Expr) : Prop :=
  match call_function operand with
  | Some other =>
    Precedence fn < Precedence other
    ∨ (Precedence fn = Precedence other ∧ fn ≠ LogicalAnd ∧ fn ≠ LogicalOr)
  | None => False
  end.

#[export] Instance lhs_rule_dec fn operand : Decision (lhs_rule fn operand).
Proof. unfold lhs_rule. destruct (call_function operand); apply _. Defined.

#[export] Instance rhs_rule_dec fn operand : Decision (rhs_rule fn operand).
Proof. unfold rhs_rule. destruct (call_function operand); apply _. Defined.

Lemma isLeftRecursive_spec (fn : string) :
  isLeftRecursive fn = true ↔ fn ≠ LogicalAnd ∧ fn ≠ LogicalOr.
Proof.
  unfold isLeftRecursive.
  rewrite andb_true_iff, !negb_true_iff, !bool_decide_eq_false. done.
Qed.

Lemma isLowerPrecedence_spec (fn : string) (operand : Expr) :
  isLowerPrecedence fn operand = bool_decide (lhs_rule fn operand).
Proof.
  unfold isLowerPrecedence, lhs_rule.
  destruct operand as [?|? ?|? ?|? ? ? ?|? ? other ?|? ?|? ? ?|? ? ? ? ? ? ? ?];
    simpl; try done.
  destruct (Z.ltb_spec (Precedence fn) (Precedence other)).
  - by rewrite bool_decide_eq_true_2.
  - rewrite bool_decide_eq_false_2; [done|lia].
Qed.

Lemma rhsParen_spec (fn : string) (operand : Expr) :
  (if negb (isLowerPrecedence fn operand) && isLeftRecursive fn
   then isSamePrecedence fn operand
   else isLowerPrecedence fn operand)
  = bool_decide (rhs_rule fn operand).
Proof.
  pose proof (isLeftRecursive_spec fn) as Hrec.
  unfold isLowerPrecedence, isSamePrecedence, rhs_rule.
  destruct operand as [?|? ?|? ?|? ? ? ?|? ? other ?|? ?|? ? ?|? ? ? ? ? ? ? ?];
    simpl; try (by destruct (isLeftRecursive fn)).
  destruct (Z.ltb_spec (Precedence fn) (Precedence other)); simpl.
  - rewrite bool_decide_eq_true_2; [done|by left].
  - destruct (isLeftRecursive fn); simpl.
    + destruct (Z.eqb_spec (Precedence fn) (Precedence other)).
      * rewrite bool_decide_eq_true_2; [done|]. right. tauto.
      * rewrite bool_decide_eq_false_2; [done|]. intros [?|[? _]]; lia.
    + rewrite bool_decide_eq_false_2; [done|].
      intros [?|[_ Hne]]; [lia|]. apply Hrec in Hne. done.
Qed.

(** The body of [visitCallBinary], with the two flags replaced by the
    rules. *)
Definition binary_form (id : Z) (fn : string) (lhs rhs : Expr) : M unit :=
  visitMaybeNested visit lhs (bool_decide (lhs_rule fn lhs));;
  match FindReverse fn with
  | None => fail (CannotUnmangle fn)
  | Some unmangled =>
    WriteString " ";;
    pad id;;
    WriteString unmangled;;
    WriteString " ";;
    visitMaybeNested visit rhs (bool_decide (rhs_rule fn rhs))
  end.

Lemma visitCallBinary_form (id : Z) (fn : string) (lhs rhs : Expr)
    (rest : list Expr) :
  visitCallBinary visit id fn (lhs :: rhs :: rest) = binary_form id fn lhs rhs.
Proof.
  unfold visitCallBinary, binary_form.
  by rewrite rhsParen_spec, isLowerPrecedence_spec.
Qed.

Lemma run_binary_form (id : Z) (fn : string) (lhs rhs : Expr)
    (un un' : unparser) :
  binary_form id fn lhs rhs un = (Ok (), un') →
  ∃ sym tl n tr,
    FindReverse fn = Some sym
    ∧ str un' = str un +:+ wrap (bool_decide (lhs_rule fn lhs)) tl
                  +:+ " " +:+ spaces n +:+ sym +:+ " "
                  +:+ wrap (bool_decide (rhs_rule fn rhs)) tr
    ∧ renders (info un) lhs
        (str un +:+ opening (bool_decide (lhs_rule fn lhs))) tl
    ∧ renders (info un) rhs
        (str un +:+ wrap (bool_decide (lhs_rule fn lhs)) tl
           +:+ " " +:+ spaces n +:+ sym +:+ " "
           +:+ opening (bool_decide (rhs_rule fn rhs))) tr.
Proof.
  unfold binary_form. intros Hrun.
  apply run_bind_Ok in Hrun as ([] & u1 & Hl & Hrun).
  apply run_visitMaybeNested in Hl as (tl & Hrl & Hs1 & Hi1).
  destruct (FindReverse fn) as [sym|]; [|done].
  apply run_bind_Ok in Hrun as ([] & u2 & H2 & Hrun).
  apply run_bind_Ok in Hrun as ([] & u3 & H3 & Hrun).
  apply run_bind_Ok in Hrun as ([] & u4 & H4 & Hrun).
  apply run_bind_Ok in Hrun as ([] & u5 & H5 & Hrun).
  rewrite run_WriteString in H2, H4, H5. rewrite run_pad in H3.
  remember (Z.to_nat _) as n eqn:Hn in H3. clear Hn.
  simplify_eq. simpl in *.
  apply run_visitMaybeNested in Hrun as (tr & Hrr & Hs2 & Hi2).
  simpl in *. rewrite Hi1 in Hrr.
  exists sym, tl, n, tr. split; [done|].
  rewrite Hs1 in Hs2, Hrr.
  repeat rewrite string_app_assoc in Hs2.
  repeat rewrite string_app_assoc in Hrr.
  split_and!; [exact Hs2|exact Hrl|exact Hrr].
Qed.

(** *** The rule in the words of the specification

    The specification speaks of the precedence rank of an operator,
    "where lower binds looser".  The numbers of [operators.Precedence] run
    against that rank: the looser an operator binds, the greater its
    number (see [SpecTable]). *)
Definition rank_reverses_Precedence (rank : string → Z) : Prop :=
  ∀ f g, rank f < rank g ↔ Precedence g < Precedence f.

(** The operand is a call whose function has a strictly lower precedence
    rank than [fn]. *)
Definition lower_precedence (rank : string → Z) (operand : Expr)
    (fn : string) : Prop :=
  match call_function operand with
  | Some other => rank other < rank fn
  | None => False
  end.

(** The operand is a call whose function has the precedence rank of
    [fn]. *)
Definition equal_precedence (rank : string → Z) (operand : Expr)
    (fn : string) : Prop :=
  match call_function operand with
  | Some other => rank other = rank fn
  | None => False
  end.

Lemma rank_equal (rank : string → Z) (f g : string) :
  rank_reverses_Precedence rank →
  rank f = rank g ↔ Precedence g = Precedence f.
Proof. intros Hrank. pose proof (Hrank f g). pose proof (Hrank g f). lia. Qed.

Lemma lhs_rule_rank (rank : string → Z) (fn : string) (operand : Expr) :
  rank_reverses_Precedence rank →
  lhs_rule fn operand ↔ lower_precedence rank operand fn.
Proof.
  intros Hrank. unfold lhs_rule, lower_precedence.
  destruct (call_function operand) as [other|]; [|done].
  symmetry. apply Hrank.
Qed.

Lemma rhs_rule_rank (rank : string → Z) (fn : string) (operand : Expr) :
  rank_reverses_Precedence rank →
  rhs_rule fn operand ↔
  lower_precedence rank operand fn
  ∨ (equal_precedence rank operand fn ∧ fn ≠ LogicalAnd ∧ fn ≠ LogicalOr).
Proof.
  intros Hrank. unfold rhs_rule, lower_precedence, equal_precedence.
  destruct (call_function operand) as [other|]; [|tauto].
  pose proof (Hrank other fn). pose proof (rank_equal rank other fn Hrank).
  tauto.
Qed.


End Binary.

Section BinaryExamples.
Import SpecTable.

Lemma spec_rank_reverses_Precedence : rank_reverses_Precedence rank.
Proof. intros f g. unfold rank. simpl. lia. Qed.

Definition a_plus_b : Expr := call 2 "_+_" [ident 1 "a"; ident 3 "b"].
Definition a_plus_b_times_c : Expr := call 4 "_*_" [a_plus_b; ident 5 "c"].

(** In [(a + b) * c] the left operand is a call of an operator of lower
    rank than [*]: it is parenthesized. *)
Example lower_rank_operand_parenthesized :
  lower_precedence rank a_plus_b "_*_"
  ∧ Unparse a_plus_b_times_c no_info = Returned "(a + b) * c" None.
Proof. split; by vm_compute. Qed.

(** In [a * b + c] the left operand binds tighter than [+]: it is not
    parenthesized. *)
Example higher_rank_operand_not_parenthesized :
  ¬ lower_precedence rank (call 2 "_*_" [ident 1 "a"; ident 3 "b"]) "_+_"
  ∧ Unparse (call 4 "_+_" [call 2 "_*_" [ident 1 "a"; ident 3 "b"];
                           ident 5 "c"]) no_info
    = Returned "a * b + c" None.
Proof. split; by vm_compute. Qed.

(** Logical-and and logical-or are not left-recursive: an operand of the
    same rank is not parenthesized on either side. *)
Example logical_chain_not_parenthesized :
  Unparse (call 2 "_&&_" [ident 1 "a";
                          call 4 "_&&_" [ident 3 "b"; ident 5 "c"]]) no_info
  = Returned "a && b && c" None.
Proof. by vm_compute. Qed.

(** A call of a function that is no operator is never parenthesized. *)
Example function_operand_not_parenthesized :
  Unparse (call 4 "_*_" [call 2 "f" [ident 1 "a"]; ident 5 "c"]) no_info
  = Returned "f(a) * c" None.
Proof. by vm_compute. Qed.

Definition b_minus_c : Expr := call 4 "_-_" [ident 3 "b"; ident 5 "c"].
Definition a_minus_b_minus_c : Expr := call 2 "_-_" [ident 1 "a"; b_minus_c].


End BinaryExamples.

(** ** The conditional operator *)

Section ConditionalOperator.
Context {ops : Operators} {sc : Strconv}.

Definition is_conditional (e : Expr) : Prop :=
  call_function e = Some Conditional.

#[export] Instance is_conditional_dec e : Decision (is_conditional e).
Proof. unfold is_conditional. apply _. Defined.

(** No other function name shares the rank of the conditional operator. *)
Definition conditional_rank_unique : Prop :=
  ∀ fn, Precedence fn = Precedence Conditional → fn = Conditional.

Lemma isSamePrecedence_conditional (e : Expr) :
  conditional_rank_unique →
  isSamePrecedence Conditional e = bool_decide (is_conditional e).
Proof.
  intros Huniq. unfold isSamePrecedence, is_conditional.
  destruct e as [?|? ?|? ?|? ? ? ?|? ? other ?|? ?|? ? ?|? ? ? ? ? ? ? ?];
    simpl; try done.
  destruct (Z.eqb_spec (Precedence Conditional) (Precedence other)) as [He|He].
  - rewrite (Huniq other) by done. by rewrite bool_decide_eq_true_2.
  - rewrite bool_decide_eq_false_2; [done|]. intros [= ->]. done.
Qed.

Definition conditional_form (id : Z) (a0 a1 a2 : Expr) : M unit :=
  visitMaybeNested visit a0 (bool_decide (is_conditional a0));;
  pad id;;
  WriteString "? ";;
  visitMaybeNested visit a1 (bool_decide (is_conditional a1));;
  WriteString " : ";;
  visitMaybeNested visit a2 (bool_decide (is_conditional a2)).

Lemma run_conditional_form (id : Z) (a0 a1 a2 : Expr) (un un' : unparser) :
  conditional_form id a0 a1 a2 un = (Ok (), un') →
  ∃ t0 n t1 t2,
    str un' = str un +:+ wrap (bool_decide (is_conditional a0)) t0
                +:+ spaces n +:+ "? "
                +:+ wrap (bool_decide (is_conditional a1)) t1 +:+ " : "
                +:+ wrap (bool_decide (is_conditional a2)) t2
    ∧ renders (info un) a0
        (str un +:+ opening (bool_decide (is_conditional a0))) t0
    ∧ renders (info un) a1
        (str un +:+ wrap (bool_decide (is_conditional a0)) t0
           +:+ spaces n +:+ "? "
           +:+ opening (bool_decide (is_conditional a1))) t1
    ∧ renders (info un) a2
        (str un +:+ wrap (bool_decide (is_conditional a0)) t0
           +:+ spaces n +:+ "? "
           +:+ wrap (bool_decide (is_conditional a1)) t1 +:+ " : "
           +:+ opening (bool_decide (is_conditional a2))) t2.
Proof.
  unfold conditional_form. intros Hrun.
  apply run_bind_Ok in Hrun as ([] & u1 & H0 & Hrun).
  apply run_visitMaybeNested in H0 as (t0 & Hr0 & Hs0 & Hi0).
  apply run_bind_Ok in Hrun as ([] & u2 & H2 & Hrun).
  apply run_bind_Ok in Hrun as ([] & u3 & H3 & Hrun).
  rewrite run_pad in H2. rewrite run_WriteString in H3.
  remember (Z.to_nat _) as n eqn:Hn in H2. clear Hn. simplify_eq.
  apply run_bind_Ok in Hrun as ([] & u4 & H1 & Hrun).
  apply run_visitMaybeNested in H1 as (t1 & Hr1 & Hs1 & Hi1).
  apply run_bind_Ok in Hrun as ([] & u5 & H5 & Hrun).
  rewrite run_WriteString in H5. simplify_eq.
  apply run_visitMaybeNested in Hrun as (t2 & Hr2 & Hs2 & Hi2).
  simpl in *. rewrite Hi1, Hi0 in Hr2. rewrite Hi0 in Hr1.
  rewrite Hs1 in Hs2, Hr2. rewrite Hs0 in Hs2, Hr1, Hr2.
  repeat rewrite string_app_assoc in Hs2.
  repeat rewrite string_app_assoc in Hr1.
  repeat rewrite string_app_assoc in Hr2.
  exists t0, n, t1, t2. split_and!; [exact Hs2|exact Hr0|exact Hr1|exact Hr2].
Qed.


End ConditionalOperator.

Section ConditionalExamples.
Import SpecTable.

Lemma spec_conditional_rank_unique : conditional_rank_unique.
Proof.
  intros fn. simpl.
  replace (precedence "_?_:_") with 8 by (by vm_compute).
  unfold precedence. repeat case_bool_decide; done.
Qed.

Definition inner_ternary : Expr :=
  call 4 "_?_:_" [ident 3 "b"; ident 5 "c"; ident 6 "d"].
Definition nested_ternary : Expr :=
  call 2 "_?_:_" [ident 1 "a"; inner_ternary; ident 7 "e"].

(** [a ? (b ? c : d) : e], first without and then with the offsets the
    parser records for it. *)
Example unparse_nested_ternary :
  Unparse nested_ternary no_info = Returned "a? (b? c : d) : e" None.
Proof. by vm_compute. Qed.

Example unparse_nested_ternary_positions :
  Unparse nested_ternary
    {| positions := {[1 := 0; 2 := 2; 3 := 5; 4 := 7; 5 := 9; 6 := 13;
                      7 := 18]};
       line_offsets := [] |}
  = Returned "a ? (b ? c : d) : e" None.
Proof. by vm_compute. Qed.


End ConditionalExamples.

(** ** Calls with missing arguments *)

Section MissingArguments.
Context {ops : Operators} {sc : Strconv}.

(** A call of a binary, index or conditional operator with fewer
    arguments than the operator takes. *)
Definition missing_arguments (fn : string) (args : list Expr) : Prop :=
  (fn ∈ binary_operators ∧ (length args < 2)%nat)
  ∨ (fn = Index ∧ (length args < 2)%nat)
  ∨ (fn = Conditional ∧ (length args < 3)%nat).

(** The panic of the index expression [args[len(args)]]. *)
Definition out_of_range (args : list Expr) : Go.panic :=
  Go.IndexOutOfRange (Z.of_nat (length args)) (length args).

(** The outcome [r] of a call node is the failure of the visit of one of
    its arguments. *)
Definition operand_failure (args : list Expr) (r : outcome unit) : Prop :=
  r ≠ Ok () ∧ ∃ a u, a ∈ args ∧ (visit a u).1 = r.

Lemma fst_bind {A B : Type} (m : M A) (f : A → M B) (un : unparser) :
  ((m ≫= f) un).1 =
  match m un with
  | (Ok a, un') => (f a un').1
  | (Err e, _) => Err e
  | (Panic p, _) => Panic p
  end.
Proof. rewrite run_bind. by destruct (m un) as [[a|e|p] un']. Qed.

Lemma visitMaybeNested_outcome (a : Expr) (nested : bool) (un : unparser) :
  ∃ u, (visitMaybeNested visit a nested un).1 = (visit a u).1.
Proof.
  unfold visitMaybeNested. destruct nested.
  - exists (set_str (str un +:+ "(") un).
    rewrite fst_bind, run_WriteString, fst_bind.
    by destruct (visit a _) as [[[]|e|p] u'].
  - exists un. rewrite fst_bind. change (ret () un) with (Ok (), un).
    cbv iota beta. rewrite fst_bind. by destruct (visit a _) as [[[]|e|p] u'].
Qed.

Lemma visit_call_outcome (id : Z) (target : option Expr) (fn : string)
    (args : list Expr) (un : unparser) :
  ∃ u, (visit (Expr_CallExpr id target fn args) un).1
       = (visitCall visit id target fn args u).1.
Proof.
  exists (set_visited (visited un ++ [Expr_CallExpr id target fn args]) un).
  rewrite visit_unfold. by rewrite fst_bind.
Qed.

(** Claim C2, as amended.  For a call node of a binary, index or
    conditional operator that carries fewer arguments than the operator
    takes, the visit never succeeds and never reports the shape of the
    tree: it ends in the run-time panic of the index expression that
    reads the first missing argument, unless the visit of an argument that
    is present fails first, and then that failure is the outcome.  For a
    binary operator it is always the panic.  Rendering such a node never
    returns text. *)
Theorem missing_arguments_panic (id : Z) (target : option Expr)
    (fn : string) (args : list Expr) (un : unparser) :
  missing_arguments fn args →
  let node := Expr_CallExpr id target fn args in
  ((visit node un).1 = Panic (out_of_range args)
   ∨ operand_failure args (visit node un).1)
  ∧ (fn ∈ binary_operators → (visit node un).1 = Panic (out_of_range args))
  ∧ ∀ inf s, Unparse node inf ≠ Returned s None.
Proof.
  intros Hmiss node. subst node.
  set (node := Expr_CallExpr id target fn args).
  assert (Hvisit : ∀ un,
    ((visit node un).1 = Panic (out_of_range args)
     ∨ operand_failure args (visit node un).1)
    ∧ (fn ∈ binary_operators → (visit node un).1 = Panic (out_of_range args))).
  { clear un. intros un. subst node.
    destruct (visit_call_outcome id target fn args un) as (u & ->).
    destruct Hmiss as [[Hfn Hlen]|[[-> Hlen]|[-> Hlen]]].
    - rewrite visitCall_binary by done. unfold visitCallBinary.
      destruct args as [|a0 [|a1 args]]; simpl in Hlen; [| |lia];
        (split; [left|intros _]); done.
    - split; [|intros Hb; by apply binary_not_special in Hb as (_ & Hb & _)].
      rewrite visitCall_index. unfold visitCallIndex.
      destruct args as [|a0 [|a1 args]]; simpl in Hlen; [by left| |lia].
      rewrite fst_bind.
      destruct (visit a0 u) as [[[]|e|p] u1] eqn:H0.
      + left. by rewrite fst_bind, run_pad, fst_bind, run_WriteString.
      + right. split; [done|]. exists a0, u. split; [apply list_elem_of_here|].
        by rewrite H0.
      + right. split; [done|]. exists a0, u. split; [apply list_elem_of_here|].
        by rewrite H0.
    - split; [|intros Hb; by apply binary_not_special in Hb as (Hb & _)].
      rewrite visitCall_conditional. unfold visitCallConditional.
      destruct args as [|a0 [|a1 [|a2 args]]]; simpl in Hlen;
        [by left| | |lia].
      + rewrite fst_bind.
        destruct (visitMaybeNested_outcome a0
                    (isSamePrecedence Conditional a0) u) as (u0 & H0).
        destruct (visitMaybeNested visit a0 _ u) as [[[]|e|p] u1];
          simpl in H0.
        * left. by rewrite fst_bind, run_pad, fst_bind, run_WriteString.
        * right. split; [done|]. exists a0, u0.
          split; [apply list_elem_of_here|done].
        * right. split; [done|]. exists a0, u0.
          split; [apply list_elem_of_here|done].
      + rewrite fst_bind.
        destruct (visitMaybeNested_outcome a0
                    (isSamePrecedence Conditional a0) u) as (u0 & H0).
        destruct (visitMaybeNested visit a0 _ u) as [[[]|e|p] u1];
          simpl in H0.
        * rewrite fst_bind, run_pad, fst_bind, run_WriteString, fst_bind.
          match goal with
          | |- context [visitMaybeNested visit a1 ?b ?v] =>
            destruct (visitMaybeNested_outcome a1 b v) as (u2 & H1);
            destruct (visitMaybeNested visit a1 b v) as [[[]|e|p] u3]
          end; simpl in H1.
          -- left. by rewrite fst_bind, run_WriteString.
          -- right. split; [done|]. exists a1, u2.
             split; [apply list_elem_of_further, list_elem_of_here|done].
          -- right. split; [done|]. exists a1, u2.
             split; [apply list_elem_of_further, list_elem_of_here|done].
        * right. split; [done|]. exists a0, u0.
          split; [apply list_elem_of_here|done].
        * right. split; [done|]. exists a0, u0.
          split; [apply list_elem_of_here|done]. }
  destruct (Hvisit un) as [H1 H2]. split; [exact H1|]. split; [exact H2|].
  intros inf s. unfold Unparse.
  destruct (Hvisit (new_unparser inf)) as [[Hp|[Hne _]] _].
  - destruct (visit node (new_unparser inf)) as [[[]|e|p] u]; done.
  - destruct (visit node (new_unparser inf)) as [[[]|e|p] u]; done.
Qed.

End MissingArguments.

Section MissingArgumentsExamples.
Import SpecTable.

(** Claim C2 fails as stated: an addition with a single operand makes
    [Unparse] panic; no error is returned. *)
Lemma unparse_missing_operand_panics :
  Unparse (call 1 "_+_" [ident 2 "a"]) no_info
  = Panicked (Go.IndexOutOfRange 1 1)
  ∧ ¬ ∃ s err, Unparse (call 1 "_+_" [ident 2 "a"]) no_info
               = Returned s (Some err).
Proof.
  assert (H : Unparse (call 1 "_+_" [ident 2 "a"]) no_info
              = Panicked (Go.IndexOutOfRange 1 1)) by (by vm_compute).
  split; [exact H|]. rewrite H. by intros (s & err & ?).
Qed.

Example unparse_conditional_missing_branch :
  Unparse (call 1 "_?_:_" [ident 2 "a"; ident 3 "b"]) no_info
  = Panicked (Go.IndexOutOfRange 2 2).
Proof. by vm_compute. Qed.

Example unparse_index_missing_key :
  Unparse (call 1 "_[_]" [ident 2 "a"]) no_info
  = Panicked (Go.IndexOutOfRange 1 1).
Proof. by vm_compute. Qed.

Lemma missing_arguments_panic_witness :
  missing_arguments "_+_" [ident 2 "a"]
  ∧ (visit (call 1 "_+_" [ident 2 "a"]) (new_unparser no_info)).1
    = Panic (Go.IndexOutOfRange 1 1).
Proof.
  assert (Hfn : "_+_" ∈ binary_operators)
    by (by apply (bool_decide_unpack _); vm_compute).
  assert (Hmiss : missing_arguments "_+_" [ident 2 "a"])
    by (left; split; [exact Hfn|simpl; lia]).
  split; [exact Hmiss|].
  exact (proj1 (proj2 (missing_arguments_panic 1 None "_+_" [ident 2 "a"]
                         (new_unparser no_info) Hmiss)) Hfn).
Defined.

End MissingArgumentsExamples.

(** ** Comprehensions *)

Section Comprehensions.
Context {ops : Operators} {sc : Strconv}.

Lemma visit_comprehension (e : Expr) (un : unparser) :
  is_comprehension e = true →
  visit e un = (Err (Unimplemented e), set_visited (visited un ++ [e]) un).
Proof. by destruct e. Qed.

(** Claim C8.  If the root of the tree, or any expression that [visit] is
    called on while the tree is rendered, is a comprehension node, then
    [Unparse] returns the empty string together with the error built from
    the format ["unimplemented : %v"] and that node. *)
Theorem comprehension_unimplemented (e c : Expr) (inf : SourceInfo) :
  is_comprehension c = true →
  c = e ∨ c ∈ visited (visit e (new_unparser inf)).2 →
  Unparse e inf = Returned "" (Some (Unimplemented c))
  ∧ error_prefix (Unimplemented c) = "unimplemented : ".
Proof.
  intros Hc Hvisited. split; [|done]. unfold Unparse.
  destruct Hvisited as [->|Hin].
  - by rewrite visit_comprehension.
  - destruct (appends_visit e (new_unparser inf))
      as [(t & new & Hst & Herr) _].
    rewrite Hst in Hin. simpl in Hin.
    specialize (Herr c Hin Hc).
    destruct (visit e (new_unparser inf)) as [r u]. simpl in Herr.
    by subst r.
Qed.

End Comprehensions.

Section ComprehensionExamples.
Import SpecTable.

Definition some_comprehension : Expr :=
  Expr_ComprehensionExpr 9 "x" (Some (ident 8 "xs")) "acc" None None None None.

Definition a_and_comprehension : Expr :=
  call 2 "_&&_" [ident 1 "a"; some_comprehension].

Example unparse_comprehension_operand :
  Unparse a_and_comprehension no_info
  = Returned "" (Some (Unimplemented some_comprehension)).
Proof. by vm_compute. Qed.

Lemma comprehension_unimplemented_witness :
  is_comprehension some_comprehension = true
  ∧ (some_comprehension = a_and_comprehension
     ∨ some_comprehension
       ∈ visited (visit a_and_comprehension (new_unparser no_info)).2)
  ∧ Unparse a_and_comprehension no_info
    = Returned "" (Some (Unimplemented some_comprehension)).
Proof.
  assert (Hin : some_comprehension = a_and_comprehension
     ∨ some_comprehension
       ∈ visited (visit a_and_comprehension (new_unparser no_info)).2).
  { right. vm_compute. apply list_elem_of_further, list_elem_of_further,
      list_elem_of_here. }
  split; [done|]. split; [exact Hin|].
  exact (proj1 (comprehension_unimplemented a_and_comprehension
                  some_comprehension no_info eq_refl Hin)).
Defined.

End ComprehensionExamples.

(** ** Line-break reinsertion *)

(** The post-pass the way the specification words it: from a start index,
    the first space found is replaced by a line break; when there is none
    the text stays as it is. *)
Fixpoint first_space (txt : list Go.rune) : option nat :=
  match txt with
  | [] => None
  | c :: txt' => if c =? 32 then Some O else S <$> first_space txt'
  end.

Definition first_space_from (i : nat) (txt : list Go.rune) : option nat :=
  (λ j, (i + j)%nat) <$> first_space (drop i txt).

Definition reinsert_break (i : nat) (txt : list Go.rune) : list Go.rune :=
  match first_space_from i txt with
  | Some j => <[j := 10]> txt
  | None => txt
  end.

Lemma first_space_from_found (i j : nat) (txt : list Go.rune) :
  first_space_from i txt = Some j ↔
  (i ≤ j)%nat ∧ txt !! j = Some 32
  ∧ ∀ k, (i ≤ k < j)%nat → txt !! k ≠ Some 32.
Proof.
  unfold first_space_from.
  assert (Hfs : ∀ (l : list Go.rune) d,
    first_space l = Some d ↔
    l !! d = Some 32 ∧ ∀ k, (k < d)%nat → l !! k ≠ Some 32).
  { induction l as [|c l IH]; intros d; simpl.
    - split; [done|]. by intros [? _].
    - destruct (Z.eqb_spec c 32) as [->|Hc].
      + split.
        * intros [= <-]. split; [done|]. lia.
        * intros [Hd Hk]. destruct d as [|d]; [done|].
          destruct (Hk O); [lia|done].
      + rewrite fmap_Some. split.
        * intros (d' & Hd' & ->). apply IH in Hd' as [H1 H2].
          split; [done|]. intros [|k] Hk; simpl; [congruence|].
          apply H2. lia.
        * intros [Hd Hk]. destruct d as [|d]; simpl in Hd; [congruence|].
          exists d. split; [|done]. apply IH. split; [done|].
          intros k Hlt. apply (Hk (S k)). lia. }
  rewrite fmap_Some. split.
  - intros (d & Hd & ->). apply Hfs in Hd as [H1 H2].
    rewrite lookup_drop in H1. split; [lia|]. split; [done|].
    intros k Hk. specialize (H2 (k - i)%nat).
    rewrite lookup_drop in H2. replace (i + (k - i))%nat with k in H2 by lia.
    apply H2. lia.
  - intros (Hij & Hj & Hk). exists (j - i)%nat. split; [|lia].
    apply Hfs. rewrite lookup_drop.
    replace (i + (j - i))%nat with j by lia. split; [done|].
    intros k Hlt. rewrite lookup_drop. apply Hk. lia.
Qed.

Lemma first_space_from_none (i : nat) (txt : list Go.rune) :
  first_space_from i txt = None ↔ ∀ k, (i ≤ k)%nat → txt !! k ≠ Some 32.
Proof.
  unfold first_space_from. rewrite fmap_None.
  assert (Hfs : ∀ l : list Go.rune,
    first_space l = None ↔ ∀ k, l !! k ≠ Some 32).
  { induction l as [|c l IH]; simpl; [done|].
    destruct (Z.eqb_spec c 32) as [->|Hc].
    - split; [done|]. intros Hall. by destruct (Hall O).
    - rewrite fmap_None, IH. split.
      + intros Hall [|k]; simpl; [congruence|apply Hall].
      + intros Hall k. apply (Hall (S k)). }
  rewrite Hfs. split.
  - intros Hall k Hk. specialize (Hall (k - i)%nat).
    rewrite lookup_drop in Hall.
    by replace (i + (k - i))%nat with k in Hall by lia.
  - intros Hall k. rewrite lookup_drop. apply Hall. lia.
Qed.

(** What [reinsert_break] does, in the words of the specification. *)
Lemma reinsert_break_spec (i : nat) (txt : list Go.rune) :
  (∃ j, (i ≤ j)%nat ∧ txt !! j = Some 32
        ∧ (∀ k, (i ≤ k < j)%nat → txt !! k ≠ Some 32)
        ∧ reinsert_break i txt = <[j := 10]> txt)
  ∨ ((∀ k, (i ≤ k)%nat → txt !! k ≠ Some 32) ∧ reinsert_break i txt = txt).
Proof.
  unfold reinsert_break.
  destruct (first_space_from i txt) as [j|] eqn:Hj.
  - left. apply first_space_from_found in Hj as (? & ? & ?). by exists j.
  - right. split; [|done]. by apply first_space_from_none.
Qed.

Lemma reinsert_break_length (i : nat) (txt : list Go.rune) :
  length (reinsert_break i txt) = length txt.
Proof.
  unfold reinsert_break. destruct (first_space_from i txt); [|done].
  apply length_insert.
Qed.

Lemma reinsert_break_past_end (i : nat) (txt : list Go.rune) :
  (length txt ≤ i)%nat → reinsert_break i txt = txt.
Proof.
  intros Hi. unfold reinsert_break, first_space_from.
  by rewrite drop_ge.
Qed.

Lemma reinsert_break_here (i : nat) (txt : list Go.rune) :
  txt !! i = Some 32 → reinsert_break i txt = <[i := 10]> txt.
Proof.
  intros Hi. unfold reinsert_break, first_space_from.
  rewrite (drop_S _ _ _ Hi). simpl. by rewrite Nat.add_0_r.
Qed.

Lemma reinsert_break_next (i : nat) (c : Go.rune) (txt : list Go.rune) :
  txt !! i = Some c → c ≠ 32 → reinsert_break i txt = reinsert_break (S i) txt.
Proof.
  intros Hi Hc. unfold reinsert_break, first_space_from.
  rewrite (drop_S _ _ _ Hi). simpl.
  destruct (Z.eqb_spec c 32); [done|].
  destruct (first_space (drop (S i) txt)) as [j|]; simpl; [|done].
  by rewrite Nat.add_succ_r.
Qed.

Lemma int32_add (a b : Z) : Go.int32 (Go.int32 a + b) = Go.int32 (a + b).
Proof.
  unfold Go.int32. f_equal.
  replace ((a + 2 ^ 31) `mod` 2 ^ 32 - 2 ^ 31 + b + 2 ^ 31)
    with ((a + 2 ^ 31) `mod` 2 ^ 32 + b) by lia.
  rewrite Zplus_mod_idemp_l. f_equal. lia.
Qed.

Lemma int32_next (br : Z) (i : nat) :
  Go.int32 (br - 1) = Z.of_nat i → Z.of_nat i + 1 < 2 ^ 31 →
  Go.int32 (Go.int32 (br + 1) - 1) = Z.of_nat (S i).
Proof.
  intros Hbr Hi.
  replace (Go.int32 (br + 1) - 1) with (Go.int32 (br + 1) + -1) by lia.
  rewrite int32_add. replace (br + 1 + -1) with (br - 1 + 1) by lia.
  rewrite <- int32_add, Hbr. rewrite int32_small; lia.
Qed.

Section LineBreaks.
Context {ops : Operators} {sc : Strconv}.

Lemma int32_range (z : Z) : - 2 ^ 31 ≤ Go.int32 z < 2 ^ 31.
Proof.
  unfold Go.int32.
  pose proof (Z.mod_pos_bound (z + 2 ^ 31) (2 ^ 32)). lia.
Qed.

Lemma int32_le (z : Z) : 0 ≤ z → Go.int32 z ≤ z.
Proof.
  intros Hz. unfold Go.int32.
  pose proof (Z.mod_le (z + 2 ^ 31) (2 ^ 32)). lia.
Qed.

(** The fuel [fuel] is enough for the loop started at offset [br]. *)
Definition enough_fuel (fuel : nat) (sz br : Z) : Prop :=
  (0 < fuel)%nat
  ∧ (0 ≤ Go.int32 (br - 1) → sz - Go.int32 (br - 1) < Z.of_nat fuel).

(** With enough fuel the result of the loop does not depend on the fuel:
    the loop always ends by itself. *)
Lemma break_loop_enough_fuel (fuel fuel' : nat) (sz br : Z)
    (txt : list Go.rune) :
  sz < 2 ^ 31 →
  enough_fuel fuel sz br → enough_fuel fuel' sz br →
  break_loop fuel sz br txt = break_loop fuel' sz br txt.
Proof.
  intros Hsz. revert fuel' br.
  induction fuel as [|fuel IH]; intros fuel' br [Hpos Hf] [Hpos' Hf'];
    [lia|].
  destruct fuel' as [|fuel']; [lia|]. cbn [break_loop].
  destruct (Z.ltb_spec (Go.int32 (br - 1)) sz) as [Hlt|]; [|done].
  destruct (Z.ltb_spec (Go.int32 (br - 1)) 0) as [|Hge]; [done|].
  destruct (txt !! Z.to_nat (Go.int32 (br - 1))) as [c|]; [|done].
  destruct (c =? 32); [done|].
  assert (Hnext : Go.int32 (Go.int32 (br + 1) - 1) = Go.int32 (br - 1) + 1).
  { replace (Go.int32 (br + 1) - 1) with (Go.int32 (br + 1) + -1) by lia.
    rewrite int32_add. replace (br + 1 + -1) with (br - 1 + 1) by lia.
    rewrite <- int32_add. apply int32_small. lia. }
  apply IH; split; rewrite ?Hnext; lia.
Qed.

Lemma apply_breaks_fuel (br : Z) (txt : list Go.rune) (extra : nat) :
  break_loop (S (length txt) + extra)
    (Go.int32 (Z.of_nat (length txt))) br txt
  = break_loop (S (length txt)) (Go.int32 (Z.of_nat (length txt))) br txt.
Proof.
  pose proof (int32_range (Z.of_nat (length txt))).
  pose proof (int32_le (Z.of_nat (length txt))).
  apply break_loop_enough_fuel; [lia|split; lia..].
Qed.

(** The inner loop computes [reinsert_break], and the fuel it is given
    is enough. *)
Lemma break_loop_reinsert (fuel : nat) (br : Z) (i : nat)
    (txt : list Go.rune) :
  Z.of_nat (length txt) < 2 ^ 31 →
  Go.int32 (br - 1) = Z.of_nat i →
  (length txt - i < fuel)%nat →
  break_loop fuel (Z.of_nat (length txt)) br txt = inr (reinsert_break i txt).
Proof.
  intros Hlen. revert br i.
  induction fuel as [|fuel IH]; intros br i Hbr Hfuel; [lia|].
  cbn [break_loop]. rewrite Hbr.
  destruct (Z.ltb_spec (Z.of_nat i) (Z.of_nat (length txt))) as [Hlt|Hge].
  - destruct (Z.ltb_spec (Z.of_nat i) 0); [lia|]. rewrite Nat2Z.id.
    destruct (lookup_lt_is_Some_2 txt i) as [c Hc]; [lia|]. rewrite Hc.
    destruct (Z.eqb_spec c 32) as [->|Hne].
    + by rewrite reinsert_break_here.
    + rewrite (reinsert_break_next i c) by done.
      apply IH; [|lia]. apply int32_next; [done|lia].
  - rewrite reinsert_break_past_end; [done|lia].
Qed.

Definition in_int32_from_1 (br : Z) : Prop := 1 ≤ br < 2 ^ 31.

Lemma apply_breaks_reinsert (breaks : list Z) (txt : list Go.rune) :
  Z.of_nat (length txt) < 2 ^ 31 →
  Forall in_int32_from_1 breaks →
  apply_breaks (Z.of_nat (length txt)) breaks txt
  = inr (foldl (λ t br, reinsert_break (Z.to_nat (br - 1)) t) txt breaks).
Proof.
  intros Hlen Hbreaks. revert txt Hlen.
  induction Hbreaks as [|br breaks Hbr _ IH]; intros txt Hlen; [done|].
  cbn [apply_breaks foldl]. unfold in_int32_from_1 in Hbr.
  rewrite (break_loop_reinsert _ br (Z.to_nat (br - 1))); [|done| |lia].
  - rewrite <- (reinsert_break_length (Z.to_nat (br - 1)) txt) at 1.
    apply IH. by rewrite reinsert_break_length.
  - rewrite int32_small by lia. lia.
Qed.

(** Claim C3, as amended.  Let the visit of the tree succeed and leave the
    text [str un] in the buffer.  With at most one recorded line offset
    that text is returned as it is.  With two or more recorded offsets,
    each of them at least 1, and a text of fewer than 2^31 characters, the
    offsets are taken in recorded order, and for each of them the scan
    starts at the character just before the offset (index [br - 1]),
    replaces the first space found from there on by a line break, and
    leaves the text as it is when no space follows. *)
Theorem line_breaks_reinserted (e : Expr) (inf : SourceInfo) (un : unparser) :
  visit e (new_unparser inf) = (Ok (), un) →
  let breaks := line_offsets inf in
  let txt := Go.runes_of_string (str un) in
  ((length breaks ≤ 1)%nat → Unparse e inf = Returned (str un) None)
  ∧ ((1 < length breaks)%nat →
     Forall in_int32_from_1 breaks →
     Z.of_nat (length txt) < 2 ^ 31 →
     Unparse e inf =
     Returned (Go.string_of_runes
        (foldl (λ t br, reinsert_break (Z.to_nat (br - 1)) t) txt breaks))
       None).
Proof.
  intros Hvisit breaks txt. unfold Unparse. rewrite Hvisit.
  fold breaks. split.
  - intros Hle. destruct (Z.leb_spec (Z.of_nat (length breaks)) 1); [done|lia].
  - intros Hlt Hbreaks Hlen.
    destruct (Z.leb_spec (Z.of_nat (length breaks)) 1); [lia|].
    fold txt. rewrite int32_small by lia.
    by rewrite apply_breaks_reinsert.
Qed.

End LineBreaks.

Section LineBreakExamples.
Import SpecTable.

Definition newline : string := String (Ascii.ascii_of_nat 10) "".

Definition indented_a : SourceInfo :=
  {| positions := {[1 := 2]}; line_offsets := [1] |}.

(** Claim C3 fails as stated.  Only one line offset is recorded; the text
    has a space at the offset and one before it, and none of them is
    replaced. *)
Lemma single_line_offset_not_applied :
  line_offsets indented_a = [1]
  ∧ Unparse (ident 1 "a") indented_a = Returned "  a" None
  ∧ first_space_from 0 (Go.runes_of_string "  a") = Some 0%nat
  ∧ first_space_from 1 (Go.runes_of_string "  a") = Some 1%nat.
Proof. split_and!; by vm_compute. Qed.

Definition a_and_b : Expr := call 2 "_&&_" [ident 1 "a"; ident 3 "b"].

Definition two_lines : SourceInfo :=
  {| positions := {[1 := 0; 2 := 2; 3 := 6]}; line_offsets := [5; 8] |}.

Definition a_and_b_final : unparser :=
  mk_unparser two_lines "a &&  b" 0 [a_and_b; ident 1 "a"; ident 3 "b"].

(** Two recorded offsets: the first turns the space at index 4 into a
    line break, the second lies past the end of the text and is dropped. *)
Lemma line_breaks_reinserted_witness :
  visit a_and_b (new_unparser two_lines) = (Ok (), a_and_b_final)
  ∧ (1 < length (line_offsets two_lines))%nat
  ∧ Forall in_int32_from_1 (line_offsets two_lines)
  ∧ Unparse a_and_b two_lines = Returned ("a &&" +:+ newline +:+ " b") None.
Proof.
  assert (Hvisit : visit a_and_b (new_unparser two_lines)
                   = (Ok (), a_and_b_final)) by (by vm_compute).
  assert (Hbreaks : Forall in_int32_from_1 (line_offsets two_lines))
    by (repeat constructor; unfold in_int32_from_1; lia).
  split; [exact Hvisit|]. split; [simpl; lia|]. split; [exact Hbreaks|].
  destruct (line_breaks_reinserted a_and_b two_lines a_and_b_final Hvisit)
    as [_ Hmany].
  rewrite Hmany; [by vm_compute|simpl; lia|exact Hbreaks|by vm_compute].
Defined.

(** The scan starts one character before the recorded offset: with the
    offset 2 it is the space at index 1 that is replaced. *)
Example line_break_starts_before_offset :
  Unparse (ident 1 "a") {| positions := {[1 := 2]}; line_offsets := [2; 9] |}
  = Returned (" " +:+ newline +:+ "a") None.
Proof. by vm_compute. Qed.

(** An offset of zero makes the scan read [txt[-1]]. *)
Example line_offset_zero_panics :
  Unparse (ident 1 "a") {| positions := {[1 := 2]}; line_offsets := [0; 9] |}
  = Panicked (Go.IndexOutOfRange (-1) 3).
Proof. by vm_compute. Qed.

(** Characters, not bytes, are counted: the constant holds one two-byte
    character, so the offset 6 starts the scan at the first [&], and it is
    the second space that is replaced. *)
Example line_break_counts_characters :
  Unparse (call 2 "_&&_"
             [Expr_ConstExpr 1 (Constant_BytesValue
                (Go.string_of_bytes [0xC3; 0xBF]));
              ident 3 "b"])
    {| positions := ∅; line_offsets := [6; 99] |}
  = Returned ("b" +:+ dquote +:+ Go.string_of_bytes [0xC3; 0xBF] +:+ dquote
              +:+ " &&" +:+ newline +:+ "b") None.
Proof. by vm_compute. Qed.

End LineBreakExamples.

(** ** The escape decoder

    [unescape] lives in [parser/unescape.go], which is not among the
    sources; only its tests are.  The decoder below is written from
    section 4.1 of the specification and checked against the tests. *)

Module Unescape.

(** Modelled from the spec: the single error kind of the decoder,
    carrying the offending substring. *)
Record DecodeError : Type := mkDecodeError { offending : list Z }.

(** Modelled from the spec: a decoded value, code points in text mode and
    raw bytes in byte mode. *)
Inductive decoded : Type :=
| Text (code_points : list Z)
| Bytes (bytes : list Z).

Definition pack (byteMode : bool) (units : list Z) : decoded :=
  if byteMode then Bytes units else Text units.

(** The code points of an ASCII string. *)
Definition runes (s : string) : list Z := Go.bytes_of_string s.

Definition squote : Z := 39.
Definition dquote : Z := 34.
Definition backslash : Z := 92.

(** Modelled from the spec: step 1 of the missing [unescape], delimiter
    classification.  The token starts with a quote character; it is
    triple-delimited when three such characters open and close it, and
    single-delimited otherwise; the delimiters are stripped.  Anything
    else is a malformed quote run. *)
Definition strip_delimiters (token : list Z) : option (list Z) :=
  match token with
  | [] => None
  | q :: _ =>
    if negb ((q =? squote) || (q =? dquote)) then None
    else
      let n := length token in
      if bool_decide (6 ≤ n)%nat
         && bool_decide (take 3 token = [q; q; q])
         && bool_decide (drop (n - 3) token = [q; q; q])
      then Some (take (n - 6) (drop 3 token))
      else if bool_decide (2 ≤ n)%nat && bool_decide (last token = Some q)
      then Some (take (n - 2) (drop 1 token))
      else None
  end.

(** Modelled from the spec: the single-character escapes, a backslash
    followed by one of [a b f n r t v], a single or double quote, a
    backslash or a question mark. *)
Definition single_escape (c : Z) : option Z :=
  if c =? 97 then Some 7
  else if c =? 98 then Some 8
  else if c =? 102 then Some 12
  else if c =? 110 then Some 10
  else if c =? 114 then Some 13
  else if c =? 116 then Some 9
  else if c =? 118 then Some 11
  else if c =? 39 then Some 39
  else if c =? 34 then Some 34
  else if c =? 92 then Some 92
  else if c =? 63 then Some 63
  else None.

(** Modelled from the spec: the digits of an octal escape. *)
Definition is_octal (c : Z) : bool := Go.in_range 48 55 c.

(** Modelled from the spec: the digits of a hex or unicode escape, in
    either case. *)
Definition hex_digit (c : Z) : option Z :=
  if Go.in_range 48 57 c then Some (c - 48)
  else if Go.in_range 97 102 c then Some (c - 87)
  else if Go.in_range 65 70 c then Some (c - 55)
  else None.

(** The number written by a list of digit values, most significant first. *)
Definition number (base : Z) (digits : list Z) : Z :=
  foldl (λ acc d, acc * base + d) 0 digits.

Definition octal_value (ds : list Z) : Z := number 8 ((λ d, d - 48) <$> ds).

Definition hex_value (ds : list Z) : option Z :=
  number 16 <$> mapM hex_digit ds.

(** One decoded unit, or several, in front of the units of the rest. *)
Definition units_then (vs : list Z) (k : DecodeError + list Z)
    : DecodeError + list Z :=
  match k with
  | inl err => inl err
  | inr us => inr (vs ++ us)
  end.

Definition unit_then (v : Z) (k : DecodeError + list Z)
    : DecodeError + list Z :=
  units_then [v] k.

(** Modelled from the spec: an octal escape with digits [ds], whose value
    must fit in 0-255. *)
Definition octal_then (ds : list Z) (k : DecodeError + list Z)
    : DecodeError + list Z :=
  if octal_value ds <=? 255 then unit_then (octal_value ds) k
  else inl (mkDecodeError (backslash :: ds)).

(** Modelled from the spec: an escape introduced by the letter [x], [u]
    or [U], followed by the hex digits [ds]. *)
Definition hex_then (letter : Z) (ds : list Z) (k : DecodeError + list Z)
    : DecodeError + list Z :=
  match hex_value ds with
  | Some v => unit_then v k
  | None => inl (mkDecodeError (backslash :: letter :: ds))
  end.

(** Modelled from the spec: step 2 of the missing [unescape], the
    left-to-right scan of the escape-body.  A literal character is copied
    as one code point in text mode and as its encoded bytes in byte mode.
    A backslash introduces a single-character escape, an octal escape of
    one to three digits (as many as follow, up to three) with a value of
    at most 255, a hex escape of exactly two digits, or, in text mode
    only, a unicode escape of four or eight hex digits; anything else is
    an error.  Every numeric escape yields exactly one unit. *)
Fixpoint scan (byteMode : bool) (body : list Z) : DecodeError + list Z :=
  match body with
  | [] => inr []
  | c :: rest =>
    if c =? backslash then
      match rest with
      | [] => inl (mkDecodeError [backslash])
      | e :: rest1 =>
        match single_escape e with
        | Some v => unit_then v (scan byteMode rest1)
        | None =>
          if is_octal e then
            match rest1 with
            | [] => octal_then [e] (scan byteMode rest1)
            | d2 :: rest2 =>
              if is_octal d2 then
                match rest2 with
                | [] => octal_then [e; d2] (scan byteMode rest2)
                | d3 :: rest3 =>
                  if is_octal d3
                  then octal_then [e; d2; d3] (scan byteMode rest3)
                  else octal_then [e; d2] (scan byteMode rest2)
                end
              else octal_then [e] (scan byteMode rest1)
            end
          else if e =? 120 then
            match rest1 with
            | h1 :: h2 :: rest3 =>
              hex_then e [h1; h2] (scan byteMode rest3)
            | _ => inl (mkDecodeError (backslash :: e :: rest1))
            end
          else if e =? 117 then
            if byteMode then inl (mkDecodeError (backslash :: e :: take 4 rest1))
            else
              match rest1 with
              | h1 :: h2 :: h3 :: h4 :: rest5 =>
                hex_then e [h1; h2; h3; h4] (scan byteMode rest5)
              | _ => inl (mkDecodeError (backslash :: e :: rest1))
              end
          else if e =? 85 then
            if byteMode then inl (mkDecodeError (backslash :: e :: take 8 rest1))
            else
              match rest1 with
              | h1 :: h2 :: h3 :: h4 :: h5 :: h6 :: h7 :: h8 :: rest9 =>
                hex_then e [h1; h2; h3; h4; h5; h6; h7; h8]
                  (scan byteMode rest9)
              | _ => inl (mkDecodeError (backslash :: e :: rest1))
              end
          else inl (mkDecodeError [backslash; e])
        end
      end
    else if byteMode then units_then (Go.EncodeRune c) (scan byteMode rest)
    else unit_then c (scan byteMode rest)
  end.

(** Modelled from the spec: the missing function [unescape], called
    [decode] in the specification: [decode(token, byteMode)] returns the
    decoded text or bytes, or a [DecodeError]. *)
Definition decode (token : list Z) (byteMode : bool) : DecodeError + decoded :=
  match strip_delimiters token with
  | None => inl (mkDecodeError token)
  | Some body =>
    match scan byteMode body with
    | inl err => inl err
    | inr units => inr (pack byteMode units)
    end
  end.

(** *** The cases of [parser/unescape_test.go]

    The tests compare Go strings; a text result is compared through its
    UTF-8 encoding. *)

Definition as_go_string (r : DecodeError + decoded) : option string :=
  match r with
  | inl _ => None
  | inr (Text cps) => Some (Go.string_of_runes cps)
  | inr (Bytes bs) => Some (Go.string_of_bytes bs)
  end.

Definition quoted (body : list Z) : list Z := [dquote] ++ body ++ [dquote].

Example TestUnescapeSingleQuote :
  as_go_string (decode (runes "'hello'") false) = Some "hello".
Proof. by vm_compute. Qed.

Example TestUnescapeDoubleQuote :
  as_go_string (decode (quoted []) false) = Some "".
Proof. by vm_compute. Qed.

Example TestUnescapeEscapedQuote :
  decode (quoted (runes "\\\" ++ [dquote])) false
  = inr (Text [backslash; dquote]).
Proof. by vm_compute. Qed.

Example TestUnescapeEscapedEscape :
  as_go_string (decode (quoted (runes "\\")) false) = Some "\".
Proof. by vm_compute. Qed.

Example TestUnescapeTripleSingleQuote :
  as_go_string (decode (runes "'''x''x'''") false) = Some "x''x".
Proof. by vm_compute. Qed.

Example TestUnescapeTripleDoubleQuote :
  decode ([dquote; dquote; dquote] ++ runes "x" ++ [dquote; dquote]
          ++ runes "x" ++ [dquote; dquote; dquote]) false
  = inr (Text (runes "x" ++ [dquote; dquote] ++ runes "x")).
Proof. by vm_compute. Qed.

Example TestUnescapeMultiOctalSequence :
  as_go_string (decode (quoted (runes "\303\277")) false)
  = Some (Go.string_of_bytes [0xC3; 0x83; 0xC2; 0xBF]).
Proof. by vm_compute. Qed.

Example TestUnescapeOctalSequence :
  as_go_string (decode (quoted (runes "\377")) false)
  = Some (Go.string_of_bytes [0xC3; 0xBF]).
Proof. by vm_compute. Qed.

Example TestUnescapeUnicodeSequence :
  decode (quoted (runes "\u263A\u263A")) false = inr (Text [0x263A; 0x263A]).
Proof. by vm_compute. Qed.

Example TestUnescapeLegalEscapes :
  decode (quoted (runes "\a\b\f\n\r\t\v\'\" ++ [dquote]
                  ++ runes "\\\? Legal escapes")) false
  = inr (Text ([7; 8; 12; 10; 13; 9; 11; 39; 34; 92; 63]
               ++ runes " Legal escapes")).
Proof. by vm_compute. Qed.

Example TestUnescapeIllegalEscapes :
  decode (quoted (runes "\a\b\f\n\r\t\v\'\" ++ [dquote]
                  ++ runes "\\\? Illegal escape \>")) false
  = inl (mkDecodeError (runes "\>")).
Proof. by vm_compute. Qed.

Example TestUnescapeBytesAscii :
  decode (quoted (runes "abc")) true = inr (Bytes [0x61; 0x62; 0x63]).
Proof. by vm_compute. Qed.

Example TestUnescapeBytesUnicode :
  decode (quoted [0xFF]) true = inr (Bytes [0xC3; 0xBF]).
Proof. by vm_compute. Qed.

Example TestUnescapeBytesOctal :
  decode (quoted (runes "\303\277")) true = inr (Bytes [0xC3; 0xBF]).
Proof. by vm_compute. Qed.

Example TestUnescapeBytesOctalMax :
  decode (quoted (runes "\377")) true = inr (Bytes [0xFF]).
Proof. by vm_compute. Qed.

Example TestUnescapeBytesHex :
  decode (quoted (runes "\xc3\xbf")) true = inr (Bytes [0xC3; 0xBF]).
Proof. by vm_compute. Qed.

Example TestUnescapeBytesHexMax :
  decode (quoted (runes "\xff")) true = inr (Bytes [0xFF]).
Proof. by vm_compute. Qed.

Example TestUnescapeBytesUnicodeEscape :
  decode (quoted (runes "\u00ff")) true
  = inl (mkDecodeError (runes "\u00ff")).
Proof. by vm_compute. Qed.

End Unescape.

(** *** Properties of the scan *)

Section ScanLemmas.
Import Unescape.

Definition head_not_octal (rest : list Z) : Prop :=
  match rest with
  | c :: _ => is_octal c = false
  | [] => True
  end.

Lemma units_then_inr (vs : list Z) (k : DecodeError + list Z) (us : list Z) :
  units_then vs k = inr us ↔ ∃ us', k = inr us' ∧ us = vs ++ us'.
Proof.
  unfold units_then. destruct k as [err|us']; split.
  - done.
  - by intros (? & ? & _).
  - intros [= <-]. eauto.
  - intros (? & [= <-] & ->). done.
Qed.

Lemma units_then_units_then (vs ws : list Z) (k : DecodeError + list Z) :
  units_then vs (units_then ws k) = units_then (vs ++ ws) k.
Proof. destruct k; simpl; [done|]. by rewrite app_assoc. Qed.

Lemma units_then_nil (k : DecodeError + list Z) : units_then [] k = k.
Proof. by destruct k. Qed.

Lemma octal_then_inr (ds : list Z) (k : DecodeError + list Z) (us : list Z) :
  octal_then ds k = inr us →
  ∀ k', octal_then ds k' = units_then [octal_value ds] k'.
Proof.
  unfold octal_then. destruct (octal_value ds <=? 255); [done|done].
Qed.

Lemma hex_then_inr (l : Z) (ds : list Z) (k : DecodeError + list Z)
    (us : list Z) :
  hex_then l ds k = inr us →
  ∃ v, hex_value ds = Some v ∧ ∀ k', hex_then l ds k' = units_then [v] k'.
Proof.
  unfold hex_then. destruct (hex_value ds) as [v|]; [|done].
  intros _. by exists v.
Qed.

Lemma scan_app (byteMode : bool) (pre us rest : list Z) :
  scan byteMode pre = inr us →
  head_not_octal rest →
  scan byteMode (pre ++ rest) = units_then us (scan byteMode rest).
Proof.
  remember (length pre) as n eqn:Hn.
  assert (Hlen : (length pre ≤ n)%nat) by lia. clear Hn.
  revert pre us Hlen.
  induction n as [|n IH]; intros pre us Hlen Hscan Hrest.
  { destruct pre; [|simpl in Hlen; lia]. simpl in *. simplify_eq.
    by rewrite units_then_nil. }
  destruct pre as [|c pre].
  { simpl in *. simplify_eq. by rewrite units_then_nil. }
  simpl in Hlen.
  assert (Hstep : ∀ vs pre' us',
    (length pre' ≤ n)%nat →
    units_then vs (scan byteMode pre') = inr us' →
    units_then vs (scan byteMode (pre' ++ rest))
    = units_then us' (scan byteMode rest)).
  { intros vs pre' us' Hl (us'' & Hk & ->)%units_then_inr.
    by rewrite (IH pre' us'' Hl Hk Hrest), units_then_units_then. }
  rewrite <- app_comm_cons. cbn [scan] in Hscan |- *.
  destruct (c =? backslash).
  2: { destruct byteMode; apply Hstep; [lia|done|lia|done]. }
  destruct pre as [|e pre]; [done|]. rewrite <- app_comm_cons.
  simpl in Hlen.
  destruct (single_escape e) as [v|]. { apply Hstep; [lia|done]. }
  destruct (is_octal e).
  { destruct pre as [|d2 pre].
    - pose proof (octal_then_inr _ _ _ Hscan) as Hoct.
      rewrite Hoct in Hscan. rewrite app_nil_l.
      destruct rest as [|r rest]; [|simpl in Hrest; rewrite Hrest];
        rewrite Hoct; apply (Hstep _ [] _); (simpl; lia) || done.
    - rewrite <- app_comm_cons. simpl in Hlen.
      destruct (is_octal d2).
      + destruct pre as [|d3 pre].
        * pose proof (octal_then_inr _ _ _ Hscan) as Hoct.
          rewrite Hoct in Hscan. rewrite app_nil_l.
          destruct rest as [|r rest]; [|simpl in Hrest; rewrite Hrest];
            rewrite Hoct; apply (Hstep _ [] _); (simpl; lia) || done.
        * rewrite <- app_comm_cons. simpl in Hlen.
          destruct (is_octal d3);
            pose proof (octal_then_inr _ _ _ Hscan) as Hoct;
            rewrite Hoct in Hscan |- *.
          -- apply Hstep; [lia|done].
          -- apply (Hstep _ (d3 :: pre)); [simpl; lia|done].
      + pose proof (octal_then_inr _ _ _ Hscan) as Hoct.
        rewrite Hoct in Hscan |- *.
        apply (Hstep _ (d2 :: pre)); [simpl; lia|done]. }
  destruct (e =? 120).
  { destruct pre as [|h1 [|h2 pre]]; [done..|]. simpl in Hlen.
    rewrite <- !app_comm_cons.
    destruct (hex_then_inr _ _ _ _ Hscan) as (v & _ & Hhex).
    rewrite Hhex in Hscan |- *. apply Hstep; [lia|done]. }
  destruct (e =? 117).
  { destruct byteMode; [done|].
    destruct pre as [|h1 [|h2 [|h3 [|h4 pre]]]]; [done..|]. simpl in Hlen.
    rewrite <- !app_comm_cons.
    destruct (hex_then_inr _ _ _ _ Hscan) as (v & _ & Hhex).
    rewrite Hhex in Hscan |- *. apply Hstep; [lia|done]. }
  destruct (e =? 85); [|done].
  destruct byteMode; [done|].
  destruct pre as [|h1 [|h2 [|h3 [|h4 [|h5 [|h6 [|h7 [|h8 pre]]]]]]]];
    [done..|]. simpl in Hlen.
  rewrite <- !app_comm_cons.
  destruct (hex_then_inr _ _ _ _ Hscan) as (v & _ & Hhex).
  rewrite Hhex in Hscan |- *. apply Hstep; [lia|done].
Qed.


(** A prefix that scans in text mode cannot rescue, in byte mode, a rest
    that fails. *)
Lemma scan_bytes_fails (pre us rest : list Z) :
  scan false pre = inr us →
  head_not_octal rest →
  (∃ err, scan true rest = inl err) →
  ∃ err, scan true (pre ++ rest) = inl err.
Proof.
  intros Hscan Hrest Hfail.
  remember (length pre) as n eqn:Hn.
  assert (Hlen : (length pre ≤ n)%nat) by lia. clear Hn.
  revert pre us Hlen Hscan.
  induction n as [|n IH]; intros pre us Hlen Hscan.
  { destruct pre; [done|simpl in Hlen; lia]. }
  destruct pre as [|c pre]; [done|]. simpl in Hlen.
  assert (Hstep : ∀ vs ws pre' us',
    (length pre' ≤ n)%nat →
    units_then vs (scan false pre') = inr us' →
    ∃ err, units_then ws (scan true (pre' ++ rest)) = inl err).
  { intros vs ws pre' us' Hl (us'' & Hk & ->)%units_then_inr.
    destruct (IH pre' us'' Hl Hk) as (err & ->). by exists err. }
  rewrite <- app_comm_cons. cbn [scan] in Hscan |- *.
  destruct (c =? backslash).
  2: { eapply Hstep; [|exact Hscan]. lia. }
  destruct pre as [|e pre]; [done|]. rewrite <- app_comm_cons.
  simpl in Hlen.
  destruct (single_escape e) as [v|]. { eapply Hstep; [|exact Hscan]. lia. }
  destruct (is_octal e).
  { destruct pre as [|d2 pre].
    - pose proof (octal_then_inr _ _ _ Hscan) as Hoct.
      rewrite Hoct in Hscan. rewrite app_nil_l.
      destruct rest as [|r rest]; [|simpl in Hrest; rewrite Hrest];
        rewrite Hoct; apply (Hstep [octal_value [e]] _ [] us);
        (simpl; lia) || done.
    - rewrite <- app_comm_cons. simpl in Hlen.
      destruct (is_octal d2).
      + destruct pre as [|d3 pre].
        * pose proof (octal_then_inr _ _ _ Hscan) as Hoct.
          rewrite Hoct in Hscan. rewrite app_nil_l.
          destruct rest as [|r rest]; [|simpl in Hrest; rewrite Hrest];
            rewrite Hoct; apply (Hstep [octal_value [e; d2]] _ [] us);
            (simpl; lia) || done.
        * rewrite <- app_comm_cons. simpl in Hlen.
          destruct (is_octal d3);
            pose proof (octal_then_inr _ _ _ Hscan) as Hoct;
            rewrite Hoct in Hscan |- *.
          -- eapply Hstep; [|exact Hscan]. lia.
          -- eapply (Hstep _ _ (d3 :: pre)); [|exact Hscan]. simpl; lia.
      + pose proof (octal_then_inr _ _ _ Hscan) as Hoct.
        rewrite Hoct in Hscan |- *.
        eapply (Hstep _ _ (d2 :: pre)); [|exact Hscan]. simpl; lia. }
  destruct (e =? 120).
  { destruct pre as [|h1 [|h2 pre]]; [done..|]. simpl in Hlen.
    rewrite <- !app_comm_cons.
    destruct (hex_then_inr _ _ _ _ Hscan) as (v & _ & Hhex).
    rewrite Hhex in Hscan |- *. eapply Hstep; [|exact Hscan]. lia. }
  destruct (e =? 117); [by eexists|].
  destruct (e =? 85); [by eexists|done].
Qed.

(** A unicode escape: [\u] and four hex digits, or [\U] and eight, with
    the number the digits write. *)
Inductive unicode_escape : list Z → Z → Prop :=
| unicode_escape_4 (h1 h2 h3 h4 v : Z) :
    hex_value [h1; h2; h3; h4] = Some v →
    unicode_escape [backslash; 117; h1; h2; h3; h4] v
| unicode_escape_8 (h1 h2 h3 h4 h5 h6 h7 h8 v : Z) :
    hex_value [h1; h2; h3; h4; h5; h6; h7; h8] = Some v →
    unicode_escape [backslash; 85; h1; h2; h3; h4; h5; h6; h7; h8] v.

Lemma scan_unicode_text (esc post : list Z) (v : Z) :
  unicode_escape esc v →
  scan false (esc ++ post) = unit_then v (scan false post).
Proof.
  intros [h1 h2 h3 h4 v' Hv|h1 h2 h3 h4 h5 h6 h7 h8 v' Hv].
  - change (scan false ([backslash; 117; h1; h2; h3; h4] ++ post))
      with (hex_then 117 [h1; h2; h3; h4] (scan false post)).
    unfold hex_then. by rewrite Hv.
  - change (scan false ([backslash; 85; h1; h2; h3; h4; h5; h6; h7; h8] ++ post))
      with (hex_then 85 [h1; h2; h3; h4; h5; h6; h7; h8] (scan false post)).
    unfold hex_then. by rewrite Hv.
Qed.

Lemma scan_unicode_bytes (esc post : list Z) (v : Z) :
  unicode_escape esc v → ∃ err, scan true (esc ++ post) = inl err.
Proof. intros [h1 h2 h3 h4 v' Hv|h1 h2 h3 h4 h5 h6 h7 h8 v' Hv]; by eexists. Qed.

Lemma unicode_escape_head (esc post : list Z) (v : Z) :
  unicode_escape esc v → head_not_octal (esc ++ post).
Proof. by intros [|]. Qed.

(** Claim C6.  Take a token whose escape-body is [pre ++ esc ++ post],
    where [esc] is a unicode escape and [pre] scans without error in text
    mode (so that [esc] starts at an element boundary).  In byte mode
    [decode] returns a [DecodeError].  In text mode the escape contributes
    exactly the code point its digits write, between the units of [pre]
    and those of [post]; in particular [decode] of the token with the
    body [\ u00ff] fails in byte mode. *)
Theorem unicode_escape_by_mode (token pre esc post us : list Z) (v : Z) :
  unicode_escape esc v →
  strip_delimiters token = Some (pre ++ esc ++ post) →
  scan false pre = inr us →
  (∃ err, decode token true = inl err)
  ∧ decode token false
    = match scan false post with
      | inl err => inl err
      | inr vs => inr (Text (us ++ v :: vs))
      end
  ∧ ∃ err, decode (quoted (runes "\u00ff")) true = inl err.
Proof.
  intros Hesc Hstrip Hpre. unfold decode at 1 2. rewrite Hstrip.
  split; [|split].
  - destruct (scan_bytes_fails pre us (esc ++ post) Hpre) as (err & ->).
    + by eapply unicode_escape_head.
    + by eapply scan_unicode_bytes.
    + by exists err.
  - rewrite (scan_app false pre us (esc ++ post) Hpre)
      by (by eapply unicode_escape_head).
    rewrite (scan_unicode_text esc post v Hesc).
    unfold unit_then. rewrite units_then_units_then.
    destruct (scan false post) as [err|vs]; simpl; [done|].
    by rewrite <- app_assoc.
  - by eexists.
Qed.

Lemma unicode_escape_by_mode_witness :
  unicode_escape (runes "\u263A") 0x263A
  ∧ strip_delimiters (quoted (runes "a\n" ++ runes "\u263A" ++ runes "!"))
    = Some (runes "a\n" ++ runes "\u263A" ++ runes "!")
  ∧ scan false (runes "a\n") = inr [97; 10]
  ∧ (∃ err, decode (quoted (runes "a\n" ++ runes "\u263A" ++ runes "!"))
              true = inl err)
  ∧ decode (quoted (runes "a\n" ++ runes "\u263A" ++ runes "!")) false
    = inr (Text [97; 10; 0x263A; 33]).
Proof.
  assert (Hesc : unicode_escape (runes "\u263A") 0x263A)
    by (by apply unicode_escape_4).
  assert (Hstrip :
    strip_delimiters (quoted (runes "a\n" ++ runes "\u263A" ++ runes "!"))
    = Some (runes "a\n" ++ runes "\u263A" ++ runes "!")) by (by vm_compute).
  assert (Hpre : scan false (runes "a\n") = inr [97; 10]) by (by vm_compute).
  destruct (unicode_escape_by_mode _ _ _ _ _ _ Hesc Hstrip Hpre)
    as (Hbytes & Htext & _).
  split; [exact Hesc|]. split; [exact Hstrip|]. split; [exact Hpre|].
  split; [exact Hbytes|]. rewrite Htext. by vm_compute.
Defined.

End ScanLemmas.

(** *** Octal and hex escapes *)

Section NumericEscapes.
Import Unescape.

Inductive numeric_escape : Type :=
| OctalEscape (ds : list Z)
| HexEscape (h1 h2 : Z).

(** The characters of the escape: [\ddd] or [\xHH]. *)
Definition escape_text (e : numeric_escape) : list Z :=
  match e with
  | OctalEscape ds => backslash :: ds
  | HexEscape h1 h2 => [backslash; 120; h1; h2]
  end.

(** The number the digits of the escape write. *)
Definition escape_value (e : numeric_escape) : Z :=
  match e with
  | OctalEscape ds => octal_value ds
  | HexEscape h1 h2 => default 0 (hex_value [h1; h2])
  end.

(** One to three octal digits with a value of at most 255, or two hex
    digits. *)
Definition well_formed (e : numeric_escape) : Prop :=
  match e with
  | OctalEscape ds =>
    (1 ≤ length ds ≤ 3)%nat ∧ Forall (λ d, is_octal d = true) ds
    ∧ octal_value ds ≤ 255
  | HexEscape h1 h2 => is_Some (hex_digit h1) ∧ is_Some (hex_digit h2)
  end.

Lemma is_octal_range (d : Z) : is_octal d = true ↔ 48 ≤ d ≤ 55.
Proof. unfold is_octal, Go.in_range. rewrite andb_true_iff. lia. Qed.

Lemma octal_not_single (d : Z) : is_octal d = true → single_escape d = None.
Proof.
  intros Hd%is_octal_range. unfold single_escape.
  repeat match goal with
         | |- context [?a =? ?b] => destruct (Z.eqb_spec a b); [lia|]
         end.
  done.
Qed.

Lemma hex_digit_range (h v : Z) : hex_digit h = Some v → 0 ≤ v ≤ 15.
Proof.
  unfold hex_digit, Go.in_range.
  repeat case_match; intros; simplify_eq; lia.
Qed.

Lemma escape_value_range (e : numeric_escape) :
  well_formed e → 0 ≤ escape_value e ≤ 255.
Proof.
  destruct e as [ds|h1 h2]; simpl.
  - intros (Hlen & Hds & Hmax). split; [|done].
    unfold octal_value, number.
    destruct ds as [|d1 [|d2 [|d3 [|]]]]; simpl in *; try lia;
      repeat match goal with
             | H : Forall _ (_ :: _) |- _ =>
               apply Forall_cons in H as [?%is_octal_range H]
             end; lia.
  - intros [[v1 H1] [v2 H2]]. unfold hex_value. simpl.
    rewrite H1, H2. simpl. unfold number. simpl.
    apply hex_digit_range in H1, H2. lia.
Qed.

Lemma scan_numeric_escape (byteMode : bool) (e : numeric_escape)
    (rest : list Z) :
  well_formed e →
  head_not_octal rest →
  scan byteMode (escape_text e ++ rest)
  = unit_then (escape_value e) (scan byteMode rest).
Proof.
  destruct e as [ds|h1 h2]; simpl.
  - intros (Hlen & Hds & Hmax) Hrest.
    assert (Hoct : ∀ k, octal_then ds k = unit_then (octal_value ds) k).
    { intros k. unfold octal_then.
      by destruct (Z.leb_spec (octal_value ds) 255); [|lia]. }
    destruct ds as [|d1 [|d2 [|d3 [|]]]]; simpl in Hlen; try lia;
      repeat match goal with
             | H : Forall _ (_ :: _) |- _ => apply Forall_cons in H as [? H]
             end;
      simpl; rewrite (octal_not_single d1) by done;
      repeat match goal with
             | H : is_octal _ = true |- _ => rewrite H; clear H
             end.
    + destruct rest as [|r rest]; [apply Hoct|].
      simpl in Hrest. rewrite Hrest. apply Hoct.
    + destruct rest as [|r rest]; [apply Hoct|].
      simpl in Hrest. rewrite Hrest. apply Hoct.
    + apply Hoct.
  - intros [[v1 H1] [v2 H2]] _. unfold hex_then, hex_value. simpl.
    by rewrite H1, H2.
Qed.

Lemma numeric_escapes_head (es : list numeric_escape) (rest : list Z) :
  head_not_octal rest → head_not_octal (concat (escape_text <$> es) ++ rest).
Proof. intros Hrest. destruct es as [|[ds|h1 h2] es]; done. Qed.

Lemma scan_numeric_escapes (byteMode : bool) (es : list numeric_escape)
    (rest : list Z) :
  Forall well_formed es →
  head_not_octal rest →
  scan byteMode (concat (escape_text <$> es) ++ rest)
  = units_then (escape_value <$> es) (scan byteMode rest).
Proof.
  intros Hes Hrest. induction Hes as [|e es He _ IH].
  - by rewrite units_then_nil.
  - rewrite !fmap_cons. cbn [concat]. rewrite <- app_assoc.
    rewrite scan_numeric_escape, IH by (done || by apply numeric_escapes_head).
    unfold unit_then. by rewrite units_then_units_then.
Qed.

(** Claim C5.  In text mode, wherever a run of octal escapes of one to
    three digits and of hex escapes stands in the escape-body of a token
    (after a part [pre] that scans without error, and before a rest that
    does not go on with an octal digit), it decodes to exactly one code
    point per escape, in order, each equal to the number the escape
    writes, which lies in 0-255; adjacent escapes are never combined.  In
    particular the token with the body [\303\277] yields the two code
    points U+00C3 and U+00BF, not the single U+00FF. *)
Theorem numeric_escapes_decode_independently (token pre post us : list Z)
    (es : list numeric_escape) :
  Forall well_formed es →
  strip_delimiters token = Some (pre ++ concat (escape_text <$> es) ++ post) →
  scan false pre = inr us →
  head_not_octal post →
  decode token false
  = match scan false post with
    | inl err => inl err
    | inr vs => inr (Text (us ++ (escape_value <$> es) ++ vs))
    end
  ∧ length (escape_value <$> es) = length es
  ∧ Forall (λ v, 0 ≤ v ≤ 255) (escape_value <$> es)
  ∧ decode (quoted (runes "\303\277")) false = inr (Text [0xC3; 0xBF])
  ∧ decode (quoted (runes "\303\277")) false ≠ inr (Text [0xFF]).
Proof.
  intros Hes Hstrip Hpre Hpost. split_and!.
  - unfold decode. rewrite Hstrip.
    rewrite (scan_app false pre us _ Hpre)
      by (by apply numeric_escapes_head).
    rewrite scan_numeric_escapes by done.
    rewrite units_then_units_then.
    destruct (scan false post) as [err|vs]; simpl; [done|].
    by rewrite <- app_assoc.
  - by rewrite length_fmap.
  - apply Forall_fmap. eapply Forall_impl; [exact Hes|].
    intros e He. by apply escape_value_range.
  - by vm_compute.
  - by vm_compute.
Qed.

Definition three_escapes : list numeric_escape :=
  [OctalEscape (runes "303"); HexEscape 98 102; OctalEscape (runes "7")].

(** The token ['a\303\xbf\7!'] *)
Lemma numeric_escapes_decode_independently_witness :
  Forall well_formed three_escapes
  ∧ strip_delimiters (runes "'a\303\xbf\7!'")
    = Some (runes "a" ++ concat (escape_text <$> three_escapes) ++ runes "!")
  ∧ scan false (runes "a") = inr [97]
  ∧ head_not_octal (runes "!")
  ∧ decode (runes "'a\303\xbf\7!'") false
    = inr (Text [97; 0xC3; 0xBF; 7; 33]).
Proof.
  assert (Hwf : Forall well_formed three_escapes).
  { repeat constructor; simpl; try lia; try (by vm_compute); by eexists. }
  assert (Hstrip : strip_delimiters (runes "'a\303\xbf\7!'")
    = Some (runes "a" ++ concat (escape_text <$> three_escapes) ++ runes "!"))
    by (by vm_compute).
  assert (Hpre : scan false (runes "a") = inr [97]) by (by vm_compute).
  assert (Hpost : head_not_octal (runes "!")) by (by vm_compute).
  split; [exact Hwf|]. split; [exact Hstrip|]. split; [exact Hpre|].
  split; [exact Hpost|].
  rewrite (proj1 (numeric_escapes_decode_independently _ _ _ _ _
                    Hwf Hstrip Hpre Hpost)).
  by vm_compute.
Defined.

End NumericEscapes.

(** ** Well-formed trees never panic *)

Section WellFormedTrees.
Context {ops : Operators} {sc : Strconv}.

(** The number of arguments the visitor of a call reads by index. *)
Definition arity (fn : string) : nat :=
  if bool_decide (fn = Conditional) then 3
  else if bool_decide (fn = Index) then 2
  else if bool_decide (fn ∈ [LogicalNot; Negate]) then 1
  else if bool_decide (fn ∈ binary_operators) then 2
  else 0.

(** A tree is well formed when every pointer the visitor follows is set
    and every operator call carries the arguments the visitor reads. *)
#[local] Unset Elimination Schemes.

Inductive WellFormed : Expr → Prop :=
| wf_not_set id : WellFormed (Expr_NotSet id)
| wf_const id c : WellFormed (Expr_ConstExpr id c)
| wf_ident id name : WellFormed (Expr_IdentExpr id name)
| wf_select id operand field test_only :
    WellFormed operand →
    WellFormed (Expr_SelectExpr id (Some operand) field test_only)
| wf_call id fn args :
    Forall WellFormed args → (arity fn ≤ length args)%nat →
    WellFormed (Expr_CallExpr id None fn args)
| wf_call_target id target fn args :
    WellFormed target →
    Forall WellFormed args → (arity fn ≤ length args)%nat →
    WellFormed (Expr_CallExpr id (Some target) fn args)
| wf_list id elems :
    Forall WellFormed elems → WellFormed (Expr_ListExpr id elems)
| wf_struct id message_name entries :
    Forall (WellFormedEntry message_name) entries →
    WellFormed (Expr_StructExpr id message_name entries)
| wf_comprehension id iv ir av ai lc ls r :
    WellFormed (Expr_ComprehensionExpr id iv ir av ai lc ls r)
with WellFormedEntry : string → Entry → Prop :=
| wf_entry_field id message_name field_key value :
    message_name ≠ "" → WellFormed value →
    WellFormedEntry message_name (Entry_FieldKey id field_key (Some value))
| wf_entry_not_set id message_name value :
    message_name ≠ "" → WellFormed value →
    WellFormedEntry message_name (Entry_NotSet id (Some value))
| wf_entry_map id message_name map_key value :
    WellFormed map_key → WellFormed value →
    WellFormedEntry message_name (Entry_MapKey id map_key (Some value)).

#[local] Set Elimination Schemes.

(** [m] never panics. *)
Definition no_panic {A : Type} (m : M A) : Prop :=
  ∀ un p, (m un).1 ≠ Panic p.

Lemma no_panic_pure {A : Type} (r : outcome A) :
  (∀ p, r ≠ Panic p) → no_panic (λ un, (r, un)).
Proof. intros Hr un p. apply Hr. Qed.

Lemma no_panic_WriteString (s : string) : no_panic (WriteString s).
Proof. done. Qed.

Lemma no_panic_bind {A B : Type} (m : M A) (f : A → M B) :
  no_panic m → (∀ a, no_panic (f a)) → no_panic (m ≫= f).
Proof.
  intros Hm Hf un p. rewrite fst_bind. specialize (Hm un).
  destruct (m un) as [[a|e|q] un1]; simpl in *; [apply Hf|done|].
  by destruct (Hm q).
Qed.

Lemma no_panic_pad (id : Z) : no_panic (pad id).
Proof. intros un p. by rewrite run_pad. Qed.

Lemma no_panic_if {A : Type} (b : bool) (m1 m2 : M A) :
  no_panic m1 → no_panic m2 → no_panic (if b then m1 else m2).
Proof. by destruct b. Qed.

Lemma no_panic_for_range {A : Type} (body : Z → A → M unit) (xs : list A) :
  Forall (λ x, ∀ i, no_panic (body i x)) xs →
  ∀ i, no_panic (for_range body i xs).
Proof.
  induction 1 as [|x xs Hx _ IH]; intros i; simpl.
  - by apply no_panic_pure.
  - apply no_panic_bind; auto.
Qed.

Lemma no_panic_visitMaybeNested (e : Expr) (b : bool) :
  no_panic (visit e) → no_panic (visitMaybeNested visit e b).
Proof.
  intros He. unfold visitMaybeNested.
  repeat first [ apply no_panic_bind; [|intros ?] | apply no_panic_if
               | apply no_panic_WriteString | by apply no_panic_pure | done ].
Qed.

Ltac no_panic_step :=
  lazymatch goal with
  | |- no_panic (mret _) => by apply no_panic_pure
  | |- no_panic (ret _) => by apply no_panic_pure
  | |- no_panic (fail _) => by apply no_panic_pure
  | |- no_panic (WriteString _) => apply no_panic_WriteString
  | |- no_panic (pad _) => apply no_panic_pad
  | |- no_panic (_ ≫= _) => apply no_panic_bind; [|intros ?]
  | |- no_panic (visitMaybeNested _ _ _) => apply no_panic_visitMaybeNested
  | |- no_panic (for_range _ _ _) =>
    apply no_panic_for_range;
    (eapply Forall_impl; [eassumption|]); intros ? ? ?; cbn beta in *
  | |- no_panic (if _ then _ else _) => apply no_panic_if
  | |- no_panic (match ?x with _ => _ end) => destruct x; simpl in *
  | |- _ => first [ assumption | tauto ]
  end.

Lemma no_panic_visitCall (id : Z) (target : option Expr) (fn : string)
    (args : list Expr) :
  opt_all (λ e, no_panic (visit e)) target →
  Forall (λ e, no_panic (visit e)) args →
  (arity fn ≤ length args)%nat →
  no_panic (visitCall visit id target fn args).
Proof.
  intros Ht Hargs Harity. unfold visitCall, arity in *.
  destruct (bool_decide (fn = Conditional)).
  { unfold visitCallConditional.
    destruct Hargs as [|a0 ? Ha0 [|a1 ? Ha1 [|a2 ? Ha2 _]]];
      simpl in Harity; try lia; repeat no_panic_step. }
  destruct (bool_decide (fn = Index)).
  { unfold visitCallIndex.
    destruct Hargs as [|a0 ? Ha0 [|a1 ? Ha1 _]];
      simpl in Harity; try lia; repeat no_panic_step. }
  destruct (bool_decide (fn ∈ [LogicalNot; Negate])).
  { unfold visitCallUnary.
    destruct Hargs as [|a0 ? Ha0 _];
      simpl in Harity; try lia; repeat no_panic_step. }
  destruct (bool_decide (fn ∈ binary_operators)) eqn:Hbin.
  { unfold binary_operators in Hbin. rewrite Hbin. unfold visitCallBinary.
    destruct Hargs as [|a0 ? Ha0 [|a1 ? Ha1 _]];
      simpl in Harity; try lia; repeat no_panic_step. }
  unfold binary_operators in Hbin. rewrite Hbin.
  unfold visitCallFunc. repeat no_panic_step.
Qed.

Lemma no_panic_visit (e : Expr) : WellFormed e → no_panic (visit e).
Proof.
  induction e as [id|id c|id name|id operand field test_only IHo
                 |id target fn args IHt IHargs|id elems IH
                 |id message_name ens IH|id iv ir av ai lc ls r]
    using Expr_nested_ind;
    intros Hwf; rewrite visit_unfold;
    (apply no_panic_bind; [done|intros _]); cbn [visit_dispatch].
  - by apply no_panic_pure.
  - unfold visitConst. repeat no_panic_step.
  - unfold visitIdent. repeat no_panic_step.
  - inversion Hwf; subst. simpl in IHo.
    unfold visitSelect, visit_ptr. repeat no_panic_step.
  - assert (Hargs : Forall (λ e, no_panic (visit e)) args
                    ∧ (arity fn ≤ length args)%nat
                    ∧ opt_all (λ e, no_panic (visit e)) target).
    { inversion Hwf as [| | | |? ? ? Hall Har|? ? ? ? Htg Hall Har| | |];
        subst; (split; [|split; [done|simpl; auto]]);
        rewrite Forall_forall in *; auto. }
    destruct Hargs as (Hargs & Har & Htarget).
    by apply no_panic_visitCall.
  - inversion Hwf as [| | | | | |? ? Hall| |]; subst.
    assert (Hel : Forall (λ e, no_panic (visit e)) elems)
      by (rewrite Forall_forall in *; auto).
    unfold visitList. repeat no_panic_step.
  - inversion Hwf as [| | | | | | |? ? ? Hall|]; subst.
    unfold visitStruct. case_bool_decide as Hname.
    + assert (Hen : Forall (λ en, no_panic (visit_value visit en)) ens).
      { rewrite Forall_forall in *. intros en Hin.
        specialize (IH en Hin). specialize (Hall en Hin).
        inversion Hall; subst; simpl in *; tauto. }
      unfold visitStructMsg. repeat no_panic_step.
    + assert (Hen : Forall (λ en, no_panic (visit_map_key visit en)
                                  ∧ no_panic (visit_value visit en)) ens).
      { rewrite Forall_forall in *. intros en Hin.
        specialize (IH en Hin). specialize (Hall en Hin).
        inversion Hall; subst; simpl in *; tauto. }
      unfold visitStructMap. repeat no_panic_step.
  - by apply no_panic_pure.
Qed.

(** With offsets of at least 1 the line-break pass reads only inside the
    text. *)
Lemma break_loop_no_panic (fuel : nat) (sz br : Z) (txt : list Go.rune) :
  sz ≤ Z.of_nat (length txt) → sz < 2 ^ 31 → 0 ≤ Go.int32 (br - 1) →
  ∃ txt', break_loop fuel sz br txt = inr txt' ∧ length txt' = length txt.
Proof.
  intros Hsz Hmax. revert br.
  induction fuel as [|fuel IH]; intros br Hbr; [by exists txt|].
  cbn [break_loop].
  destruct (Z.ltb_spec (Go.int32 (br - 1)) sz) as [Hlt|]; [|by exists txt].
  destruct (Z.ltb_spec (Go.int32 (br - 1)) 0); [lia|].
  destruct (lookup_lt_is_Some_2 txt (Z.to_nat (Go.int32 (br - 1))))
    as [c Hc]; [lia|]. rewrite Hc.
  destruct (c =? 32).
  - eexists. split; [done|]. apply length_insert.
  - apply IH.
    replace (Go.int32 (br + 1) - 1) with (Go.int32 (br + 1) + -1) by lia.
    rewrite int32_add. replace (br + 1 + -1) with (br - 1 + 1) by lia.
    rewrite <- int32_add. rewrite int32_small; lia.
Qed.

Lemma apply_breaks_no_panic (sz : Z) (breaks : list Z) (txt : list Go.rune) :
  sz ≤ Z.of_nat (length txt) → sz < 2 ^ 31 →
  Forall in_int32_from_1 breaks →
  ∃ txt', apply_breaks sz breaks txt = inr txt'.
Proof.
  intros Hsz Hmax Hbreaks. revert txt Hsz.
  induction Hbreaks as [|br breaks Hbr _ IH]; intros txt Hsz;
    [by exists txt|].
  cbn [apply_breaks]. unfold in_int32_from_1 in Hbr.
  destruct (break_loop_no_panic (S (length txt)) sz br txt)
    as (txt' & -> & Hlen); [done..|rewrite int32_small; lia|].
  apply IH. by rewrite Hlen.
Qed.

(** On a well-formed tree, with no line offset below 1, [Unparse]
    returns. *)
Lemma well_formed_returns (e : Expr) (inf : SourceInfo) :
  WellFormed e →
  Forall in_int32_from_1 (line_offsets inf) →
  ∃ s err, Unparse e inf = Returned s err.
Proof.
  intros Hwf Hbreaks. unfold Unparse.
  pose proof (no_panic_visit e Hwf (new_unparser inf)) as Hvisit.
  destruct (visit e (new_unparser inf)) as [[[]|err|p] un]; simpl in Hvisit;
    [|by eauto|by destruct (Hvisit p)].
  destruct (_ <=? 1); [by eauto|].
  pose proof (int32_range
    (Z.of_nat (length (Go.runes_of_string (str un))))) as Hrange.
  pose proof (int32_le
    (Z.of_nat (length (Go.runes_of_string (str un))))) as Hle.
  destruct (apply_breaks_no_panic
              (Go.int32 (Z.of_nat (length (Go.runes_of_string (str un)))))
              (line_offsets inf) (Go.runes_of_string (str un)))
    as (txt' & ->); [lia..|done|by eauto].
Qed.

End WellFormedTrees.

(** ** No partial results *)

Section Atomicity.
Context {ops : Operators} {sc : Strconv}.
Import Unescape.

(** Claim C9, as amended.  Whenever [Unparse] returns, it returns either
    the text of a visit that succeeded all the way, together with a nil
    error, or the empty string together with the error the visit ended
    in; the third outcome, a panic, returns nothing at all, and it does
    not occur on a well-formed tree with line offsets of at least 1.
    [decode] returns either an error, or the value built from the units
    of the whole escape-body. *)
Theorem results_are_atomic (e : Expr) (inf : SourceInfo) (token : list Z)
    (byteMode : bool) :
  match Unparse e inf with
  | Returned s None =>
    ∃ un, visit e (new_unparser inf) = (Ok (), un)
          ∧ (s = str un
             ∨ ∃ txt, s = Go.string_of_runes txt
                      ∧ length txt = length (Go.runes_of_string (str un)))
  | Returned s (Some err) =>
    s = "" ∧ (visit e (new_unparser inf)).1 = Err err
  | Panicked p =>
    ¬ (WellFormed e ∧ Forall in_int32_from_1 (line_offsets inf))
  end
  ∧ match decode token byteMode with
    | inr v =>
      ∃ body units, strip_delimiters token = Some body
                    ∧ scan byteMode body = inr units
                    ∧ v = pack byteMode units
    | inl err => True
    end.
Proof.
  split.
  - assert (Hpanic : ∀ p, Unparse e inf = Panicked p →
      ¬ (WellFormed e ∧ Forall in_int32_from_1 (line_offsets inf))).
    { intros p Hp [Hwf Hbreaks].
      destruct (well_formed_returns e inf Hwf Hbreaks) as (s & err & Hret).
      congruence. }
    revert Hpanic. unfold Unparse.
    destruct (visit e (new_unparser inf)) as [[[]|err|p] un];
      [|done|intros Hpanic; by apply (Hpanic p)].
    destruct (Z.of_nat (length (line_offsets inf)) <=? 1).
    { intros _. exists un. split; [done|by left]. }
    set (txt := Go.runes_of_string (str un)).
    set (sz := Go.int32 (Z.of_nat (length txt))).
    assert (Hlen : ∀ breaks t,
      match apply_breaks sz breaks t with
      | inr t' => length t' = length t
      | inl _ => True
      end).
    { induction breaks as [|br breaks IH]; intros t; [done|].
      cbn [apply_breaks].
      assert (Hloop : ∀ fuel b,
        match break_loop fuel sz b t with
        | inr t' => length t' = length t
        | inl _ => True
        end).
      { induction fuel as [|fuel IHf]; intros b; [done|]. cbn [break_loop].
        destruct (_ <? sz); [|done]. destruct (_ <? 0); [done|].
        destruct (t !! _) as [c|]; [|done].
        destruct (c =? 32); [apply length_insert|apply IHf]. }
      specialize (Hloop (S (length t)) br).
      destruct (break_loop (S (length t)) sz br t) as [p|t']; [done|].
      specialize (IH t'). destruct (apply_breaks sz breaks t'); [done|].
      congruence. }
    specialize (Hlen (line_offsets inf) txt).
    destruct (apply_breaks sz (line_offsets inf) txt) as [p|txt'].
    + intros Hpanic. by apply (Hpanic p).
    + intros _. exists un. split; [done|]. right. by exists txt'.
  - unfold decode. destruct (strip_delimiters token) as [body|]; [|done].
    destruct (scan byteMode body) as [err|units] eqn:Hscan; [done|].
    by exists body, units.
Qed.

End Atomicity.

Section AtomicityExamples.
Import SpecTable.

(** Claim C9 fails as stated: a subtraction without operands makes
    [Unparse] panic, so it neither succeeds nor returns an error. *)
Lemma unparse_neither_succeeds_nor_fails :
  Unparse (call 1 "_-_" []) no_info = Panicked (Go.IndexOutOfRange 0 0)
  ∧ ∀ s err, Unparse (call 1 "_-_" []) no_info ≠ Returned s err.
Proof.
  assert (H : Unparse (call 1 "_-_" []) no_info
              = Panicked (Go.IndexOutOfRange 0 0)) by (by vm_compute).
  split; [exact H|]. intros s err. by rewrite H.
Qed.

End AtomicityExamples.

(** ** Which nodes make the visit fail *)

(** The expressions a tree holds: the node itself and, recursively, every
    expression stored in its fields. *)
Fixpoint subexprs (e : Expr) : list Expr :=
  e ::
  match e with
  | Expr_SelectExpr _ operand _ _ =>
    match operand with Some o => subexprs o | None => [] end
  | Expr_CallExpr _ target _ args =>
    match target with Some t => subexprs t | None => [] end
    ++ flat_map subexprs args
  | Expr_ListExpr _ elems => flat_map subexprs elems
  | Expr_StructExpr _ _ entries =>
    flat_map (λ en,
      match en with
      | Entry_NotSet _ v | Entry_FieldKey _ _ v =>
        match v with Some x => subexprs x | None => [] end
      | Entry_MapKey _ k v =>
        subexprs k ++ match v with Some x => subexprs x | None => [] end
      end) entries
  | _ => []
  end.

Section NodeErrors.
Context {ops : Operators} {sc : Strconv}.

Definition unary_operators : list string := [LogicalNot; Negate].

(** The error a node gives rise to by itself, whatever its
    sub-expressions are: the three [fmt.Errorf] call sites. *)
Definition node_error (c : Expr) : option error :=
  match c with
  | Expr_NotSet _ => Some (UnsupportedExpr c)
  | Expr_ComprehensionExpr _ _ _ _ _ _ _ _ => Some (Unimplemented c)
  | Expr_ConstExpr _ Constant_NotSet => Some (Unimplemented c)
  | Expr_CallExpr _ _ fn _ =>
    if bool_decide (fn ∈ unary_operators ++ binary_operators) then
      match FindReverse fn with
      | None => Some (CannotUnmangle fn)
      | Some _ => None
      end
    else None
  | _ => None
  end.

(** [offending e err]: some node of the tree [e] gives rise to [err]. *)
Definition offending (e : Expr) (err : error) : Prop :=
  ∃ c, c ∈ subexprs e ∧ node_error c = Some err.

(** Every error [m] ends in satisfies [P]. *)
Definition errors_in {A : Type} (P : error → Prop) (m : M A) : Prop :=
  ∀ un err, (m un).1 = Err err → P err.

Lemma errors_in_pure {A : Type} (P : error → Prop) (r : outcome A) :
  (∀ err, r = Err err → P err) → errors_in P (λ un, (r, un)).
Proof. intros Hr un err. apply Hr. Qed.

Lemma errors_in_WriteString (P : error → Prop) (s : string) :
  errors_in P (WriteString s).
Proof. done. Qed.

Lemma errors_in_pad (P : error → Prop) (id : Z) : errors_in P (pad id).
Proof. intros un err. by rewrite run_pad. Qed.

Lemma errors_in_bind {A B : Type} (P : error → Prop) (m : M A) (f : A → M B) :
  errors_in P m → (∀ a, errors_in P (f a)) → errors_in P (m ≫= f).
Proof.
  intros Hm Hf un err. rewrite fst_bind. specialize (Hm un err).
  destruct (m un) as [[a|e|q] un1]; simpl in *; [apply Hf| |done].
  intros [= ->]. by apply Hm.
Qed.

Lemma errors_in_if {A : Type} (P : error → Prop) (b : bool) (m1 m2 : M A) :
  errors_in P m1 → errors_in P m2 → errors_in P (if b then m1 else m2).
Proof. by destruct b. Qed.

Lemma errors_in_for_range {A : Type} (P : error → Prop)
    (body : Z → A → M unit) (xs : list A) :
  Forall (λ x, ∀ i, errors_in P (body i x)) xs →
  ∀ i, errors_in P (for_range body i xs).
Proof.
  induction 1 as [|x xs Hx _ IH]; intros i; simpl.
  - by apply errors_in_pure.
  - apply errors_in_bind; auto.
Qed.

Lemma errors_in_visitMaybeNested (P : error → Prop) (e : Expr) (b : bool) :
  errors_in P (visit e) → errors_in P (visitMaybeNested visit e b).
Proof.
  intros He. unfold visitMaybeNested.
  repeat first [ apply errors_in_bind; [|intros ?] | apply errors_in_if
               | apply errors_in_WriteString | by apply errors_in_pure
               | done ].
Qed.

Lemma errors_in_weaken {A : Type} (P Q : error → Prop) (m : M A) :
  (∀ err, P err → Q err) → errors_in P m → errors_in Q m.
Proof. intros HPQ Hm un err Herr. by apply HPQ, (Hm un). Qed.

Ltac errors_in_step :=
  lazymatch goal with
  | |- errors_in _ (mret _) => by apply errors_in_pure
  | |- errors_in _ (ret _) => by apply errors_in_pure
  | |- errors_in _ (panic _) => by apply errors_in_pure
  | |- errors_in _ (WriteString _) => apply errors_in_WriteString
  | |- errors_in _ (pad _) => apply errors_in_pad
  | |- errors_in _ (_ ≫= _) => apply errors_in_bind; [|intros ?]
  | |- errors_in _ (visitMaybeNested _ _ _) => apply errors_in_visitMaybeNested
  | |- errors_in _ (for_range _ _ _) =>
    apply errors_in_for_range;
    (eapply Forall_impl; [eassumption|]); intros ? ? ?; cbn beta in *
  | |- errors_in _ (if _ then _ else _) => apply errors_in_if
  | |- errors_in _ (match ?x with _ => _ end) => destruct x eqn:?; simpl in *
  | |- _ => first [ assumption | tauto ]
  end.

Lemma offending_here (e : Expr) (err : error) :
  node_error e = Some err → offending e err.
Proof.
  intros He. exists e. split; [|done]. destruct e; apply list_elem_of_here.
Qed.

Lemma offending_sub (e a : Expr) (err : error) :
  subexprs a ⊆ subexprs e → offending a err → offending e err.
Proof. intros Hsub (c & Hc & Herr). exists c. split; [by apply Hsub|done]. Qed.

Lemma flat_map_subseteq {A B : Type} (f : A → list B) (x : A) (xs : list A) :
  x ∈ xs → f x ⊆ flat_map f xs.
Proof.
  intros Hx b Hb. apply list_elem_of_In, in_flat_map.
  exists x. by rewrite <- !list_elem_of_In.
Qed.

Lemma unary_not_special (fn : string) :
  fn ∈ unary_operators → fn ≠ Conditional ∧ fn ≠ Index.
Proof.
  intros Hfn. pose proof operators_distinct as Hd.
  apply NoDup_cons in Hd as [H1 Hd]. apply NoDup_cons in Hd as [H2 _].
  split.
  - intros ->. apply H1. apply list_elem_of_further.
    apply elem_of_cons in Hfn as [<-|Hfn]; [apply list_elem_of_here|].
    apply list_elem_of_singleton in Hfn as <-.
    apply list_elem_of_further, list_elem_of_here.
  - intros ->. apply H2.
    apply elem_of_cons in Hfn as [<-|Hfn]; [apply list_elem_of_here|].
    apply list_elem_of_singleton in Hfn as <-.
    apply list_elem_of_further, list_elem_of_here.
Qed.

(** The errors of the visit of a call node, from those of the visits of
    its target and arguments. *)
Lemma errors_in_visitCall (P : error → Prop) (id : Z) (target : option Expr)
    (fn : string) (args : list Expr) :
  opt_all (λ e, errors_in P (visit e)) target →
  Forall (λ e, errors_in P (visit e)) args →
  (fn ∈ unary_operators ++ binary_operators → FindReverse fn = None →
   P (CannotUnmangle fn)) →
  errors_in P (visitCall visit id target fn args).
Proof.
  intros Ht Hargs Hsym. unfold visitCall.
  destruct (bool_decide (fn = Conditional)).
  { unfold visitCallConditional.
    destruct Hargs as [|a0 ? Ha0 [|a1 ? Ha1 [|a2 ? Ha2 _]]];
      repeat errors_in_step. }
  destruct (bool_decide (fn = Index)).
  { unfold visitCallIndex.
    destruct Hargs as [|a0 ? Ha0 [|a1 ? Ha1 _]]; repeat errors_in_step. }
  case_bool_decide as Hun.
  { assert (HP : FindReverse fn = None → P (CannotUnmangle fn)).
    { apply Hsym, elem_of_app. by left. }
    unfold visitCallUnary. apply errors_in_bind; [apply errors_in_pad|intros _].
    destruct (FindReverse fn) as [sym|].
    - destruct Hargs as [|a0 ? Ha0 _]; repeat errors_in_step.
    - intros un err [= <-]. by apply HP. }
  case_bool_decide as Hbin.
  { assert (HP : FindReverse fn = None → P (CannotUnmangle fn)).
    { apply Hsym, elem_of_app. by right. }
    unfold visitCallBinary.
    destruct Hargs as [|a0 ? Ha0 [|a1 ? Ha1 _]]; try (by apply errors_in_pure).
    apply errors_in_bind; [by apply errors_in_visitMaybeNested|intros _].
    destruct (FindReverse fn) as [sym|].
    - repeat errors_in_step.
    - intros un err [= <-]. by apply HP. }
  unfold visitCallFunc. repeat errors_in_step.
Qed.

(** Whatever error the visit of a tree ends in, a node of the tree gives
    rise to it. *)
Lemma visit_errors_offending (e : Expr) : errors_in (offending e) (visit e).
Proof.
  induction e as [id|id c|id name|id operand field test_only IHo
                 |id target fn args IHt IHargs|id elems IH
                 |id message_name ens IH|id iv ir av ai lc ls r]
    using Expr_nested_ind;
    rewrite visit_unfold;
    (apply errors_in_bind; [done|intros _]); cbn [visit_dispatch].
  - intros un err [= <-]. by apply offending_here.
  - unfold visitConst. apply errors_in_bind; [apply errors_in_pad|intros _].
    destruct c; try (repeat errors_in_step).
    intros un err [= <-]. by apply offending_here.
  - unfold visitIdent. repeat errors_in_step.
  - unfold visitSelect, visit_ptr.
    destruct operand as [o|]; simpl in IHo; repeat errors_in_step.
    eapply errors_in_weaken; [|exact IHo].
    intros err. apply offending_sub. simpl. set_solver.
  - apply errors_in_visitCall.
    + destruct target as [t|]; simpl in *; [|done].
      eapply errors_in_weaken; [|exact IHt].
      intros err. apply offending_sub. simpl. set_solver.
    + rewrite Forall_forall in *. intros a Ha.
      eapply errors_in_weaken; [|by apply IHargs].
      intros err. apply offending_sub. simpl.
      pose proof (flat_map_subseteq subexprs a args Ha). set_solver.
    + intros Hfn Hnone. apply offending_here. simpl.
      by rewrite bool_decide_eq_true_2, Hnone.
  - assert (Hel : Forall (λ e, errors_in (offending (Expr_ListExpr id elems))
                                 (visit e)) elems).
    { rewrite Forall_forall in *. intros a Ha.
      eapply errors_in_weaken; [|by apply IH].
      intros err. apply offending_sub. simpl.
      pose proof (flat_map_subseteq subexprs a elems Ha). set_solver. }
    unfold visitList. repeat errors_in_step.
  - set (node := Expr_StructExpr id message_name ens).
    assert (Hen : Forall (λ en,
        errors_in (offending node) (visit_map_key visit en)
        ∧ errors_in (offending node) (visit_value visit en)) ens).
    { rewrite Forall_forall in *. intros en Hen. specialize (IH en Hen).
      pose proof (flat_map_subseteq (λ en,
        match en with
        | Entry_NotSet _ v | Entry_FieldKey _ _ v =>
          match v with Some x => subexprs x | None => [] end
        | Entry_MapKey _ k v =>
          subexprs k ++ match v with Some x => subexprs x | None => [] end
        end) en ens Hen) as Hsub.
      assert (Hweak : ∀ a, subexprs a ⊆ subexprs node →
        errors_in (offending a) (visit a) →
        errors_in (offending node) (visit a)).
      { intros a Ha. apply errors_in_weaken. intros err.
        by apply offending_sub. }
      assert (Hnode : ∀ l, l ⊆ flat_map (λ en,
        match en with
        | Entry_NotSet _ v | Entry_FieldKey _ _ v =>
          match v with Some x => subexprs x | None => [] end
        | Entry_MapKey _ k v =>
          subexprs k ++ match v with Some x => subexprs x | None => [] end
        end) ens → l ⊆ subexprs node).
      { intros l Hl. subst node. simpl. set_solver. }
      destruct en as [? [v|]|? ? [v|]|? k [v|]]; simpl in IH, Hsub |- *;
        split; try (by apply errors_in_pure).
      - apply Hweak; [by apply Hnode|done].
      - apply Hweak; [by apply Hnode|done].
      - apply Hweak; [|tauto]. apply Hnode. intros x Hx. apply Hsub.
        apply elem_of_app. by left.
      - apply Hweak; [|tauto]. apply Hnode. intros x Hx. apply Hsub.
        apply elem_of_app. by right.
      - apply Hweak; [|tauto]. apply Hnode. intros x Hx. apply Hsub.
        apply elem_of_app. by left. }
    unfold visitStruct. apply errors_in_if.
    + unfold visitStructMsg. repeat errors_in_step.
    + unfold visitStructMap. repeat errors_in_step.
  - intros un err [= <-]. by apply offending_here.
Qed.

End NodeErrors.

Section Outcomes.
Context {ops : Operators} {sc : Strconv}.

Lemma Unparse_error (e : Expr) (inf : SourceInfo) (s : string) (err : error) :
  Unparse e inf = Returned s (Some err) →
  s = "" ∧ (visit e (new_unparser inf)).1 = Err err.
Proof.
  unfold Unparse.
  destruct (visit e (new_unparser inf)) as [[[]|err'|p] un]; simpl.
  - destruct (_ <=? 1); [done|]. by destruct (apply_breaks _ _ _).
  - by intros [= <- <-].
  - done.
Qed.

(** Whenever [Unparse] returns an error, the returned text is empty and
    some node of the tree gives rise to that error: a node without a kind,
    a comprehension, a constant without a kind, or a call of a unary or
    binary operator for which [operators.FindReverse] finds no symbol. *)
Theorem unparse_error_names_offending_node (e : Expr) (inf : SourceInfo)
    (s : string) (err : error) :
  Unparse e inf = Returned s (Some err) →
  s = "" ∧ ∃ c, c ∈ subexprs e ∧ node_error c = Some err.
Proof.
  intros [-> Hvisit]%Unparse_error. split; [done|].
  by apply (visit_errors_offending e (new_unparser inf)).
Qed.

(** On a well-formed tree none of whose nodes gives rise to an error, and
    with line offsets of at least 1, [Unparse] returns a text and a nil
    error. *)
Theorem unparse_supported_succeeds (e : Expr) (inf : SourceInfo) :
  WellFormed e →
  Forall (λ c, node_error c = None) (subexprs e) →
  Forall in_int32_from_1 (line_offsets inf) →
  ∃ s, Unparse e inf = Returned s None.
Proof.
  intros Hwf Hsup Hbreaks.
  destruct (well_formed_returns e inf Hwf Hbreaks) as (s & [err|] & Hret);
    [|by exists s].
  apply Unparse_error in Hret as [_ Hvisit].
  apply (visit_errors_offending e (new_unparser inf)) in Hvisit
    as (c & Hc & Herr).
  rewrite Forall_forall in Hsup. rewrite (Hsup c Hc) in Herr. done.
Qed.

(** Whatever the visit of a tree ends in, it has only appended to the
    buffer: the text the buffer held is a prefix of the text it holds
    afterwards, and neither the source information nor the field [offset]
    has changed. *)
Theorem visit_only_appends (e : Expr) (un : unparser) :
  ∃ t, str (visit e un).2 = str un +:+ t
       ∧ info (visit e un).2 = info un
       ∧ offset (visit e un).2 = offset un.
Proof.
  destruct (appends_visit e un) as [(t & new & Hst & _) _].
  exists t. by rewrite Hst.
Qed.

End Outcomes.

Section OutcomeExamples.
Import SpecTable.

Definition f_of_unset : Expr := call 2 "f" [ident 1 "x"; Expr_NotSet 3].

Lemma unparse_error_names_offending_node_witness :
  Unparse f_of_unset no_info
  = Returned "" (Some (UnsupportedExpr (Expr_NotSet 3)))
  ∧ ∃ c, c ∈ subexprs f_of_unset
         ∧ node_error c = Some (UnsupportedExpr (Expr_NotSet 3)).
Proof.
  assert (H : Unparse f_of_unset no_info
              = Returned "" (Some (UnsupportedExpr (Expr_NotSet 3))))
    by (by vm_compute).
  split; [exact H|].
  exact (proj2 (unparse_error_names_offending_node _ _ _ _ H)).
Defined.

(** [x.f(a + 1, [b])] *)
Definition method_call : Expr :=
  Expr_CallExpr 2 (Some (ident 1 "x")) "f"
    [call 4 "_+_" [ident 3 "a"; Expr_ConstExpr 5 (Constant_Int64Value 1)];
     Expr_ListExpr 6 [ident 7 "b"]].

Lemma method_call_well_formed : WellFormed method_call.
Proof.
  apply wf_call_target; [apply wf_ident| |vm_compute; lia].
  constructor; [|constructor; [|constructor]].
  - apply wf_call; [|vm_compute; lia].
    constructor; [apply wf_ident|]. constructor; [apply wf_const|constructor].
  - apply wf_list. constructor; [apply wf_ident|constructor].
Qed.

Lemma unparse_supported_succeeds_witness :
  WellFormed method_call
  ∧ Forall (λ c, node_error c = None) (subexprs method_call)
  ∧ Forall in_int32_from_1 (line_offsets no_info)
  ∧ ∃ s, Unparse method_call no_info = Returned s None.
Proof.
  assert (Hsup : Forall (λ c, node_error c = None) (subexprs method_call)).
  { unfold method_call, call, ident. cbn [subexprs flat_map app].
    repeat (constructor; [by vm_compute|]). constructor. }
  assert (Hbr : Forall in_int32_from_1 (line_offsets no_info))
    by constructor.
  split; [exact method_call_well_formed|]. split; [exact Hsup|].
  split; [exact Hbr|].
  exact (unparse_supported_succeeds method_call no_info
           method_call_well_formed Hsup Hbr).
Defined.

Example unparse_method_call :
  Unparse method_call no_info = Returned "x.f(a + 1,[b])" None.
Proof. by vm_compute. Qed.

End OutcomeExamples.

(** ** Sequences of elements *)

(** One step of a successful run: the first computation of a sequence
    has succeeded. *)
Ltac run_step H u H1 :=
  apply run_bind_Ok in H as ([] & u & H1 & H).

(** [strings.Join(ts, sep)] *)
Fixpoint join (sep : string) (ts : list string) : string :=
  match ts with
  | [] => ""
  | t :: ts' =>
    match ts' with
    | [] => t
    | _ :: _ => t +:+ sep +:+ join sep ts'
    end
  end.

(** [in_sequence R sep prefix xs ts]: the texts [ts] are those of the
    elements [xs], each related by [R] to its element and to the text that
    precedes it: [prefix], the texts of the elements before it and a
    separator after each of them. *)
Fixpoint in_sequence {A : Type} (R : A → string → string → Prop)
    (sep prefix : string) (xs : list A) (ts : list string) : Prop :=
  match xs, ts with
  | [], [] => True
  | x :: xs', t :: ts' =>
    R x prefix t ∧ in_sequence R sep (prefix +:+ t +:+ sep) xs' ts'
  | _, _ => False
  end.

Lemma in_sequence_length {A : Type} (R : A → string → string → Prop)
    (sep prefix : string) (xs : list A) (ts : list string) :
  in_sequence R sep prefix xs ts → length ts = length xs.
Proof.
  revert prefix ts. induction xs as [|x xs IH]; intros prefix [|t ts];
    simpl; try done.
  intros [_ Hrest]. f_equal. by eapply IH.
Qed.

Lemma in_sequence_impl {A : Type} (R R' : A → string → string → Prop)
    (sep prefix : string) (xs : list A) (ts : list string) :
  (∀ x p t, R x p t → R' x p t) →
  in_sequence R sep prefix xs ts → in_sequence R' sep prefix xs ts.
Proof.
  intros HR. revert prefix ts.
  induction xs as [|x xs IH]; intros prefix [|t ts]; simpl; try done.
  intros [Hx Hrest]. split; [by apply HR|by apply IH].
Qed.

(** [runs inf m prefix t]: with source information [inf] and the buffer
    holding [prefix], the computation [m] succeeds and appends [t]. *)
Definition runs (inf : SourceInfo) (m : M unit) (prefix t : string) : Prop :=
  ∃ u u', info u = inf ∧ str u = prefix
          ∧ m u = (Ok (), u') ∧ str u' = prefix +:+ t.

(** The loops of the visitor over a repeated field: an item for each
    element, and a separator after each element but the last. *)
Lemma run_for_range_sep {A : Type} (body : Z → A → M unit) (item : A → M unit)
    (sep : string) (len : Z) (xs : list A) (i : Z) (un un' : unparser) :
  (∀ i x u, body i x u
            = (item x;; if i <? len - 1 then WriteString sep else ret ()) u) →
  (∀ x, appends (item x)) →
  i + Z.of_nat (length xs) = len →
  for_range body i xs un = (Ok (), un') →
  ∃ ts, str un' = str un +:+ join sep ts ∧ info un' = info un
        ∧ in_sequence (λ x, runs (info un) (item x)) sep (str un) xs ts.
Proof.
  intros Hbody Hitem. revert i un.
  induction xs as [|x xs IH]; intros i un Hlen Hrun.
  - simpl in Hrun. injection Hrun as <-. exists [].
    simpl. by rewrite string_app_nil_r.
  - cbn [for_range] in Hrun.
    apply run_bind_Ok in Hrun as ([] & u2 & Hx & Hrun).
    rewrite Hbody in Hx.
    apply run_bind_Ok in Hx as ([] & u1 & Hx & Hsep).
    destruct (run_appends _ _ _ _ (Hitem x) Hx) as (t & Ht & Hinfo).
    assert (Hruns : runs (info un) (item x) (str un) t)
      by (by exists un, u1).
    cbn [length] in Hlen.
    destruct (Z.ltb_spec i (len - 1)) as [Hlt|Hge].
    + rewrite run_WriteString in Hsep. injection Hsep as <-.
      apply IH in Hrun as (ts & Hstr & Hinfo' & Hseq); [|lia].
      cbn [str info set_str] in Hstr, Hinfo', Hseq.
      destruct xs as [|x' xs]; [simpl in Hlen; lia|].
      destruct ts as [|t' ts]; [done|].
      exists (t :: t' :: ts). split; [|split].
      * rewrite Hstr, Ht. cbn [join]. by rewrite !string_app_assoc.
      * by rewrite Hinfo', Hinfo.
      * split; [done|]. rewrite Hinfo, Ht in Hseq.
        by rewrite !string_app_assoc in Hseq.
    + injection Hsep as <-.
      destruct xs as [|x' xs]; [|simpl in Hlen; lia].
      simpl in Hrun. injection Hrun as <-.
      exists [t]. by split_and!.
Qed.

Section NodeShapes.
Context {ops : Operators} {sc : Strconv}.

(** A successful visit, with the text it appends. *)
Lemma run_visit (e : Expr) (un un' : unparser) :
  visit e un = (Ok (), un') →
  ∃ t, renders (info un) e (str un) t ∧ str un' = str un +:+ t
       ∧ info un' = info un.
Proof.
  intros Hrun.
  destruct (run_appends _ _ _ _ (appends_visit e) Hrun) as (t & Ht & Hinfo).
  exists t. split; [by exists un, un'|done].
Qed.

Lemma run_trace (e : Expr) (un : unparser) :
  trace e un = (Ok (), set_visited (visited un ++ [e]) un).
Proof. done. Qed.

(** The text a presence test opens with, and the text it closes with. *)
Definition has_open (test_only : bool) : string :=
  if test_only then "has(" else "".
Definition has_close (test_only : bool) : string :=
  if test_only then ")" else "".

(** The elements of a list literal, or the arguments of a call: each is
    visited, with a comma after each but the last. *)
Lemma run_elements (elems : list Expr) (un un' : unparser) :
  for_range (λ i elem,
    visit elem;;
    if i <? Z.of_nat (length elems) - 1 then WriteString "," else ret ())
    0 elems un = (Ok (), un') →
  ∃ ts, str un' = str un +:+ join "," ts ∧ info un' = info un
        ∧ in_sequence (renders (info un)) "," (str un) elems ts.
Proof.
  intros Hrun.
  apply (run_for_range_sep _ visit "," (Z.of_nat (length elems))) in Hrun
    as (ts & Hstr & Hinfo & Hseq); [|done|apply appends_visit|lia].
  by exists ts.
Qed.

(** A list literal is rendered as padding, an opening bracket, the
    elements in order with a single comma and no blank between two of
    them, and a closing bracket; an empty list is the two brackets. *)
Theorem list_elements_comma_separated (id : Z) (elems : list Expr)
    (un un' : unparser) :
  visit (Expr_ListExpr id elems) un = (Ok (), un') →
  ∃ n ts,
    str un' = str un +:+ spaces n +:+ "[" +:+ join "," ts +:+ "]"
    ∧ length ts = length elems
    ∧ in_sequence (renders (info un)) "," (str un +:+ spaces n +:+ "[")
        elems ts.
Proof.
  rewrite visit_unfold. cbn [visit_dispatch]. unfold visitList.
  intros Hrun.
  run_step Hrun u1 H1. rewrite run_trace in H1. injection H1 as <-.
  run_step Hrun u2 H2. rewrite run_pad in H2.
  remember (Z.to_nat _) as n eqn:Hn in H2. clear Hn. injection H2 as <-.
  run_step Hrun u3 H3. rewrite run_WriteString in H3. injection H3 as <-.
  run_step Hrun u4 H4. apply run_elements in H4 as (ts & Hstr & Hinfo & Hseq).
  rewrite run_WriteString in Hrun. injection Hrun as <-.
  cbn [str info set_str set_visited] in *.
  exists n, ts. split; [|split].
  - rewrite Hstr. by rewrite !string_app_assoc.
  - by eapply in_sequence_length.
  - by rewrite string_app_assoc in Hseq.
Qed.

(** The names [visitCall] treats as operators. *)
Definition operator_names : list string :=
  [Conditional; Index] ++ unary_operators ++ binary_operators.

Lemma visitCall_function (visit : Expr → M unit) (id : Z)
    (target : option Expr) (fn : string) (args : list Expr) :
  fn ∉ operator_names →
  visitCall visit id target fn args = visitCallFunc visit id target fn args.
Proof.
  intros Hfn. unfold operator_names in Hfn.
  rewrite !not_elem_of_app in Hfn. destruct Hfn as (H12 & H3 & H4).
  rewrite !not_elem_of_cons in H12. destruct H12 as (H1 & H2 & _).
  unfold visitCall. by rewrite !bool_decide_eq_false_2.
Qed.

(** A call of a function that is no operator is rendered as the target
    and a dot when there is a target, the function name, padding, and the
    arguments between parentheses, with a single comma and no blank
    between two of them.  The target is never parenthesized. *)
Theorem function_call_rendering (id : Z) (target : option Expr) (fn : string)
    (args : list Expr) (un un' : unparser) :
  fn ∉ operator_names →
  visit (Expr_CallExpr id target fn args) un = (Ok (), un') →
  ∃ tt n ts,
    str un' = str un +:+ tt +:+ fn +:+ spaces n +:+ "(" +:+ join "," ts
                +:+ ")"
    ∧ match target with
      | Some t => ∃ t0, tt = t0 +:+ "." ∧ renders (info un) t (str un) t0
      | None => tt = ""
      end
    ∧ length ts = length args
    ∧ in_sequence (renders (info un)) ","
        (str un +:+ tt +:+ fn +:+ spaces n +:+ "(") args ts.
Proof.
  intros Hfn. rewrite visit_unfold. cbn [visit_dispatch].
  rewrite visitCall_function by done. unfold visitCallFunc.
  intros Hrun.
  run_step Hrun u1 H1. rewrite run_trace in H1. injection H1 as <-.
  run_step Hrun u2 H2.
  assert (Htarget : ∃ tt, str u2 = str un +:+ tt ∧ info u2 = info un
    ∧ match target with
      | Some t => ∃ t0, tt = t0 +:+ "." ∧ renders (info un) t (str un) t0
      | None => tt = ""
      end).
  { destruct target as [t|].
    - run_step H2 u0 H0. apply run_visit in H0 as (t0 & Hr & Hs & Hi).
      rewrite run_WriteString in H2. injection H2 as <-.
      cbn [str info set_str set_visited] in *.
      exists (t0 +:+ "."). split; [by rewrite Hs, string_app_assoc|].
      split; [done|]. by exists t0.
    - injection H2 as <-. exists "". simpl.
      by rewrite string_app_nil_r. }
  destruct Htarget as (tt & Hs2 & Hi2 & Htt). clear H2.
  run_step Hrun u3 H3. rewrite run_WriteString in H3. injection H3 as <-.
  run_step Hrun u4 H4. rewrite run_pad in H4.
  remember (Z.to_nat _) as n eqn:Hn in H4. clear Hn. injection H4 as <-.
  run_step Hrun u5 H5. rewrite run_WriteString in H5. injection H5 as <-.
  run_step Hrun u6 H6. apply run_elements in H6 as (ts & Hstr & Hinfo & Hseq).
  rewrite run_WriteString in Hrun. injection Hrun as <-.
  cbn [str info set_str set_visited] in *.
  exists tt, n, ts. split; [|split; [done|split]].
  - rewrite Hstr, Hs2. by rewrite !string_app_assoc.
  - by eapply in_sequence_length.
  - rewrite Hs2, Hi2 in Hseq. by rewrite !string_app_assoc in Hseq.
Qed.

(** A field selection is rendered as the operand, padding, a dot and the
    field name; a presence test wraps this in [has(] and [)].  The
    operand is never parenthesized.  The visit succeeds only if the
    operand is set. *)
Theorem select_rendering (id : Z) (operand : option Expr) (field : string)
    (test_only : bool) (un un' : unparser) :
  visit (Expr_SelectExpr id operand field test_only) un = (Ok (), un') →
  ∃ o t n,
    operand = Some o
    ∧ str un' = str un +:+ has_open test_only +:+ t +:+ spaces n +:+ "."
                  +:+ field +:+ has_close test_only
    ∧ renders (info un) o (str un +:+ has_open test_only) t.
Proof.
  rewrite visit_unfold. cbn [visit_dispatch]. unfold visitSelect.
  intros Hrun.
  run_step Hrun u1 H1. rewrite run_trace in H1. injection H1 as <-.
  run_step Hrun u2 H2.
  assert (Hopen : u2 = set_str (str un +:+ has_open test_only)
                         (set_visited (visited un ++ [Expr_SelectExpr id
                            operand field test_only]) un)).
  { destruct test_only; simpl in *.
    - rewrite run_WriteString in H2. by injection H2 as <-.
    - injection H2 as <-. unfold set_str. simpl.
      by rewrite string_app_nil_r. }
  subst u2. clear H2.
  run_step Hrun u3 H3. destruct operand as [o|]; [|done]. simpl in H3.
  apply run_visit in H3 as (t & Hr & Hs & Hi).
  run_step Hrun u4 H4. rewrite run_pad in H4.
  remember (Z.to_nat _) as n eqn:Hn in H4. clear Hn. injection H4 as <-.
  run_step Hrun u5 H5. rewrite run_WriteString in H5. injection H5 as <-.
  run_step Hrun u6 H6. rewrite run_WriteString in H6. injection H6 as <-.
  cbn [str info set_str set_visited] in *.
  exists o, t, n. split; [done|]. split; [|done].
  destruct test_only; simpl in *.
  - rewrite run_WriteString in Hrun. injection Hrun as <-. simpl.
    rewrite Hs. by rewrite !string_app_assoc.
  - injection Hrun as <-. simpl. rewrite Hs.
    by rewrite !string_app_assoc, string_app_nil_r.
Qed.

Lemma visitCall_unary (visit : Expr → M unit) (id : Z)
    (target : option Expr) (fn : string) (args : list Expr) :
  fn ∈ unary_operators →
  visitCall visit id target fn args = visitCallUnary visit id fn args.
Proof.
  intros Hfn. destruct (unary_not_special fn Hfn) as [H1 H2].
  unfold visitCall. rewrite !bool_decide_eq_false_2 by done.
  by rewrite bool_decide_eq_true_2.
Qed.

(** A call of logical-not or of negation is rendered as padding, the
    display symbol and the operand, with nothing between the symbol and
    the operand: the operand is never parenthesized, whatever it is. *)
Theorem unary_operand_never_parenthesized (id : Z) (target : option Expr)
    (fn : string) (a0 : Expr) (rest : list Expr) (un un' : unparser) :
  fn ∈ unary_operators →
  visit (Expr_CallExpr id target fn (a0 :: rest)) un = (Ok (), un') →
  ∃ sym n t,
    FindReverse fn = Some sym
    ∧ str un' = str un +:+ spaces n +:+ sym +:+ t
    ∧ renders (info un) a0 (str un +:+ spaces n +:+ sym) t.
Proof.
  intros Hfn. rewrite visit_unfold. cbn [visit_dispatch].
  rewrite visitCall_unary by done. unfold visitCallUnary.
  intros Hrun.
  run_step Hrun u1 H1. rewrite run_trace in H1. injection H1 as <-.
  run_step Hrun u2 H2. rewrite run_pad in H2.
  remember (Z.to_nat _) as n eqn:Hn in H2. clear Hn. injection H2 as <-.
  destruct (FindReverse fn) as [sym|]; [|done].
  run_step Hrun u3 H3. rewrite run_WriteString in H3. injection H3 as <-.
  apply run_visit in Hrun as (t & Hr & Hs & Hi).
  cbn [str info set_str set_visited] in *.
  exists sym, n, t. split; [done|]. split.
  - rewrite Hs. by rewrite !string_app_assoc.
  - by rewrite string_app_assoc in Hr.
Qed.

(** An index operation is rendered as the indexed operand, padding, and
    the index between brackets.  Neither operand is parenthesized. *)
Theorem index_rendering (id : Z) (target : option Expr) (a0 a1 : Expr)
    (rest : list Expr) (un un' : unparser) :
  visit (Expr_CallExpr id target Index (a0 :: a1 :: rest)) un = (Ok (), un') →
  ∃ t0 n t1,
    str un' = str un +:+ t0 +:+ spaces n +:+ "[" +:+ t1 +:+ "]"
    ∧ renders (info un) a0 (str un) t0
    ∧ renders (info un) a1 (str un +:+ t0 +:+ spaces n +:+ "[") t1.
Proof.
  rewrite visit_unfold. cbn [visit_dispatch].
  rewrite visitCall_index. unfold visitCallIndex.
  intros Hrun.
  run_step Hrun u1 H1. rewrite run_trace in H1. injection H1 as <-.
  run_step Hrun u2 H2. apply run_visit in H2 as (t0 & Hr0 & Hs0 & Hi0).
  run_step Hrun u3 H3. rewrite run_pad in H3.
  remember (Z.to_nat _) as n eqn:Hn in H3. clear Hn. injection H3 as <-.
  run_step Hrun u4 H4. rewrite run_WriteString in H4. injection H4 as <-.
  run_step Hrun u5 H5. apply run_visit in H5 as (t1 & Hr1 & Hs1 & Hi1).
  rewrite run_WriteString in Hrun. injection Hrun as <-.
  cbn [str info set_str set_visited] in *.
  exists t0, n, t1. split; [|split; [done|]].
  - rewrite Hs1, Hs0. by rewrite !string_app_assoc.
  - rewrite Hs0, Hi0 in Hr1. by rewrite !string_app_assoc in Hr1.
Qed.

End NodeShapes.

Section Structs.
Context {ops : Operators} {sc : Strconv}.

(** The text of a field of a message: the field name, padding, a colon
    and a blank, and the value. *)
Definition field_rendered (inf : SourceInfo) (entry : Entry)
    (prefix t : string) : Prop :=
  ∃ n v tv,
    Entry_GetValue entry = Some v
    ∧ t = Entry_GetFieldKey entry +:+ spaces n +:+ ": " +:+ tv
    ∧ renders inf v
        (prefix +:+ Entry_GetFieldKey entry +:+ spaces n +:+ ": ") tv.

(** The text of an entry of a map: the key, padding, a colon and a blank,
    and the value. *)
Definition map_entry_rendered (inf : SourceInfo) (entry : Entry)
    (prefix t : string) : Prop :=
  ∃ k v tk n tv,
    Entry_GetMapKey entry = Some k
    ∧ Entry_GetValue entry = Some v
    ∧ t = tk +:+ spaces n +:+ ": " +:+ tv
    ∧ renders inf k prefix tk
    ∧ renders inf v (prefix +:+ tk +:+ spaces n +:+ ": ") tv.

(** The body of the loop of [visitStructMsg], up to the separator. *)
Definition field_item (entry : Entry) : M unit :=
  WriteString (Entry_GetFieldKey entry);;
  pad (Entry_GetId entry);;
  WriteString ": ";;
  visit_value visit entry.

(** The body of the loop of [visitStructMap], up to the separator. *)
Definition map_entry_item (entry : Entry) : M unit :=
  visit_map_key visit entry;;
  pad (Entry_GetId entry);;
  WriteString ": ";;
  visit_value visit entry.

Lemma appends_visit_value (entry : Entry) : appends (visit_value visit entry).
Proof.
  destruct entry as [? [v|]|? ? [v|]|? ? [v|]]; simpl;
    first [apply appends_visit|apply appends_panic].
Qed.

Lemma appends_visit_map_key (entry : Entry) :
  appends (visit_map_key visit entry).
Proof.
  destruct entry; simpl; first [apply appends_visit|apply appends_panic].
Qed.

Lemma appends_field_item (entry : Entry) : appends (field_item entry).
Proof.
  unfold field_item.
  repeat first [ apply appends_bind; [|intros ?] | apply appends_WriteString
               | apply appends_pad | apply appends_visit_value ].
Qed.

Lemma appends_map_entry_item (entry : Entry) :
  appends (map_entry_item entry).
Proof.
  unfold map_entry_item.
  repeat first [ apply appends_bind; [|intros ?] | apply appends_WriteString
               | apply appends_pad | apply appends_visit_value
               | apply appends_visit_map_key ].
Qed.

Lemma run_visit_value (entry : Entry) (un un' : unparser) :
  visit_value visit entry un = (Ok (), un') →
  ∃ v t, Entry_GetValue entry = Some v
         ∧ renders (info un) v (str un) t ∧ str un' = str un +:+ t
         ∧ info un' = info un.
Proof.
  intros Hrun. destruct entry as [? [v|]|? ? [v|]|? ? [v|]]; simpl in *;
    try done; apply run_visit in Hrun as (t & ? & ? & ?); by exists v, t.
Qed.

Lemma run_visit_map_key (entry : Entry) (un un' : unparser) :
  visit_map_key visit entry un = (Ok (), un') →
  ∃ k t, Entry_GetMapKey entry = Some k
         ∧ renders (info un) k (str un) t ∧ str un' = str un +:+ t
         ∧ info un' = info un.
Proof.
  intros Hrun. destruct entry as [? ?|? ? ?|? k ?]; simpl in *; try done.
  apply run_visit in Hrun as (t & ? & ? & ?). by exists k, t.
Qed.

Lemma runs_field_item (inf : SourceInfo) (entry : Entry) (prefix t : string) :
  runs inf (field_item entry) prefix t → field_rendered inf entry prefix t.
Proof.
  intros (u & u' & <- & <- & Hrun & Hstr). unfold field_item in Hrun.
  run_step Hrun u1 H1. rewrite run_WriteString in H1. injection H1 as <-.
  run_step Hrun u2 H2. rewrite run_pad in H2.
  remember (Z.to_nat _) as n eqn:Hn in H2. clear Hn. injection H2 as <-.
  run_step Hrun u3 H3. rewrite run_WriteString in H3. injection H3 as <-.
  apply run_visit_value in Hrun as (v & tv & Hv & Hr & Hs & Hi).
  cbn [str info set_str] in *.
  exists n, v, tv. split; [done|]. split.
  - rewrite Hs in Hstr. rewrite !string_app_assoc in Hstr.
    by apply String.app_inj in Hstr.
  - by rewrite !string_app_assoc in Hr.
Qed.

Lemma runs_map_entry_item (inf : SourceInfo) (entry : Entry)
    (prefix t : string) :
  runs inf (map_entry_item entry) prefix t →
  map_entry_rendered inf entry prefix t.
Proof.
  intros (u & u' & <- & <- & Hrun & Hstr). unfold map_entry_item in Hrun.
  run_step Hrun u1 H1.
  apply run_visit_map_key in H1 as (k & tk & Hk & Hrk & Hsk & Hik).
  run_step Hrun u2 H2. rewrite run_pad in H2.
  remember (Z.to_nat _) as n eqn:Hn in H2. clear Hn. injection H2 as <-.
  run_step Hrun u3 H3. rewrite run_WriteString in H3. injection H3 as <-.
  apply run_visit_value in Hrun as (v & tv & Hv & Hr & Hs & Hi).
  cbn [str info set_str] in *.
  exists k, v, tk, n, tv. split; [done|]. split; [done|]. split; [|split].
  - rewrite Hs, Hsk in Hstr. rewrite !string_app_assoc in Hstr.
    by apply String.app_inj in Hstr.
  - done.
  - rewrite Hsk, Hik in Hr. by rewrite !string_app_assoc in Hr.
Qed.

Lemma run_bind4_assoc (a b c d tail : M unit) (u : unparser) :
  (a;; b;; c;; d;; tail) u = ((a;; b;; c;; d);; tail) u.
Proof.
  unfold mbind, M_bind, bind.
  destruct (a u) as [[[]|?|?] u1]; [|done..].
  destruct (b u1) as [[[]|?|?] u2]; [|done..].
  destruct (c u2) as [[[]|?|?] u3]; [|done..].
  by destruct (d u3) as [[[]|?|?] u4].
Qed.

Lemma field_item_body (len i : Z) (entry : Entry) (u : unparser) :
  (WriteString (Entry_GetFieldKey entry);;
   pad (Entry_GetId entry);;
   WriteString ": ";;
   visit_value visit entry;;
   if i <? len - 1 then WriteString ", " else ret ()) u
  = (field_item entry;;
     if i <? len - 1 then WriteString ", " else ret ()) u.
Proof.
  unfold field_item. apply run_bind4_assoc.
Qed.

Lemma map_entry_item_body (len i : Z) (entry : Entry) (u : unparser) :
  (visit_map_key visit entry;;
   pad (Entry_GetId entry);;
   WriteString ": ";;
   visit_value visit entry;;
   if i <? len - 1 then WriteString ", " else ret ()) u
  = (map_entry_item entry;;
     if i <? len - 1 then WriteString ", " else ret ()) u.
Proof.
  unfold map_entry_item. apply run_bind4_assoc.
Qed.


(** A message construction (a struct node with a message name) is
    rendered as the message name, padding, and between braces the fields
    in order, with a comma and a blank between two of them; each field is
    its name, padding, a colon and a blank, and its value. *)
Theorem message_fields_rendering (id : Z) (message_name : string)
    (entries : list Entry) (un un' : unparser) :
  message_name ≠ "" →
  visit (Expr_StructExpr id message_name entries) un = (Ok (), un') →
  ∃ n ts,
    str un' = str un +:+ message_name +:+ spaces n +:+ "{"
                +:+ join ", " ts +:+ "}"
    ∧ length ts = length entries
    ∧ in_sequence (field_rendered (info un)) ", "
        (str un +:+ message_name +:+ spaces n +:+ "{") entries ts.
Proof.
  intros Hname. rewrite visit_unfold. cbn [visit_dispatch].
  unfold visitStruct. rewrite bool_decide_eq_true_2 by done.
  unfold visitStructMsg. intros Hrun.
  run_step Hrun u1 H1. rewrite run_trace in H1. injection H1 as <-.
  run_step Hrun u2 H2. rewrite run_WriteString in H2. injection H2 as <-.
  run_step Hrun u3 H3. rewrite run_pad in H3.
  remember (Z.to_nat _) as n eqn:Hn in H3. clear Hn. injection H3 as <-.
  run_step Hrun u4 H4. rewrite run_WriteString in H4. injection H4 as <-.
  run_step Hrun u5 H5.
  apply (run_for_range_sep _ field_item ", " (Z.of_nat (length entries)))
    in H5 as (ts & Hstr & Hinfo & Hseq);
    [|intros; apply field_item_body|apply appends_field_item|lia].
  rewrite run_WriteString in Hrun. injection Hrun as <-.
  cbn [str info set_str set_visited] in *.
  apply (in_sequence_impl _ (field_rendered (info un))) in Hseq;
    [|intros ? ? ?; apply runs_field_item].
  exists n, ts. split; [|split].
  - rewrite Hstr. by rewrite !string_app_assoc.
  - by eapply in_sequence_length.
  - by rewrite !string_app_assoc in Hseq.
Qed.

(** A map construction (a struct node without a message name) is
    rendered as padding, and between braces the entries in order, with a
    comma and a blank between two of them; each entry is its key,
    padding, a colon and a blank, and its value.  The visit succeeds only
    if every entry has a map key. *)
Theorem map_entries_rendering (id : Z) (entries : list Entry)
    (un un' : unparser) :
  visit (Expr_StructExpr id "" entries) un = (Ok (), un') →
  ∃ n ts,
    str un' = str un +:+ spaces n +:+ "{" +:+ join ", " ts +:+ "}"
    ∧ length ts = length entries
    ∧ in_sequence (map_entry_rendered (info un)) ", "
        (str un +:+ spaces n +:+ "{") entries ts.
Proof.
  rewrite visit_unfold. cbn [visit_dispatch].
  unfold visitStruct. rewrite bool_decide_eq_false_2 by (by intros []).
  unfold visitStructMap. intros Hrun.
  run_step Hrun u1 H1. rewrite run_trace in H1. injection H1 as <-.
  run_step Hrun u3 H3. rewrite run_pad in H3.
  remember (Z.to_nat _) as n eqn:Hn in H3. clear Hn. injection H3 as <-.
  run_step Hrun u4 H4. rewrite run_WriteString in H4. injection H4 as <-.
  run_step Hrun u5 H5.
  apply (run_for_range_sep _ map_entry_item ", " (Z.of_nat (length entries)))
    in H5 as (ts & Hstr & Hinfo & Hseq);
    [|intros; apply map_entry_item_body|apply appends_map_entry_item|lia].
  rewrite run_WriteString in Hrun. injection Hrun as <-.
  cbn [str info set_str set_visited] in *.
  apply (in_sequence_impl _ (map_entry_rendered (info un))) in Hseq;
    [|intros ? ? ?; apply runs_map_entry_item].
  exists n, ts. split; [|split].
  - rewrite Hstr. by rewrite !string_app_assoc.
  - by eapply in_sequence_length.
  - by rewrite !string_app_assoc in Hseq.
Qed.

End Structs.

(** ** Padding, once and twice *)

(** After the padding step for a node, the buffer is as long as the
    longer of what it was and the recorded offset of the node, so that a
    second padding step for the same node adds nothing (buffer and offset
    below 2^31). *)
Theorem pad_reaches_offset (id : Z) (un : unparser) :
  Z.of_nat (String.length (str un)) < 2 ^ 31 →
  recorded_offset un id < 2 ^ 31 →
  Z.of_nat (String.length (str (pad id un).2))
  = Z.max (Z.of_nat (String.length (str un))) (recorded_offset un id)
  ∧ (pad id;; pad id) un = pad id un.
Proof.
  intros Hlen Hoff. rewrite run_bind, run_pad_in_range by done.
  cbn [snd str set_str].
  assert (Hnew : Z.of_nat (String.length (str un +:+
      spaces (Z.to_nat (recorded_offset un id
                        - Z.of_nat (String.length (str un))))))
    = Z.max (Z.of_nat (String.length (str un))) (recorded_offset un id)).
  { rewrite string_length_app, spaces_length. lia. }
  split; [exact Hnew|].
  apply run_pad_behind; cbn [str set_str]; rewrite Hnew.
  - lia.
  - unfold recorded_offset. cbn [info set_str]. fold (recorded_offset un id).
    lia.
Qed.

Lemma pad_reaches_offset_witness :
  Z.of_nat (String.length (str (pad 1 small_state).2)) = 5
  ∧ (pad 1;; pad 1) small_state = pad 1 small_state.
Proof.
  destruct (pad_reaches_offset 1 small_state) as [H1 H2];
    [by vm_compute..|].
  split; [|exact H2]. rewrite H1. by vm_compute.
Defined.

(** ** What the line-break pass changes *)

(** A character after the pass: the same character, or a line break
    where there was a space. *)
Definition break_step (c c' : Z) : Prop := c' = c ∨ (c = 32 ∧ c' = 10).

#[export] Instance break_step_refl : Reflexive break_step.
Proof. intros c. by left. Qed.

#[export] Instance break_step_trans : Transitive break_step.
Proof. intros a b c [->|[-> ->]] [->|[? ->]]; unfold break_step; lia. Qed.

(** The number of positions at which two texts differ. *)
Fixpoint differences (l k : list Z) : nat :=
  match l, k with
  | x :: l', y :: k' =>
    ((if Z.eqb x y then O else 1%nat) + differences l' k')%nat
  | _, _ => O
  end.

Lemma differences_refl (l : list Z) : differences l l = O.
Proof. induction l as [|x l IH]; simpl; [done|]. by rewrite Z.eqb_refl. Qed.

Lemma differences_insert (l : list Z) (i : nat) (v : Z) :
  (differences l (<[i:=v]> l) ≤ 1)%nat.
Proof.
  revert i. induction l as [|x l IH]; intros [|i]; simpl; try lia.
  - rewrite differences_refl. destruct (x =? v); lia.
  - rewrite Z.eqb_refl. apply IH.
Qed.

Lemma differences_triangle (a b c : list Z) :
  length a = length b →
  (differences a c ≤ differences a b + differences b c)%nat.
Proof.
  revert b c. induction a as [|x a IH]; intros [|y b] [|z c] Hlen;
    simpl in *; try lia.
  injection Hlen as Hlen. specialize (IH b c Hlen).
  destruct (Z.eqb_spec x z), (Z.eqb_spec x y), (Z.eqb_spec y z); lia.
Qed.

Lemma insert_break_step (txt : list Z) (i : nat) :
  txt !! i = Some 32 → Forall2 break_step txt (<[i:=10]> txt).
Proof.
  intros Hi. apply Forall2_same_length_lookup_2; [by rewrite length_insert|].
  intros j x y Hx Hy. destruct (decide (i = j)) as [->|Hne].
  - rewrite list_lookup_insert_eq in Hy by (by eapply lookup_lt_Some).
    right. split; congruence.
  - rewrite list_lookup_insert_ne in Hy by done. left. congruence.
Qed.

(** One run of the inner loop replaces at most one space by a line
    break, and changes nothing else. *)
Lemma break_loop_changes (fuel : nat) (sz br : Z) (txt txt' : list Z) :
  break_loop fuel sz br txt = inr txt' →
  Forall2 break_step txt txt' ∧ (differences txt txt' ≤ 1)%nat.
Proof.
  revert br. induction fuel as [|fuel IH]; intros br; cbn [break_loop].
  - intros [= <-]. split; [done|]. rewrite differences_refl. lia.
  - destruct (_ <? sz); [|intros [= <-]; split; [done|];
                           rewrite differences_refl; lia].
    destruct (_ <? 0); [done|].
    destruct (txt !! _) as [c|] eqn:Hc; [|done].
    destruct (Z.eqb_spec c 32) as [->|Hne]; [|apply IH].
    intros [= <-]. split; [by apply insert_break_step|].
    apply differences_insert.
Qed.

(** The whole pass replaces at most one space per recorded offset. *)
Lemma apply_breaks_changes (sz : Z) (breaks : list Z) (txt txt' : list Z) :
  apply_breaks sz breaks txt = inr txt' →
  Forall2 break_step txt txt'
  ∧ (differences txt txt' ≤ length breaks)%nat.
Proof.
  revert txt. induction breaks as [|br breaks IH]; intros txt;
    cbn [apply_breaks].
  - intros [= <-]. split; [done|]. rewrite differences_refl. simpl. lia.
  - destruct (break_loop _ sz br txt) as [p|txt1] eqn:Hloop; [done|].
    apply break_loop_changes in Hloop as [H1 Hd1].
    intros [H2 Hd2]%IH. split; [by transitivity txt1|].
    pose proof (differences_triangle txt txt1 txt'
                  (Forall2_length _ _ _ H1)). simpl. lia.
Qed.

Section LineBreakPass.
Context {ops : Operators} {sc : Strconv}.

(** Whenever [Unparse] returns a text, the visit has succeeded; with at
    most one recorded line offset the text is the content of the buffer,
    and with more it is the buffer read as characters after a pass that
    has kept the number of characters, has only replaced spaces by line
    breaks, and has replaced at most one space per recorded offset. *)
Theorem line_breaks_only_replace_spaces (e : Expr) (inf : SourceInfo)
    (s : string) :
  Unparse e inf = Returned s None →
  ∃ un,
    visit e (new_unparser inf) = (Ok (), un)
    ∧ ((length (line_offsets inf) ≤ 1)%nat → s = str un)
    ∧ ((1 < length (line_offsets inf))%nat →
       ∃ txt',
         s = Go.string_of_runes txt'
         ∧ length txt' = length (Go.runes_of_string (str un))
         ∧ Forall2 break_step (Go.runes_of_string (str un)) txt'
         ∧ (differences (Go.runes_of_string (str un)) txt'
            ≤ length (line_offsets inf))%nat).
Proof.
  unfold Unparse.
  destruct (visit e (new_unparser inf)) as [[[]|err|p] un]; [|done..].
  destruct (Z.leb_spec (Z.of_nat (length (line_offsets inf))) 1) as [Hle|Hgt].
  - intros [= <-]. exists un. split; [done|]. split; [done|]. lia.
  - destruct (apply_breaks _ _ _) as [p|txt'] eqn:Hpass; [done|].
    intros [= <-]. exists un. split; [done|]. split; [lia|].
    intros _. apply apply_breaks_changes in Hpass as [Hstep Hdiff].
    exists txt'. split; [done|].
    split; [symmetry; by eapply Forall2_length|done].
Qed.

End LineBreakPass.

Section LineBreakPassExamples.
Import SpecTable.

Lemma line_breaks_only_replace_spaces_witness :
  Unparse a_and_b two_lines = Returned ("a &&" +:+ newline +:+ " b") None
  ∧ ∃ un, visit a_and_b (new_unparser two_lines) = (Ok (), un)
          ∧ ∃ txt', "a &&" +:+ newline +:+ " b" = Go.string_of_runes txt'
                    ∧ Forall2 break_step (Go.runes_of_string (str un)) txt'.
Proof.
  assert (H : Unparse a_and_b two_lines
              = Returned ("a &&" +:+ newline +:+ " b") None)
    by (by vm_compute).
  split; [exact H|].
  destruct (line_breaks_only_replace_spaces _ _ _ H) as (un & Hv & _ & Hmany).
  exists un. split; [exact Hv|].
  destruct Hmany as (txt' & Hs & _ & Hstep & _); [simpl; lia|].
  by exists txt'.
Defined.

End LineBreakPassExamples.

(** ** What an operator call reads *)

Section OperatorCalls.
Context {ops : Operators} {sc : Strconv}.

Lemma arity_operator (fn : string) :
  fn ∈ operator_names →
  (fn = Conditional ∧ arity fn = 3%nat)
  ∨ (fn = Index ∧ arity fn = 2%nat)
  ∨ (fn ∈ unary_operators ∧ arity fn = 1%nat)
  ∨ (fn ∈ binary_operators ∧ arity fn = 2%nat).
Proof.
  unfold operator_names. rewrite !elem_of_app, !elem_of_cons, elem_of_nil.
  unfold arity. intros [[->|[->|[]]]|[Hun|Hbin]].
  - left. by rewrite bool_decide_eq_true_2.
  - right. left. rewrite bool_decide_eq_false_2 by apply Index_not_Conditional.
    by rewrite bool_decide_eq_true_2.
  - right. right. left. destruct (unary_not_special fn Hun).
    rewrite !bool_decide_eq_false_2 by done.
    by rewrite bool_decide_eq_true_2.
  - right. right. right. destruct (binary_not_special fn Hbin) as (? & ? & ?).
    rewrite !bool_decide_eq_false_2 by done.
    by rewrite bool_decide_eq_true_2.
Qed.

(** The visitor of an operator call reads neither the target of the call
    nor the arguments after those the operator takes. *)
Lemma visitCall_operands (visit : Expr → M unit) (id : Z)
    (t1 t2 : option Expr) (fn : string) (args : list Expr) :
  fn ∈ operator_names → (arity fn ≤ length args)%nat →
  visitCall visit id t1 fn args
  = visitCall visit id t2 fn (take (arity fn) args).
Proof.
  intros Hfn Hlen.
  destruct (arity_operator fn Hfn)
    as [[-> Har]|[[-> Har]|[[Hun Har]|[Hbin Har]]]];
    rewrite Har in *.
  - rewrite !visitCall_conditional.
    destruct args as [|a0 [|a1 [|a2 rest]]]; simpl in Hlen; try lia. done.
  - rewrite !visitCall_index.
    destruct args as [|a0 [|a1 rest]]; simpl in Hlen; try lia. done.
  - rewrite !visitCall_unary by done.
    destruct args as [|a0 rest]; simpl in Hlen; try lia. done.
  - rewrite !visitCall_binary by done.
    destruct args as [|a0 [|a1 rest]]; simpl in Hlen; try lia. done.
Qed.

Lemma appends_visitCall (id : Z) (target : option Expr) (fn : string)
    (args : list Expr) :
  appends (visitCall visit id target fn args).
Proof.
  pose proof appends_visit as Hvisit.
  unfold visitCall. repeat apply appends_if.
  - unfold visitCallConditional.
    destruct args as [|a0 [|a1 [|a2 rest]]];
      repeat first [ apply appends_visitMaybeNested
                   | apply appends_bind; [|intros ?]
                   | apply appends_WriteString
                   | apply appends_pad | apply appends_panic | apply Hvisit ].
  - unfold visitCallIndex.
    destruct args as [|a0 [|a1 rest]];
      repeat first [ apply appends_bind; [|intros ?]
                   | apply appends_WriteString
                   | apply appends_pad | apply appends_panic | apply Hvisit ].
  - unfold visitCallUnary.
    apply appends_bind; [apply appends_pad|intros _].
    destruct (FindReverse fn); [|apply appends_fail].
    apply appends_bind; [apply appends_WriteString|intros _].
    destruct args; [apply appends_panic|apply Hvisit].
  - unfold visitCallBinary.
    destruct args as [|a0 [|a1 rest]]; try apply appends_panic.
    apply appends_bind; [by apply appends_visitMaybeNested|intros _].
    destruct (FindReverse fn); [|apply appends_fail].
    repeat first [ apply appends_visitMaybeNested
                 | apply appends_bind; [|intros ?]
                 | apply appends_WriteString
                 | apply appends_pad | apply Hvisit ].
  - unfold visitCallFunc.
    apply appends_bind; [|intros _].
    { destruct target; [|apply appends_ret].
      apply appends_bind; [apply Hvisit|intros _; apply appends_WriteString]. }
    repeat (apply appends_bind; [first [apply appends_WriteString
                                       |apply appends_pad]|intros _]).
    apply appends_bind; [|intros _; apply appends_WriteString].
    apply appends_for_range. apply Forall_forall. intros a _ i.
    apply appends_bind; [apply Hvisit|intros _].
    apply appends_if; [apply appends_WriteString|apply appends_ret].
Qed.

(** Two runs of a computation that differ only in the ghost log end in
    the same outcome and leave the same text. *)
Lemma appends_ghost {A : Type} (m : M A) (un : unparser) (v1 v2 : list Expr) :
  appends m →
  (m (set_visited v1 un)).1 = (m (set_visited v2 un)).1
  ∧ str (m (set_visited v1 un)).2 = str (m (set_visited v2 un)).2.
Proof.
  intros Hm. destruct (Hm un) as [_ Hghost].
  destruct (Hghost v1) as (v1' & ->). destruct (Hghost v2) as (v2' & ->).
  done.
Qed.

(** The rendering of an operator call (conditional, index, unary or
    binary operator) depends neither on the target of the call nor on the
    arguments that follow those the operator takes: with or without them
    the visit ends in the same outcome and leaves the same text. *)
Theorem operator_call_reads_only_operands (id : Z) (t1 t2 : option Expr)
    (fn : string) (args : list Expr) (un : unparser) :
  fn ∈ operator_names → (arity fn ≤ length args)%nat →
  (visit (Expr_CallExpr id t1 fn args) un).1
  = (visit (Expr_CallExpr id t2 fn (take (arity fn) args)) un).1
  ∧ str (visit (Expr_CallExpr id t1 fn args) un).2
    = str (visit (Expr_CallExpr id t2 fn (take (arity fn) args)) un).2.
Proof.
  intros Hfn Hlen. rewrite !visit_unfold. cbn [visit_dispatch].
  rewrite !run_bind, !run_trace.
  rewrite (visitCall_operands visit id t1 t2 fn args) by done.
  apply appends_ghost, appends_visitCall.
Qed.

(** A call of a unary or binary operator for which
    [operators.FindReverse] finds no display symbol is never rendered: the
    visit does not succeed, and for a unary operator it ends in the error
    "cannot unmangle operator" whatever the arguments are, even when
    there is none. *)
Theorem operator_without_symbol_not_rendered (id : Z) (target : option Expr)
    (fn : string) (args : list Expr) (un : unparser) :
  fn ∈ unary_operators ++ binary_operators →
  FindReverse fn = None →
  (visit (Expr_CallExpr id target fn args) un).1 ≠ Ok ()
  ∧ (fn ∈ unary_operators →
     (visit (Expr_CallExpr id target fn args) un).1 = Err (CannotUnmangle fn))
  ∧ ∀ inf s, Unparse (Expr_CallExpr id target fn args) inf ≠ Returned s None.
Proof.
  intros Hfn Hnone.
  assert (Hvisit : ∀ u,
    (visit (Expr_CallExpr id target fn args) u).1 ≠ Ok ()
    ∧ (fn ∈ unary_operators →
       (visit (Expr_CallExpr id target fn args) u).1
       = Err (CannotUnmangle fn))).
  { intros u. rewrite visit_unfold. cbn [visit_dispatch].
    rewrite fst_bind, run_trace. cbv iota beta.
    apply elem_of_app in Hfn as [Hun|Hbin].
    - rewrite visitCall_unary by done. unfold visitCallUnary.
      rewrite fst_bind, run_pad, Hnone. by split.
    - split.
      + rewrite visitCall_binary by done. unfold visitCallBinary.
        destruct args as [|lhs [|rhs rest]]; try done.
        rewrite fst_bind, Hnone.
        by destruct (visitMaybeNested visit lhs _ _) as [[[]|?|?] ?].
      + intros Hun. by apply binary_not_special in Hbin as (_ & _ & Hbin). }
  destruct (Hvisit un) as [H1 H2]. split; [exact H1|]. split; [exact H2|].
  intros inf s. unfold Unparse.
  destruct (Hvisit (new_unparser inf)) as [Hne _].
  destruct (visit _ (new_unparser inf)) as [[[]|?|?] ?]; done.
Qed.

End OperatorCalls.

(** ** Renderings of concrete trees *)

(** A table in which no operator has a display symbol, to run the
    visitors where [operators.FindReverse] finds nothing. *)
Definition no_symbols : Operators := {|
  Conditional := "_?_:_";
  Index := "_[_]";
  LogicalNot := "!_";
  Negate := "-_";
  Add := "_+_";
  Divide := "_/_";
  Equals := "_==_";
  Greater := "_>_";
  GreaterEquals := "_>=_";
  In := "@in";
  Less := "_<_";
  LessEquals := "_<=_";
  LogicalAnd := "_&&_";
  LogicalOr := "_||_";
  Modulo := "_%_";
  Multiply := "_*_";
  NotEquals := "_!=_";
  OldIn := "_in_";
  Subtract := "_-_";
  Precedence := SpecTable.precedence;
  FindReverse := λ _, None;
  operators_distinct := @operators_distinct SpecTable.operators;
|}.

Lemma operator_without_symbol_not_rendered_witness :
  @Negate no_symbols ∈ @unary_operators no_symbols
                        ++ @binary_operators no_symbols
  ∧ @FindReverse no_symbols (@Negate no_symbols) = None
  ∧ (@visit no_symbols example_strconv
       (Expr_CallExpr 1 None (@Negate no_symbols) [])
       (new_unparser no_info)).1
    = Err (CannotUnmangle (@Negate no_symbols)).
Proof.
  assert (Hun : @Negate no_symbols ∈ @unary_operators no_symbols)
    by (by apply (bool_decide_unpack _); vm_compute).
  assert (Hfn : @Negate no_symbols ∈ @unary_operators no_symbols
                                      ++ @binary_operators no_symbols)
    by (apply elem_of_app; by left).
  split; [exact Hfn|]. split; [done|].
  exact (proj1 (proj2 (@operator_without_symbol_not_rendered no_symbols
    example_strconv 1 None (@Negate no_symbols) [] (new_unparser no_info)
    Hfn eq_refl)) Hun).
Defined.

Section RenderingExamples.
Import SpecTable.

(** The state a visit started on an empty buffer, without source
    information, ends in. *)
Definition visited_from_empty (e : Expr) : unparser :=
  (visit e (new_unparser no_info)).2.

Definition abc_list : Expr :=
  Expr_ListExpr 1 [ident 2 "a"; ident 3 "b"; ident 4 "c"].

Lemma list_elements_comma_separated_witness :
  visit abc_list (new_unparser no_info) = (Ok (), visited_from_empty abc_list)
  ∧ str (visited_from_empty abc_list) = "[a,b,c]"
  ∧ ∃ n ts, str (visited_from_empty abc_list)
            = str (new_unparser no_info) +:+ spaces n +:+ "["
                +:+ join "," ts +:+ "]"
            ∧ length ts = 3%nat.
Proof.
  assert (H : visit abc_list (new_unparser no_info)
              = (Ok (), visited_from_empty abc_list)) by (by vm_compute).
  split; [exact H|]. split; [by vm_compute|].
  destruct (list_elements_comma_separated _ _ _ _ H) as (n & ts & Hs & Hl & _).
  by exists n, ts.
Defined.

Lemma f_not_operator : "f" ∉ operator_names.
Proof. apply (bool_decide_unpack _). by vm_compute. Qed.

Lemma function_call_rendering_witness :
  ("f" ∉ operator_names)
  ∧ visit method_call (new_unparser no_info)
    = (Ok (), visited_from_empty method_call)
  ∧ str (visited_from_empty method_call) = "x.f(a + 1,[b])"
  ∧ ∃ tt n ts,
      str (visited_from_empty method_call)
      = str (new_unparser no_info) +:+ tt +:+ "f" +:+ spaces n +:+ "("
          +:+ join "," ts +:+ ")"
      ∧ length ts = 2%nat.
Proof.
  assert (H : visit method_call (new_unparser no_info)
              = (Ok (), visited_from_empty method_call)) by (by vm_compute).
  split; [exact f_not_operator|]. split; [exact H|]. split; [by vm_compute|].
  destruct (function_call_rendering _ _ _ _ _ _ f_not_operator H)
    as (tt & n & ts & Hs & _ & Hl & _).
  by exists tt, n, ts.
Defined.

Definition has_a_b : Expr := Expr_SelectExpr 2 (Some (ident 1 "a")) "b" true.

Lemma select_rendering_witness :
  visit has_a_b (new_unparser no_info) = (Ok (), visited_from_empty has_a_b)
  ∧ str (visited_from_empty has_a_b) = "has(a.b)"
  ∧ ∃ t n, str (visited_from_empty has_a_b)
           = str (new_unparser no_info) +:+ has_open true +:+ t
               +:+ spaces n +:+ "." +:+ "b" +:+ has_close true.
Proof.
  assert (H : visit has_a_b (new_unparser no_info)
              = (Ok (), visited_from_empty has_a_b)) by (by vm_compute).
  split; [exact H|]. split; [by vm_compute|].
  destruct (select_rendering _ _ _ _ _ _ H) as (o & t & n & _ & Hs & _).
  by exists t, n.
Defined.

(** The negation of [a + b] is rendered as [-a + b]. *)
Definition minus_a_plus_b : Expr := call 4 "-_" [a_plus_b].

Lemma negate_is_unary : "-_" ∈ unary_operators.
Proof. apply (bool_decide_unpack _). by vm_compute. Qed.

Lemma unary_operand_never_parenthesized_witness :
  "-_" ∈ unary_operators
  ∧ visit minus_a_plus_b (new_unparser no_info)
    = (Ok (), visited_from_empty minus_a_plus_b)
  ∧ str (visited_from_empty minus_a_plus_b) = "-a + b"
  ∧ ∃ sym n t, FindReverse "-_" = Some sym
               ∧ str (visited_from_empty minus_a_plus_b)
                 = str (new_unparser no_info) +:+ spaces n +:+ sym +:+ t.
Proof.
  assert (H : visit minus_a_plus_b (new_unparser no_info)
              = (Ok (), visited_from_empty minus_a_plus_b))
    by (by vm_compute).
  split; [exact negate_is_unary|]. split; [exact H|].
  split; [by vm_compute|].
  destruct (unary_operand_never_parenthesized _ _ _ _ _ _ _
              negate_is_unary H) as (sym & n & t & Hsym & Hs & Hr).
  by exists sym, n, t.
Defined.

Definition a_at_i : Expr := call 3 "_[_]" [ident 1 "a"; ident 2 "i"].

Lemma index_rendering_witness :
  visit a_at_i (new_unparser no_info) = (Ok (), visited_from_empty a_at_i)
  ∧ str (visited_from_empty a_at_i) = "a[i]"
  ∧ ∃ t0 n t1, str (visited_from_empty a_at_i)
               = str (new_unparser no_info) +:+ t0 +:+ spaces n +:+ "["
                   +:+ t1 +:+ "]".
Proof.
  assert (H : visit a_at_i (new_unparser no_info)
              = (Ok (), visited_from_empty a_at_i)) by (by vm_compute).
  split; [exact H|]. split; [by vm_compute|].
  destruct (index_rendering 3 None (ident 1 "a") (ident 2 "i") [] _ _ H)
    as (t0 & n & t1 & Hs & _).
  by exists t0, n, t1.
Defined.

Definition msg_f_g : Expr :=
  Expr_StructExpr 1 "Msg" [Entry_FieldKey 2 "f" (Some (ident 3 "a"));
                           Entry_FieldKey 4 "g" (Some (ident 5 "b"))].

Lemma message_fields_rendering_witness :
  "Msg" ≠ ""
  ∧ visit msg_f_g (new_unparser no_info) = (Ok (), visited_from_empty msg_f_g)
  ∧ str (visited_from_empty msg_f_g) = "Msg{f: a, g: b}"
  ∧ ∃ n ts, str (visited_from_empty msg_f_g)
            = str (new_unparser no_info) +:+ "Msg" +:+ spaces n +:+ "{"
                +:+ join ", " ts +:+ "}"
            ∧ length ts = 2%nat.
Proof.
  assert (Hname : "Msg" ≠ "") by done.
  assert (H : visit msg_f_g (new_unparser no_info)
              = (Ok (), visited_from_empty msg_f_g)) by (by vm_compute).
  split; [exact Hname|]. split; [exact H|]. split; [by vm_compute|].
  destruct (message_fields_rendering _ _ _ _ _ Hname H)
    as (n & ts & Hs & Hl & _).
  by exists n, ts.
Defined.

Definition map_k_v : Expr :=
  Expr_StructExpr 1 "" [Entry_MapKey 2 (ident 3 "k") (Some (ident 4 "v"));
                        Entry_MapKey 5 (ident 6 "l") (Some (ident 7 "w"))].

Lemma map_entries_rendering_witness :
  visit map_k_v (new_unparser no_info) = (Ok (), visited_from_empty map_k_v)
  ∧ str (visited_from_empty map_k_v) = "{k: v, l: w}"
  ∧ ∃ n ts, str (visited_from_empty map_k_v)
            = str (new_unparser no_info) +:+ spaces n +:+ "{"
                +:+ join ", " ts +:+ "}"
            ∧ length ts = 2%nat.
Proof.
  assert (H : visit map_k_v (new_unparser no_info)
              = (Ok (), visited_from_empty map_k_v)) by (by vm_compute).
  split; [exact H|]. split; [by vm_compute|].
  destruct (map_entries_rendering _ _ _ _ H) as (n & ts & Hs & Hl & _).
  by exists n, ts.
Defined.

(** An addition with a target and a third argument is rendered as the
    addition of its first two arguments. *)
Definition odd_addition : Expr :=
  Expr_CallExpr 2 (Some (ident 9 "x")) "_+_"
    [ident 1 "a"; ident 3 "b"; ident 4 "c"].

Lemma operator_call_reads_only_operands_witness :
  "_+_" ∈ operator_names
  ∧ (arity "_+_" ≤ 3)%nat
  ∧ (visit odd_addition (new_unparser no_info)).1
    = (visit a_plus_b (new_unparser no_info)).1
  ∧ str (visit odd_addition (new_unparser no_info)).2
    = str (visit a_plus_b (new_unparser no_info)).2
  ∧ str (visit odd_addition (new_unparser no_info)).2 = "a + b".
Proof.
  assert (Hfn : "_+_" ∈ operator_names)
    by (by apply (bool_decide_unpack _); vm_compute).
  assert (Har : (arity "_+_" ≤ 3)%nat) by (vm_compute; lia).
  split; [exact Hfn|]. split; [exact Har|].
  destruct (operator_call_reads_only_operands 2 (Some (ident 9 "x")) None
              "_+_" [ident 1 "a"; ident 3 "b"; ident 4 "c"]
              (new_unparser no_info) Hfn Har) as [H1 H2].
  split; [exact H1|]. split; [exact H2|]. by vm_compute.
Defined.

End RenderingExamples.

(** ** The line-break pass on ASCII text *)

(** Every byte of the string is below 0x80. *)
Definition is_ascii (s : string) : Prop :=
  Forall (λ b, b < 0x80) (Go.bytes_of_string s).

Lemma byte_of_range (a : ascii) : 0 ≤ Go.byte_of a < 256.
Proof.
  unfold Go.byte_of. pose proof (Ascii.N_ascii_bounded a). lia.
Qed.

Lemma byte_of_ascii_of (b : Z) : 0 ≤ b < 256 → Go.byte_of (Go.ascii_of b) = b.
Proof.
  intros Hb. unfold Go.ascii_of, Go.byte_of.
  rewrite Ascii.N_ascii_embedding by lia. lia.
Qed.

Lemma bytes_of_string_range (s : string) :
  Forall (λ b, 0 ≤ b < 256) (Go.bytes_of_string s).
Proof.
  unfold Go.bytes_of_string. apply Forall_fmap, Forall_forall.
  intros a _. apply byte_of_range.
Qed.

Lemma bytes_of_string_of_bytes (bs : list Z) :
  Forall (λ b, 0 ≤ b < 256) bs →
  Go.bytes_of_string (Go.string_of_bytes bs) = bs.
Proof.
  intros Hbs. unfold Go.bytes_of_string, Go.string_of_bytes.
  rewrite String.list_ascii_of_string_of_list_ascii.
  induction Hbs as [|b bs Hb _ IH]; [done|].
  rewrite !fmap_cons, byte_of_ascii_of by done. by rewrite IH.
Qed.

Lemma bytes_of_string_length (s : string) :
  length (Go.bytes_of_string s) = String.length s.
Proof.
  unfold Go.bytes_of_string. rewrite length_fmap.
  induction s as [|a s IH]; simpl; [done|]. by rewrite IH.
Qed.

(** Reading ASCII bytes as characters, and writing ASCII characters as
    bytes, changes nothing. *)
Lemma DecodeRunes_ascii (bs : list Z) :
  Forall (λ b, b < 0x80) bs → Go.DecodeRunes bs = bs.
Proof.
  induction 1 as [|b bs Hb _ IH]; [done|]. cbn [Go.DecodeRunes].
  destruct (Z.ltb_spec b 0x80); [|lia]. by rewrite IH.
Qed.

Lemma EncodeRunes_ascii (rs : list Z) :
  Forall (λ r, 0 ≤ r < 0x80) rs → rs ≫= Go.EncodeRune = rs.
Proof.
  induction 1 as [|r rs Hr _ IH]; [done|].
  change ((r :: rs) ≫= Go.EncodeRune)
    with (Go.EncodeRune r ++ (rs ≫= Go.EncodeRune)).
  rewrite IH. unfold Go.EncodeRune.
  destruct (Z.leb_spec 0 r); [|lia]. destruct (Z.leb_spec r 0x7F); [|lia].
  done.
Qed.

Section AsciiLineBreaks.
Context {ops : Operators} {sc : Strconv}.

(** When the generated text is ASCII, the text [Unparse] returns has the
    length of the generated text and differs from it only where the
    line-break pass has replaced a space by a line break, whatever the
    number of recorded line offsets is. *)
Theorem ascii_text_keeps_its_bytes (e : Expr) (inf : SourceInfo)
    (un : unparser) (s : string) :
  visit e (new_unparser inf) = (Ok (), un) →
  is_ascii (str un) →
  Unparse e inf = Returned s None →
  String.length s = String.length (str un)
  ∧ Forall2 break_step (Go.bytes_of_string (str un)) (Go.bytes_of_string s).
Proof.
  intros Hvisit Hascii Hret.
  assert (Hbytes : Forall2 break_step (Go.bytes_of_string (str un))
                     (Go.bytes_of_string s)).
  { revert Hret. unfold Unparse. rewrite Hvisit.
    destruct (_ <=? 1); [by intros [= <-]|].
    destruct (apply_breaks _ _ _) as [p|txt'] eqn:Hpass; [done|].
    intros [= <-]. apply apply_breaks_changes in Hpass as [Hstep _].
    unfold Go.runes_of_string in Hstep.
    rewrite DecodeRunes_ascii in Hstep by done.
    assert (Hrange : Forall (λ r, 0 ≤ r < 0x80) txt').
    { apply Forall_forall. intros r' Hr'.
      apply list_elem_of_lookup in Hr' as [i Hi].
      destruct (Forall2_lookup_r _ _ _ _ _ Hstep Hi) as (r & Hr & Hrel).
      apply list_elem_of_lookup_2 in Hr.
      pose proof (proj1 (Forall_forall _ _) Hascii r Hr).
      pose proof (proj1 (Forall_forall _ _) (bytes_of_string_range (str un))
                    r Hr).
      destruct Hrel as [->|[-> ->]]; simpl in *; lia. }
    unfold Go.string_of_runes. rewrite EncodeRunes_ascii by done.
    rewrite bytes_of_string_of_bytes; [done|].
    eapply Forall_impl; [exact Hrange|]. simpl. lia. }
  split; [|exact Hbytes].
  rewrite <- !bytes_of_string_length. symmetry. by eapply Forall2_length.
Qed.

End AsciiLineBreaks.

Section AsciiLineBreaksExamples.
Import SpecTable.

Lemma ascii_text_keeps_its_bytes_witness :
  visit a_and_b (new_unparser two_lines) = (Ok (), a_and_b_final)
  ∧ is_ascii (str a_and_b_final)
  ∧ Unparse a_and_b two_lines = Returned ("a &&" +:+ newline +:+ " b") None
  ∧ String.length ("a &&" +:+ newline +:+ " b")
    = String.length (str a_and_b_final).
Proof.
  assert (Hvisit : visit a_and_b (new_unparser two_lines)
                   = (Ok (), a_and_b_final)) by (by vm_compute).
  assert (Hascii : is_ascii (str a_and_b_final)).
  { unfold is_ascii. vm_compute. repeat constructor. }
  assert (Hret : Unparse a_and_b two_lines
                 = Returned ("a &&" +:+ newline +:+ " b") None)
    by (by vm_compute).
  split; [exact Hvisit|]. split; [exact Hascii|]. split; [exact Hret|].
  exact (proj1 (ascii_text_keeps_its_bytes _ _ _ _ Hvisit Hascii Hret)).
Defined.

End AsciiLineBreaksExamples.
